(** * CribDragger: a shallow embedding of [xor_text_finder.py] and
      [crib_dragger.py], and the properties of the key-candidate generator
      and of the session loop.

    Python values are modelled as follows.
    - [bytes] is a list of [Byte.byte]; a byte is read as a number with
      [Byte.to_N] where the source does arithmetic or bit operations on it.
    - [str] is a list of Unicode code points ([N]).
    - [bytes.decode()], [bytes.decode(errors='ignore')] and [str.encode()]
      are the UTF-8 codec, written out below.
    - a dict used for lookups only ([freq_dist]) is a [gmap], a set a [gset];
      the [Counter] whose iteration order the generator depends on is an
      association list in insertion order.
    - exceptions are an explicit outcome; the interactive session runs in a
      state monad over the oracle's remaining replies and the log of the
      decodings it makes, and hands the local variables of its loop on
      explicitly. *)

From Stdlib Require Import List NArith ZArith Lia Bool Strings.Byte String Ascii.
From Stdlib Require Import Sorting.Sorted Sorting.Permutation.
From stdpp Require Import base option list gmap.
Import ListNotations.

Local Open Scope N_scope.

(** ** Bytes *)

Abbreviation bytes := (list byte).

Definition byte_xor (a b : byte) : byte :=
  match Byte.of_N (N.lxor (Byte.to_N a) (Byte.to_N b)) with
  | Some c => c
  | None => x00
  end.

(** Model of [pwnlib.util.fiddling.xor] (the imported [xor]) with its default
    [cut='max']: empty arguments are dropped, the result is as long as the
    longest remaining argument, and every shorter argument wraps around. *)
Definition pwn_xor (args : list bytes) : bytes :=
  let strs := List.filter (fun s => negb (Nat.eqb (length s) 0)) args in
  match strs with
  | [] => []
  | _ =>
    let cut := fold_right Nat.max 0%nat (map (@length byte) strs) in
    map (fun n =>
           fold_left (fun rv s => byte_xor rv (nth (n mod length s) s x00))
                     strs x00)
        (seq 0 cut)
  end.

(** [xor_key_text(key, text)] on two [bytes] arguments. *)
Definition xor_key_text (key text : bytes) : bytes :=
  let target_length := Nat.min (length key) (length text) in
  firstn target_length (pwn_xor [key; text]).

(** [xor_key_text_list(key, text_list)] on [bytes] arguments. *)
Definition xor_key_text_list (key : bytes) (text_list : list bytes) : list bytes :=
  map (fun text => xor_key_text key text) text_list.

(** Byte-wise XOR of two sequences, stopping at the end of the shorter. *)
Fixpoint xor_zip (a b : bytes) : bytes :=
  match a, b with
  | x :: a', y :: b' => byte_xor x y :: xor_zip a' b'
  | _, _ => []
  end.

(** ** Strings and the UTF-8 codec *)

Abbreviation str := (list N).

#[global] Instance byte_eq_decision : EqDecision byte := Byte.byte_eq_dec.

(** The code point of an ASCII literal, for writing [str] and [bytes]
    values in examples. *)
Definition str_of (s : string) : str :=
  map Byte.to_N (list_byte_of_string s).
Definition bytes_of (s : string) : bytes := list_byte_of_string s.

Definition byte_of_N (n : N) : byte :=
  match Byte.of_N n with Some b => b | None => x00 end.

Definition in_range (lo hi n : N) : bool := (lo <=? n) && (n <=? hi).

Definition is_cont (b : byte) : bool := in_range 0x80 0xBF (Byte.to_N b).
Definition cont_bits (b : byte) : N := N.land (Byte.to_N b) 0x3F.

(** Well-formed two-, three- and four-byte sequences (shortest form only,
    no surrogates, nothing above U+10FFFF), as CPython's decoder accepts. *)
Definition two_byte_ok (b0 b1 : byte) : bool :=
  in_range 0xC2 0xDF (Byte.to_N b0) && is_cont b1.

Definition three_byte_ok (b0 b1 b2 : byte) : bool :=
  let n0 := Byte.to_N b0 in
  in_range 0xE0 0xEF n0 &&
  (if n0 =? 0xE0 then in_range 0xA0 0xBF (Byte.to_N b1)
   else if n0 =? 0xED then in_range 0x80 0x9F (Byte.to_N b1)
   else is_cont b1) &&
  is_cont b2.

Definition four_byte_ok (b0 b1 b2 b3 : byte) : bool :=
  let n0 := Byte.to_N b0 in
  in_range 0xF0 0xF4 n0 &&
  (if n0 =? 0xF0 then in_range 0x90 0xBF (Byte.to_N b1)
   else if n0 =? 0xF4 then in_range 0x80 0x8F (Byte.to_N b1)
   else is_cont b1) &&
  is_cont b2 && is_cont b3.

Definition cp2 (b0 b1 : byte) : N :=
  N.lor (N.shiftl (N.land (Byte.to_N b0) 0x1F) 6) (cont_bits b1).
Definition cp3 (b0 b1 b2 : byte) : N :=
  N.lor (N.shiftl (N.land (Byte.to_N b0) 0x0F) 12)
        (N.lor (N.shiftl (cont_bits b1) 6) (cont_bits b2)).
Definition cp4 (b0 b1 b2 b3 : byte) : N :=
  N.lor (N.shiftl (N.land (Byte.to_N b0) 0x07) 18)
        (N.lor (N.shiftl (cont_bits b1) 12)
               (N.lor (N.shiftl (cont_bits b2) 6) (cont_bits b3))).

(** One pass of the UTF-8 decoder over a byte sequence: [Some c] for each
    well-formed sequence, [None] for each byte at which no well-formed
    sequence starts.  After such a byte the scan resumes at the next byte;
    the bytes CPython reports in one error beyond the first are
    continuation bytes, at which no sequence starts either, so the items
    are the same. *)
Fixpoint utf8_scan (bs : bytes) : list (option N) :=
  match bs with
  | [] => []
  | b0 :: r0 =>
    if Byte.to_N b0 <? 0x80 then Some (Byte.to_N b0) :: utf8_scan r0
    else
      match r0 with
      | [] => None :: utf8_scan r0
      | b1 :: r1 =>
        if two_byte_ok b0 b1 then Some (cp2 b0 b1) :: utf8_scan r1
        else
          match r1 with
          | [] => None :: utf8_scan r0
          | b2 :: r2 =>
            if three_byte_ok b0 b1 b2 then Some (cp3 b0 b1 b2) :: utf8_scan r2
            else
              match r2 with
              | [] => None :: utf8_scan r0
              | b3 :: r3 =>
                if four_byte_ok b0 b1 b2 b3
                then Some (cp4 b0 b1 b2 b3) :: utf8_scan r3
                else None :: utf8_scan r0
              end
          end
      end
  end.

(** [bs.decode()]: [None] stands for [UnicodeDecodeError]. *)
Definition utf8_decode (bs : bytes) : option str := mapM id (utf8_scan bs).

(** [bs.decode(errors='ignore')]. *)
Definition utf8_decode_ignore (bs : bytes) : str := omap id (utf8_scan bs).

(** [s.encode()] of one code point; [None] stands for [UnicodeEncodeError]
    (a lone surrogate). *)
Definition utf8_encode_cp (c : N) : option bytes :=
  if c <? 0x80 then Some [byte_of_N c]
  else if c <? 0x800 then
    Some [byte_of_N (N.lor 0xC0 (N.shiftr c 6));
          byte_of_N (N.lor 0x80 (N.land c 0x3F))]
  else if c <? 0x10000 then
    if in_range 0xD800 0xDFFF c then None
    else
      Some [byte_of_N (N.lor 0xE0 (N.shiftr c 12));
            byte_of_N (N.lor 0x80 (N.land (N.shiftr c 6) 0x3F));
            byte_of_N (N.lor 0x80 (N.land c 0x3F))]
  else if c <=? 0x10FFFF then
    Some [byte_of_N (N.lor 0xF0 (N.shiftr c 18));
          byte_of_N (N.lor 0x80 (N.land (N.shiftr c 12) 0x3F));
          byte_of_N (N.lor 0x80 (N.land (N.shiftr c 6) 0x3F));
          byte_of_N (N.lor 0x80 (N.land c 0x3F))]
  else None.

Definition utf8_encode (s : str) : option bytes :=
  @concat byte <$> mapM utf8_encode_cp s.

(** ** The constants of Python's [string] module *)

Definition code_range (lo n : nat) : str := map N.of_nat (seq lo n).

(** [' \t\n\r\x0b\x0c'] *)
Definition string_whitespace : str := [32; 9; 10; 13; 11; 12].
Definition string_ascii_lowercase : str := code_range 97 26.
Definition string_ascii_uppercase : str := code_range 65 26.
Definition string_ascii_letters : str :=
  string_ascii_lowercase ++ string_ascii_uppercase.
Definition string_digits : str := code_range 48 10.
(** The 32 characters from [!] to [~] that are neither letters nor digits. *)
Definition string_punctuation : str :=
  code_range 33 15 ++ code_range 58 7 ++ code_range 91 6 ++ code_range 123 4.
Definition string_printable : str :=
  string_digits ++ string_ascii_letters ++ string_punctuation ++ string_whitespace.

(** [c in s] for a one-character [c]. *)
Definition char_in (c : N) (s : str) : bool := bool_decide (c ∈ s).

(** The characters at which [str.split()] splits ([str.isspace]). *)
Definition py_isspace (c : N) : bool :=
  in_range 0x09 0x0D c || in_range 0x1C 0x20 c || (c =? 0x85) || (c =? 0xA0)
  || (c =? 0x1680) || in_range 0x2000 0x200A c || (c =? 0x2028)
  || (c =? 0x2029) || (c =? 0x202F) || (c =? 0x205F) || (c =? 0x3000).

(** [s.split()]: the maximal runs of non-whitespace characters.  The scan
    returns the tokens that follow the word being read and the part of
    that word read so far. *)
Fixpoint split_go (s : str) : list str * str :=
  match s with
  | [] => ([], [])
  | c :: s' =>
    let '(toks, cur) := split_go s' in
    if py_isspace c
    then (match cur with [] => toks | _ => cur :: toks end, [])
    else (toks, c :: cur)
  end.

Definition str_split (s : str) : list str :=
  let '(toks, cur) := split_go s in
  match cur with [] => toks | _ => cur :: toks end.

(** [sep.join(l)] *)
Fixpoint str_join (sep : str) (l : list str) : str :=
  match l with
  | [] => []
  | [w] => w
  | w :: l' => w ++ sep ++ str_join sep l'
  end.

(** [word.startswith(prefix)] *)
Fixpoint startswith {A} `{EqDecision A} (word prefix : list A) : bool :=
  match prefix, word with
  | [], _ => true
  | p :: prefix', w :: word' => bool_decide (p = w) && startswith word' prefix'
  | _ :: _, [] => false
  end.

(** [needle in hay] on [bytes]: [needle] occurs as a contiguous run. *)
Fixpoint bytes_in (needle hay : bytes) : bool :=
  startswith hay needle ||
  match hay with
  | [] => false
  | _ :: hay' => bytes_in needle hay'
  end.

(** The built-ins whose full definition (Unicode case mapping, the
    grammar of integer literals) is not written out. *)
Class PyBuiltins := {
  (** [s.lower()] *)
  str_lower : str -> str;
  (** [int(s)]; [None] stands for [ValueError] *)
  py_int : str -> option Z
}.

(** [sorted(l, key=key, reverse=reverse)]: a stable sort; with
    [reverse=True] the order is descending and elements with equal keys
    still keep their original order. *)
Fixpoint sorted_insert {A} (key : A -> Z) (reverse : bool) (x : A) (l : list A)
  : list A :=
  match l with
  | [] => [x]
  | y :: l' =>
    if (if reverse then key x <? key y else key y <? key x)%Z
    then y :: sorted_insert key reverse x l'
    else x :: y :: l'
  end.

Definition py_sorted {A} (key : A -> Z) (reverse : bool) (l : list A) : list A :=
  fold_right (sorted_insert key reverse) [] l.

(** [min(l, key=key)] and [max(l, key=key)]: the first element with the
    least (greatest) key; [None] stands for the [ValueError] on an empty
    list. *)
Fixpoint py_min {A} (key : A -> Z) (l : list A) : option A :=
  match l with
  | [] => None
  | x :: l' =>
    match py_min key l' with
    | Some m => if (key m <? key x)%Z then Some m else Some x
    | None => Some x
    end
  end.

Fixpoint py_max {A} (key : A -> Z) (l : list A) : option A :=
  match l with
  | [] => None
  | x :: l' =>
    match py_max key l' with
    | Some m => if (key x <? key m)%Z then Some m else Some x
    | None => Some x
    end
  end.

Definition len {A} (l : list A) : Z := Z.of_nat (length l).

(** ** Outcomes of code that can raise *)

(** The exceptions the session tells apart: [KeyboardInterrupt], and
    everything caught by [except Exception] ([ValueError], [IndexError],
    [TypeError], [AssertionError], [EOFError], [UnicodeError]).
    [OutOfFuel] is no Python exception: it marks a run of a loop of the
    model that was cut off by its bound, and no handler catches it. *)
Inductive exn := KeyboardInterrupt | Exception | OutOfFuel.

Inductive outcome (A : Type) :=
| Return (a : A)
| Raise (e : exn).
Arguments Return {A} a.
Arguments Raise {A} e.

Definition obind {A B} (x : outcome A) (f : A -> outcome B) : outcome B :=
  match x with
  | Return a => f a
  | Raise e => Raise e
  end.

Notation "'let*' x ':=' c 'in' k" := (obind c (fun x => k))
  (at level 10, x name, c at level 100, k at level 200).

(** ** The helpers of [xor_text_finder.py] *)

(** [xor_key_text(key, text)] where [text] is a [str]: it is encoded
    first. *)
Definition xor_key_text_str (key : bytes) (text : str) : outcome bytes :=
  match utf8_encode text with
  | Some t => Return (xor_key_text key t)
  | None => Raise Exception
  end.

Fixpoint xor_key_text_list_str (key : bytes) (text_list : list str)
  : outcome (list bytes) :=
  match text_list with
  | [] => Return []
  | text :: rest =>
    let* x := xor_key_text_str key text in
    let* xs := xor_key_text_list_str key rest in
    Return (x :: xs)
  end.

(** The characters [extra_strict_check] rejects. *)
Definition forbidden_chars : str :=
  [34; 35; 36; 37; 38; 92; 40; 41; 42; 43; 47; 60; 61; 62; 64; 91; 92; 93;
   94; 96; 124; 126].

Definition extra_strict_check (sentence : bytes) : bool :=
  let sentence := utf8_decode_ignore sentence in
  negb (existsb (fun c => char_in c forbidden_chars) sentence).

(** [check_ascii] on a [str]. *)
Definition check_ascii_str (text : str) : bool :=
  forallb (fun c => char_in c string_printable) text.

(** [check_ascii] on [bytes]. *)
Definition check_ascii (text : bytes) : bool :=
  match utf8_decode text with
  | None => false
  | Some text => check_ascii_str text
  end.

Definition check_potential_stream (target_key : bytes) (text_list : list bytes)
    (strict : bool) : option (list bytes) :=
  let xored_stream := xor_key_text_list target_key text_list in
  if forallb check_ascii xored_stream then
    if strict then
      if forallb extra_strict_check xored_stream then Some xored_stream
      else None
    else Some xored_stream
  else None.

(** The truth value of an [Optional[List]]: [None] and the empty list are
    false. *)
Definition truthy {A} (r : option (list A)) : bool :=
  match r with
  | Some (_ :: _) => true
  | _ => false
  end.

Definition verify_substring_keys (keys : list bytes) : bool :=
  match py_min len keys with
  | None => false
  | Some smallest_key => forallb (fun key => bytes_in smallest_key key) keys
  end.

(** ** [WordFinder] *)

(** The attributes [init_words] sets: the word list and the frequency
    table; both come from data outside the repository. *)
Record WordFinder := {
  all_words : list str;
  freq_dist : gmap str Z
}.

(** [self.all_words_set = set(self.all_words)] *)
Definition all_words_set (self : WordFinder) : gset str :=
  list_to_set (all_words self).

Section WordFinderMethods.
Context {py : PyBuiltins}.
Variable self : WordFinder.

(** The value of [freq] at the end of one turn of the loop of
    [sort_with_frequencies]. *)
Definition word_freq (word : str) : Z :=
  match freq_dist self !! word with
  | Some f =>
    match freq_dist self !! str_lower word with
    | Some g => Z.max f g
    | None => f
    end
  | None =>
    match freq_dist self !! str_lower word with
    | Some g => g
    | None => 0%Z
    end
  end.

Definition sort_with_frequencies (matching_words : list str) : list str :=
  let scored_words :=
    flat_map (fun word =>
                let freq := word_freq word in
                if (freq =? 0)%Z then [] else [(word, freq)])
             matching_words in
  let sorted_words := py_sorted snd true scored_words in
  map fst sorted_words.

Definition get_matching_words (prefix : str) (words_list : list str)
    (add_space : bool) : list str :=
  let matching_words :=
    List.filter (fun word => startswith word prefix) (all_words self) in
  let sorted_words := sort_with_frequencies matching_words in
  let base_sentence := str_join [32] (removelast words_list) in
  let potential_sentences :=
    map (fun word => base_sentence ++ [32] ++ word) sorted_words in
  if add_space then map (fun sentence => sentence ++ [32]) potential_sentences
  else potential_sentences.

Definition match_sentence (sentence : bytes) (strict add_space : bool)
  : option (list str) :=
  let sentence := utf8_decode_ignore sentence in
  let words := str_split sentence in
  match last words with
  | None => None
  | Some last_word =>
    if negb (bool_decide (last_word = []))
       && negb (existsb (fun c => char_in c string_punctuation) last_word)
    then
      if strict then
        if bool_decide (last_word ∉ all_words_set self)
        then Some (get_matching_words last_word words add_space)
        else None
      else
        if (2 <=? length last_word)%nat
        then Some (get_matching_words last_word words add_space)
        else None
    else None
  end.

Definition check_sentence (sentence : bytes) (strict : bool) : bool :=
  match utf8_decode sentence with
  | None => false
  | Some sentence =>
    if check_ascii_str sentence then
      let cleaned_sentence :=
        List.filter (fun c => negb (char_in c string_punctuation)) sentence in
      let words := str_split cleaned_sentence in
      if strict
      then bool_decide (list_to_set words ⊆ all_words_set self)
      else true
    else false
  end.

(** The test [filter_streams] applies to one decoded text. *)
Definition stream_ok (strict : Z) (decoded_text : bytes) : bool :=
  if check_sentence decoded_text true then
    if (strict =? 2)%Z then extra_strict_check decoded_text else true
  else false.

(** [filter_streams]: the pairs (decoded text, key) in the order the two
    nested loops append them, as the two lists the source returns. *)
Definition filter_streams (key_list text_list : list bytes) (strict : Z)
  : list bytes * list bytes :=
  let valid :=
    flat_map (fun key =>
      flat_map (fun text =>
        let decoded_text := xor_key_text key text in
        if stream_ok strict decoded_text then [(decoded_text, key)] else [])
        text_list)
      key_list in
  (map fst valid, map snd valid).

End WordFinderMethods.

(** ** [collections.Counter] keyed by [bytes], in insertion order *)

Abbreviation Counter := (list (bytes * Z)).

(** [c[k] += 1], a new key going to the end. *)
Fixpoint counter_incr (k : bytes) (c : Counter) : Counter :=
  match c with
  | [] => [(k, 1%Z)]
  | (k', n) :: c' =>
    if bool_decide (k = k') then (k', (n + 1)%Z) :: c'
    else (k', n) :: counter_incr k c'
  end.

(** [c.update(keys)] *)
Definition counter_update (c : Counter) (keys : list bytes) : Counter :=
  fold_left (fun c k => counter_incr k c) keys c.

(** [c[k] = v]: a key already present keeps its place. *)
Fixpoint counter_set (k : bytes) (v : Z) (c : Counter) : Counter :=
  match c with
  | [] => [(k, v)]
  | (k', n) :: c' =>
    if bool_decide (k = k') then (k', v) :: c'
    else (k', n) :: counter_set k v c'
  end.

(** [k in c] *)
Definition counter_mem (k : bytes) (c : Counter) : bool :=
  existsb (fun kv => bool_decide (k = fst kv)) c.

(** [del c[k]] *)
Definition counter_del (k : bytes) (c : Counter) : Counter :=
  List.filter (fun kv => negb (bool_decide (k = fst kv))) c.

(** [c[k]], zero for a missing key. *)
Fixpoint counter_get (k : bytes) (c : Counter) : Z :=
  match c with
  | [] => 0%Z
  | (k', n) :: c' => if bool_decide (k = k') then n else counter_get k c'
  end.

(** The keys in iteration order. *)
Definition counter_keys (c : Counter) : list bytes := map fst c.

(** ** [WordFinder.identify_potential_keys] *)

(** What the generator returns: one key, or a list of keys. *)
Inductive keys_result :=
| SingleKey (key : bytes)
| KeyList (keys : list bytes).

Section Generator.
Context {py : PyBuiltins}.
Variable self : WordFinder.

(** The loop over [enumerate(potential_stream)] that fills
    [counted_keys], from index [i] on. *)
Fixpoint count_keys (filtered_texts : list bytes) (strict_filter : Z)
    (add_space : bool) (i : nat) (potential_stream : list bytes)
    (counted_keys : Counter) : outcome Counter :=
  match potential_stream with
  | [] => Return counted_keys
  | stream :: rest =>
    match match_sentence self stream false add_space with
    | Some ((_ :: _) as matched_sentences) =>
      match filtered_texts !! i with
      | None => Raise Exception
      | Some text_i =>
        let* keystreams := xor_key_text_list_str text_i matched_sentences in
        let '(results, new_keys) :=
          filter_streams self keystreams filtered_texts strict_filter in
        count_keys filtered_texts strict_filter add_space (S i) rest
                   (counter_update counted_keys new_keys)
      end
    | _ =>
      count_keys filtered_texts strict_filter add_space (S i) rest counted_keys
    end
  end.

(** The texts the generator works on. *)
Definition longer_than (target_key : bytes) (texts : list bytes) : list bytes :=
  List.filter (fun text => (length target_key <? length text)%nat) texts.

(** [counted_keys] after the original key has been zeroed and, for
    [strict_filter == 0], deleted. *)
Definition drop_target_key (target_key : bytes) (strict_filter : Z)
    (counted_keys : Counter) : Counter :=
  let counted_keys := counter_set target_key 0%Z counted_keys in
  if (strict_filter =? 0)%Z && counter_mem target_key counted_keys
  then counter_del target_key counted_keys
  else counted_keys.

(** [new_target_keys]: the counted keys that pass
    [check_potential_stream] on the filtered texts. *)
Definition surviving_keys (filtered_texts : list bytes) (strict_filter : Z)
    (counted_keys : Counter) : list bytes :=
  List.filter
    (fun key => truthy (check_potential_stream key filtered_texts
                                               (negb (strict_filter =? 0)%Z)))
    (counter_keys counted_keys).

Definition identify_potential_keys (target_key : bytes)
    (target_texts : list bytes) (strict_filter : Z) (add_space : bool)
  : outcome keys_result :=
  let filtered_texts := longer_than target_key target_texts in
  match check_potential_stream target_key filtered_texts
                               (negb (strict_filter =? 0)%Z) with
  | None => Return (KeyList [])
  | Some potential_stream =>
    let* counted_keys :=
      count_keys filtered_texts strict_filter add_space 0 potential_stream [] in
    let counted_keys := drop_target_key target_key strict_filter counted_keys in
    let new_target_keys :=
      surviving_keys filtered_texts strict_filter counted_keys in
    if verify_substring_keys new_target_keys then
      match py_sorted len true new_target_keys with
      | key :: _ => Return (SingleKey key)
      | [] => Raise Exception
      end
    else Return (KeyList new_target_keys)
  end.

End Generator.

(** ** A small corpus for examples *)

(** [s.lower()] on ASCII text. *)
Definition ascii_lower (s : str) : str :=
  map (fun c => if in_range 65 90 c then c + 32 else c) s.

(** [int(s)] on a plain decimal literal: ASCII digits after an optional
    sign. *)
Fixpoint decimal_digits (acc : Z) (s : str) : option Z :=
  match s with
  | [] => Some acc
  | c :: s' =>
    if in_range 48 57 c
    then decimal_digits (10 * acc + Z.of_N (c - 48))%Z s'
    else None
  end.

Definition decimal_int (s : str) : option Z :=
  match s with
  | [] => None
  | 45 :: (_ :: _) as digits => Z.opp <$> decimal_digits 0 digits
  | 43 :: (_ :: _) as digits => decimal_digits 0 digits
  | _ => decimal_digits 0 s
  end.

Definition ascii_builtins : PyBuiltins :=
  {| str_lower := ascii_lower; py_int := decimal_int |}.

Definition small_corpus : WordFinder :=
  {| all_words := [str_of "the"; str_of "then"; str_of "cat"];
     freq_dist := <[str_of "the" := 10%Z]>
                    (<[str_of "The" := 3%Z]> (<[str_of "cat" := 5%Z]> ∅)) |}.

(** A byte that [string.printable] contains. *)
Definition printable_byte (b : byte) : bool :=
  char_in (Byte.to_N b) string_printable.

(** ** Vocabulary of the statements *)



(** The frequency of a word as the specification words it: the
    case-sensitive count, and the count of the lowercase form only when the
    word itself has no entry. *)
Definition fallback_freq {py : PyBuiltins} (self : WordFinder) (word : str) : Z :=
  match freq_dist self !! word with
  | Some f => f
  | None =>
    match freq_dist self !! str_lower word with
    | Some g => g
    | None => 0%Z
    end
  end.

(** [result] ranks [words] by [freq]: it holds the words of nonzero
    frequency, each as often as [words] does, every word before the words
    of lower or equal frequency that follow it. *)
Definition ranks_by (freq : str -> Z) (words result : list str) : Prop :=
  Permutation result (List.filter (fun w => negb (freq w =? 0)%Z) words) /\
  StronglySorted (fun a b => (freq b <= freq a)%Z) result.

(** The keys a result of the generator proposes. *)
Definition result_keys (r : keys_result) : list bytes :=
  match r with
  | SingleKey key => [key]
  | KeyList keys => keys
  end.

(** [m] occurs in [k] as a contiguous run of bytes; [m] is a prefix of
    [k]. *)
Definition occurs_in (m k : bytes) : Prop := exists pre post, k = pre ++ m ++ post.
Definition prefix_of (m k : bytes) : Prop := exists post, k = m ++ post.

Definition shortest_in (m : bytes) (keys : list bytes) : Prop :=
  In m keys /\ forall k, In k keys -> (length m <= length k)%nat.
Definition longest_in (m : bytes) (keys : list bytes) : Prop :=
  In m keys /\ forall k, In k keys -> (length k <= length m)%nat.

(** A shortest key stands in relation [rel] to every key of the list. *)
Definition consistent (rel : bytes -> bytes -> Prop) (keys : list bytes) : Prop :=
  exists m, shortest_in m keys /\ forall k, In k keys -> rel m k.

(** How often [k] occurs in [l]. *)
Definition occurrences (k : bytes) (l : list bytes) : nat :=
  length (List.filter (fun x => bool_decide (x = k)) l).

Section GeneratorVocabulary.
Context {py : PyBuiltins}.
Variable self : WordFinder.

(** The generator never proposes the key it was given. *)
Definition proposes_progress (target_key : bytes) (target_texts : list bytes)
    (strict_filter : Z) (add_space : bool) : Prop :=
  forall r,
    identify_potential_keys self target_key target_texts strict_filter add_space
    = Return r ->
    ~ In target_key (result_keys r).

(** The candidate keys the loop of the generator derives from its guesses,
    one entry for each guess, from stream [i] on. *)
Fixpoint guessed_keys (filtered_texts : list bytes) (add_space : bool)
    (i : nat) (potential_stream : list bytes) : list bytes :=
  match potential_stream with
  | [] => []
  | stream :: rest =>
    match match_sentence self stream false add_space, filtered_texts !! i with
    | Some ((_ :: _) as matched_sentences), Some text_i =>
      match xor_key_text_list_str text_i matched_sentences with
      | Return keystreams => keystreams
      | Raise _ => []
      end
    | _, _ => []
    end ++ guessed_keys filtered_texts add_space (S i) rest
  end.

(** The texts among [texts] that [key] decodes to a sentence
    [filter_streams] accepts. *)
Definition accepted_texts (strict_filter : Z) (key : bytes)
    (texts : list bytes) : list bytes :=
  List.filter (fun text => stream_ok self strict_filter (xor_key_text key text))
              texts.

(** A statement about the tally [counted_keys] that the generator holds
    after its loop, for the runs in which the loop is reached and
    finishes. *)
Definition tally_satisfies (target_key : bytes) (target_texts : list bytes)
    (strict_filter : Z) (add_space : bool)
    (P : list bytes -> list bytes -> Counter -> Prop) : Prop :=
  let filtered_texts := longer_than target_key target_texts in
  forall potential_stream counted_keys,
    check_potential_stream target_key filtered_texts
                           (negb (strict_filter =? 0)%Z)
    = Some potential_stream ->
    count_keys self filtered_texts strict_filter add_space 0
               potential_stream [] = Return counted_keys ->
    P filtered_texts potential_stream counted_keys.

(** A key is tallied only if it decodes every filtered text to an
    accepted sentence. *)
Definition tallied_only_if_all_accepted (target_key : bytes)
    (target_texts : list bytes) (strict_filter : Z) (add_space : bool) : Prop :=
  tally_satisfies target_key target_texts strict_filter add_space
    (fun filtered_texts _ counted_keys =>
       forall key, (0 < counter_get key counted_keys)%Z ->
         forall text, In text filtered_texts ->
           stream_ok self strict_filter (xor_key_text key text) = true).

(** A key is tallied once for each guess that derives it and each filtered
    text it decodes to an accepted sentence. *)
Definition tallied_per_accepted_text (target_key : bytes)
    (target_texts : list bytes) (strict_filter : Z) (add_space : bool) : Prop :=
  tally_satisfies target_key target_texts strict_filter add_space
    (fun filtered_texts potential_stream counted_keys =>
       forall key,
         counter_get key counted_keys =
         Z.of_nat (occurrences key (guessed_keys filtered_texts add_space 0
                                                 potential_stream)
                   * length (accepted_texts strict_filter key filtered_texts))).

(** The generator answers with one key exactly when the surviving keys are
    [rel]-consistent, that key being a longest one, and with the list of
    surviving keys otherwise; when the first check of the streams fails it
    answers with the empty list. *)
Definition decides_by (rel : bytes -> bytes -> Prop) (target_key : bytes)
    (target_texts : list bytes) (strict_filter : Z) (add_space : bool) : Prop :=
  let filtered_texts := longer_than target_key target_texts in
  let answer :=
    identify_potential_keys self target_key target_texts strict_filter
                            add_space in
  match check_potential_stream target_key filtered_texts
                               (negb (strict_filter =? 0)%Z) with
  | None => answer = Return (KeyList [])
  | Some potential_stream =>
    forall counted_keys,
      count_keys self filtered_texts strict_filter add_space 0
                 potential_stream [] = Return counted_keys ->
      let survivors :=
        surviving_keys filtered_texts strict_filter
          (drop_target_key target_key strict_filter counted_keys) in
      (consistent rel survivors ->
       exists key, answer = Return (SingleKey key) /\ longest_in key survivors)
      /\ (~ consistent rel survivors -> answer = Return (KeyList survivors))
  end.

End GeneratorVocabulary.

(** ** The oracle and the session monad of [crib_dragger.py] *)

(** What one call of [input()] yields: a line, or [KeyboardInterrupt].
    When the replies are used up, [input()] raises [EOFError]. *)
Inductive reply :=
| Line (s : str)
| Interrupt.

(** The places where the session has a key decode a list of ciphertexts:
    the call of the generator (lines 153 and 174) and the manual-input
    prompt (with the current key), the check of a manually derived key,
    the confirmation prompt and the display of tied candidates (with a
    proposed key), and the cleaning step (with the key just confirmed). *)
Inductive site :=
| Generate | Manual | ManualCheck | Validate | Candidates | Cleaning.

(** [Decode s key texts]: at [s], the session calls
    [xor_key_text_list(key, texts)]; at [Generate], it calls the generator
    [identify_potential_keys(key, texts, ...)], which decodes with [key]
    those of [texts] that its own filter keeps.  The event holds the
    arguments as the call gets them. *)
Inductive event := Decode (s : site) (key : bytes) (texts : list bytes).

Record world := {
  replies : list reply;
  trace : list event
}.

(** A computation that reads replies, logs decodings, and returns or
    raises; the world it leaves is kept in both cases. *)
Definition M (A : Type) : Type := world -> outcome A * world.

Definition ret {A} (a : A) : M A := fun w => (Return a, w).
Definition raise {A} (e : exn) : M A := fun w => (Raise e, w).
Definition bind {A B} (c : M A) (k : A -> M B) : M B :=
  fun w =>
    match c w with
    | (Return a, w') => k a w'
    | (Raise e, w') => (Raise e, w')
    end.

Notation "'let!' x ':=' c 'in' k" := (bind c (fun x => k))
  (at level 10, x name, c at level 100, k at level 200).
Notation "'do!' c 'in' k" := (bind c (fun _ => k))
  (at level 10, c at level 100, k at level 200).

(** A pure step that can raise. *)
Definition lift {A} (o : outcome A) : M A := fun w => (o, w).
Definition lift_option {A} (o : option A) : M A :=
  match o with Some a => ret a | None => raise Exception end.

Definition emit (e : event) : M unit :=
  fun w => (Return tt, {| replies := replies w; trace := trace w ++ [e] |}).

(** [input(prompt)] *)
Definition input : M str :=
  fun w =>
    match replies w with
    | [] => (Raise Exception, w)
    | Line s :: rest => (Return s, {| replies := rest; trace := trace w |})
    | Interrupt :: rest =>
      (Raise KeyboardInterrupt, {| replies := rest; trace := trace w |})
    end.

(** [try: c except KeyboardInterrupt: h1 except Exception: h2] *)
Definition try_except {A} (c : M A) (on_interrupt on_exception : option (M A))
  : M A :=
  fun w =>
    match c w with
    | (Raise KeyboardInterrupt, w') =>
      match on_interrupt with Some h => h w' | None => (Raise KeyboardInterrupt, w') end
    | (Raise Exception, w') =>
      match on_exception with Some h => h w' | None => (Raise Exception, w') end
    | (Raise OutOfFuel, w') => (Raise OutOfFuel, w')
    | (Return a, w') => (Return a, w')
    end.

(** [l[i]] with Python's negative indices; [None] stands for
    [IndexError]. *)
Definition py_index {A} (l : list A) (i : Z) : option A :=
  if (0 <=? i)%Z then l !! Z.to_nat i
  else if (- len l <=? i)%Z then l !! Z.to_nat (len l + i)
  else None.

(** The truth value of a key that may be [None]: [None] and [b''] are
    false. *)
Definition truthy_key (k : option bytes) : bool :=
  match k with
  | Some (_ :: _) => true
  | _ => false
  end.

(** What [interactive_crib_dragging] returns: [target_key] (line 151),
    [(target_key, invalid_pts)] (lines 161 and 164),
    [((target_key, my_new_key_), invalid_pts)] (line 201) and
    [((target_key, my_new_key), invalid_pts)] after an interrupt (line 204)
    or at the end of the loop (line 205). *)
Inductive session_result :=
| Converged (target_key : bytes)
| NoExtension (target_key : bytes) (invalid_pts : list bytes)
| NotFound (target_key : bytes) (my_new_key_ : option bytes)
           (invalid_pts : list bytes)
| Interrupted (target_key : bytes) (my_new_key : option bytes)
              (invalid_pts : list bytes)
| Finished (target_key : bytes) (my_new_key : option bytes)
           (invalid_pts : list bytes).

(** The local variables one turn of the session loop hands on. *)
Record vars := {
  v_my_new_key : option bytes;
  v_my_new_key_ : option bytes;
  v_set_text : list bytes;
  v_invalid_pts : list bytes
}.

(** A step either goes on with new variables or returns from the
    session. *)
Inductive flow :=
| Go (v : vars)
| Stop (r : session_result).

(** Run [c]; a [KeyboardInterrupt] it raises is caught by the handler of
    the loop body, which returns [on_interrupt]. *)
Definition interruptible {A} (c : M A) (on_interrupt : session_result)
    (k : A -> M flow) : M flow :=
  fun w =>
    match c w with
    | (Return a, w') => k a w'
    | (Raise KeyboardInterrupt, w') => (Return (Stop on_interrupt), w')
    | (Raise e, w') => (Raise e, w')
    end.

(** ** [CribDragger] *)

Section CribDraggerMethods.
Context {py : PyBuiltins}.
(** [self.word_finder] *)
Variable word_finder : WordFinder.

(** [result[:1].lower() in ['1', 'y']] *)
Definition affirmative (result : str) : bool :=
  bool_decide (str_lower (firstn 1 result) ∈ [[49]; [121]]).

(** [enumerate(l)] *)
Definition enumerate {A} (l : list A) : list (nat * A) :=
  combine (seq 0 (length l)) l.

(** [get_input_key]; the printing is left out. *)
Definition get_input_key (target_key : bytes) (target_texts : list bytes)
  : M bytes :=
  let set_text := longer_than target_key target_texts in
  do! emit (Decode Manual target_key set_text) in
  try_except
    (let! line := input in
     let! potential_key_id := lift_option (py_int line) in
     let! new_text := input in
     let! new_text_bytes := lift_option (utf8_encode new_text) in
     if check_ascii new_text_bytes then
       let! text := lift_option (py_index set_text potential_key_id) in
       let new_key := xor_key_text new_text_bytes text in
       do! emit (Decode ManualCheck new_key set_text) in
       if truthy (check_potential_stream new_key set_text false)
       then ret new_key
       else ret target_key
     else raise Exception)
    (Some (ret target_key))
    (Some (ret target_key)).

Fixpoint emit_all (es : list event) : M unit :=
  match es with
  | [] => ret tt
  | e :: es' => do! emit e in emit_all es'
  end.

(** [check_new_target_keys]: the chosen key, or the candidates that are
    left. *)
Definition check_new_target_keys (new_target_keys : list bytes)
    (set_text : list bytes) : M keys_result :=
  let! longest := lift_option (py_max len new_target_keys) in
  let max_length := len longest in
  let small_keys :=
    List.filter (fun x => (len x =? max_length)%Z) new_target_keys in
  do! emit_all (map (fun small_key => Decode Candidates small_key set_text)
                    small_keys) in
  try_except
    (let! result := input in
     if match result with
        | [] => false
        | c :: _ => bool_decide (str_lower [c] ∈ [[49]; [121]])
        end
     then
       let! line := input in
       let! result_idx := lift_option (py_int line) in
       let! key := lift_option (py_index small_keys result_idx) in
       ret (SingleKey key)
     else
       ret (KeyList (List.filter (fun x => negb (bool_decide (x ∈ small_keys)))
                                 new_target_keys)))
    (Some (match small_keys, new_target_keys with
           | key :: _, _ => ret (SingleKey key)
           | [], key :: _ => ret (SingleKey key)
           | [], [] => raise Exception
           end))
    None.

(** The loop of [get_new_keys], entered with a list. *)
Fixpoint get_new_keys_loop (fuel : nat) (new_keys : list bytes)
    (set_text : list bytes) : M (option bytes) :=
  match fuel with
  | O => raise OutOfFuel
  | S fuel' =>
    let! new_keys := check_new_target_keys new_keys set_text in
    match new_keys with
    | SingleKey [] => ret None
    | SingleKey key => ret (Some key)
    | KeyList [] => ret None
    | KeyList keys => get_new_keys_loop fuel' keys set_text
    end
  end.

(** [get_new_keys]; every turn of its loop drops at least one candidate,
    so as many turns as there are candidates suffice. *)
Definition get_new_keys (new_target_keys : keys_result) (set_text : list bytes)
  : M (option bytes) :=
  match new_target_keys with
  | SingleKey key => ret (Some key)
  | KeyList keys => get_new_keys_loop (S (length keys)) keys set_text
  end.

Definition get_invalid_idxs (xored_outputs : list bytes) : list nat :=
  map fst
      (List.filter (fun io => negb (check_ascii io.2)
                              || negb (extra_strict_check io.2))
                   (enumerate xored_outputs)).

Definition check_and_remove_invalid_chars (target_key : bytes)
    (set_text : list bytes) : M (list bytes * list bytes) :=
  let xored_outputs := xor_key_text_list target_key set_text in
  do! emit (Decode Cleaning target_key set_text) in
  let invalid_ids := get_invalid_idxs xored_outputs in
  match invalid_ids with
  | [] => ret (set_text, [])
  | _ :: _ =>
    let! choice := input in
    if affirmative choice then
      let invalid_pts := omap (fun i => set_text !! i) invalid_ids in
      let set_text :=
        map snd (List.filter (fun ix => negb (bool_decide (ix.1 ∈ invalid_ids)))
                             (enumerate set_text)) in
      ret (set_text, invalid_pts)
    else ret (set_text, [])
  end.

(** [validate_key]; with [None] for a key, decoding a nonempty list
    raises [TypeError]. *)
Definition validate_key (target_key : option bytes) (set_text : list bytes)
  : M (option bytes) :=
  do! match target_key, set_text with
      | Some key, _ => emit (Decode Validate key set_text)
      | None, [] => ret tt
      | None, _ :: _ => raise Exception
      end in
  let! result := input in
  if affirmative result then ret target_key else ret None.

(** [if my_new_key: set_text, invalid_pts_ = check_and_remove_invalid_chars(...);
    self.invalid_pts.extend(invalid_pts_)] *)
Definition clean_step (target_key : bytes) (my_new_key my_new_key_ : option bytes)
    (set_text invalid_pts : list bytes) : M flow :=
  match my_new_key with
  | Some ((_ :: _) as key) =>
    interruptible (check_and_remove_invalid_chars key set_text)
      (Interrupted target_key my_new_key invalid_pts)
      (fun r =>
         ret (Go {| v_my_new_key := my_new_key; v_my_new_key_ := my_new_key_;
                    v_set_text := r.1;
                    v_invalid_pts := invalid_pts ++ r.2 |}))
  | _ =>
    ret (Go {| v_my_new_key := my_new_key; v_my_new_key_ := my_new_key_;
               v_set_text := set_text; v_invalid_pts := invalid_pts |})
  end.

(** The three lines [my_new_key_ = get_input_key(...)],
    [my_new_key = validate_key(...)] and the cleaning, which the loop body
    has three times; [my_new_key] is the value the variable has when they
    start. *)
Definition manual_round (target_key : bytes) (my_new_key : option bytes)
    (set_text invalid_pts : list bytes) : M flow :=
  interruptible (get_input_key target_key set_text)
    (Interrupted target_key my_new_key invalid_pts)
    (fun my_new_key_ =>
  interruptible (validate_key (Some my_new_key_) set_text)
    (Interrupted target_key my_new_key invalid_pts)
    (fun validated =>
  clean_step target_key validated (Some my_new_key_) set_text invalid_pts)).

(** Run [c] inside the inner [try]: an [Exception] goes to the handler
    [on_exception], a [KeyboardInterrupt] to the handler of the loop
    body. *)
Definition attempt {A} (c : M A) (on_interrupt : session_result)
    (on_exception : M flow) (k : A -> M flow) : M flow :=
  fun w =>
    match c w with
    | (Return a, w') => k a w'
    | (Raise KeyboardInterrupt, w') => (Return (Stop on_interrupt), w')
    | (Raise Exception, w') => on_exception w'
    | (Raise OutOfFuel, w') => (Raise OutOfFuel, w')
    end.

(** Lines 173 to 186: the retry with strictness 0 and its handler. *)
Definition retry_loose (target_key new_target_key : bytes)
    (set_text invalid_pts : list bytes) : M flow :=
  let handler my_new_key :=
    manual_round target_key my_new_key set_text invalid_pts in
  do! emit (Decode Generate new_target_key set_text) in
  attempt (lift (identify_potential_keys word_finder new_target_key set_text
                                         0 true))
    (Interrupted target_key None invalid_pts) (handler None)
    (fun new_target_keys =>
  attempt (get_new_keys new_target_keys set_text)
    (Interrupted target_key None invalid_pts) (handler None)
    (fun my_new_key_ =>
  attempt (validate_key my_new_key_ set_text)
    (Interrupted target_key None invalid_pts) (handler None)
    (fun my_new_key =>
  match my_new_key with
  | Some ((_ :: _) as key) =>
    attempt (check_and_remove_invalid_chars key set_text)
      (Interrupted target_key my_new_key invalid_pts) (handler my_new_key)
      (fun r =>
         ret (Go {| v_my_new_key := my_new_key; v_my_new_key_ := my_new_key_;
                    v_set_text := r.1;
                    v_invalid_pts := invalid_pts ++ r.2 |}))
  | _ =>
    ret (Go {| v_my_new_key := my_new_key; v_my_new_key_ := my_new_key_;
               v_set_text := set_text; v_invalid_pts := invalid_pts |})
  end))).

(** Lines 187 to 192: another manual round if [my_new_key] is still
    false. *)
Definition manual_if_none (target_key : bytes) (f : flow) : M flow :=
  match f with
  | Go v =>
    if truthy_key (v_my_new_key v) then ret f
    else manual_round target_key (v_my_new_key v) (v_set_text v)
                      (v_invalid_pts v)
  | Stop _ => ret f
  end.

(** Lines 199 to 201. *)
Definition give_up_if_none (target_key : bytes) (f : flow) : M flow :=
  match f with
  | Go v =>
    if truthy_key (v_my_new_key v) then ret f
    else ret (Stop (NotFound target_key (v_my_new_key_ v) (v_invalid_pts v)))
  | Stop _ => ret f
  end.

(** Lines 167 to 201: what follows the answer [result] of the oracle to
    the key [new_target_key]. *)
Definition after_validation (target_key new_target_key : bytes)
    (my_new_key_ : option bytes) (set_text invalid_pts : list bytes)
    (result : option bytes) : M flow :=
  if truthy_key result then
    if bool_decide (target_key <> new_target_key) then
      ret (Go {| v_my_new_key := Some new_target_key;
                 v_my_new_key_ := my_new_key_;
                 v_set_text := set_text;
                 v_invalid_pts := invalid_pts |})
    else
      let! f := retry_loose target_key new_target_key set_text invalid_pts in
      let! f := manual_if_none target_key f in
      give_up_if_none target_key f
  else
    let! f := manual_round target_key None set_text invalid_pts in
    give_up_if_none target_key f.

(** Lines 165 to 201, with the key to confirm in [new_target_key];
    [my_new_key] is [None] from line 165 on. *)
Definition confirm (target_key new_target_key : bytes)
    (my_new_key_ : option bytes) (set_text invalid_pts : list bytes) : M flow :=
  interruptible (validate_key (Some new_target_key) set_text)
    (Interrupted target_key None invalid_pts)
    (after_validation target_key new_target_key my_new_key_ set_text
                      invalid_pts).

(** The body of the [while] loop from line 152 on: [set_text] is pruned
    and does not have exactly one element. *)
Definition loop_body (target_key : bytes) (my_new_key_ : option bytes)
    (set_text invalid_pts : list bytes) : M flow :=
  do! emit (Decode Generate target_key set_text) in
  let! new_target_key :=
    lift (identify_potential_keys word_finder target_key set_text 2 true) in
  match new_target_key with
  | KeyList [] => ret (Stop (NoExtension target_key invalid_pts))
  | KeyList keys =>
    match last (py_sorted len false keys) with
    | None => raise Exception
    | Some temp_key =>
      interruptible (validate_key (Some temp_key) set_text)
        (Interrupted target_key (Some target_key) invalid_pts)
        (fun validated =>
           if truthy_key validated
           then confirm target_key temp_key my_new_key_ set_text invalid_pts
           else ret (Stop (NoExtension target_key invalid_pts)))
    end
  | SingleKey key => confirm target_key key my_new_key_ set_text invalid_pts
  end.

(** The [while] loop; [target_key] and [my_new_key] are the variables of
    these names when its condition is tested. *)
Fixpoint session_loop (fuel : nat) (target_key : bytes)
    (my_new_key my_new_key_ : option bytes) (set_text invalid_pts : list bytes)
  : M session_result :=
  if (length set_text =? 1)%nat
  then ret (Finished target_key my_new_key invalid_pts)
  else
    match fuel with
    | O => raise OutOfFuel
    | S fuel' =>
      match my_new_key with
      | None => raise Exception
      | Some target_key =>
        let set_text := longer_than target_key set_text in
        if (length set_text =? 1)%nat then ret (Converged target_key)
        else
          let! f := loop_body target_key my_new_key_ set_text invalid_pts in
          match f with
          | Stop r => ret r
          | Go v =>
            session_loop fuel' target_key (v_my_new_key v) (v_my_new_key_ v)
                         (v_set_text v) (v_invalid_pts v)
          end
      end
    end.

Definition interactive_crib_dragging (fuel : nat) (target_key : bytes)
    (set_text : list bytes) : M session_result :=
  session_loop fuel target_key (Some target_key) None set_text [].

End CribDraggerMethods.

(** ** Vocabulary of the statements about the session *)

(** The oracle's next two replies are an index and a plaintext fragment
    that pass every check of [get_input_key], and [key] is the key derived
    from them: the index parses and selects a filtered ciphertext, the
    fragment encodes to printable ASCII, and the derived key decodes every
    filtered ciphertext to printable ASCII. *)
Definition accepted_fragment {py : PyBuiltins} (target_key : bytes)
    (target_texts : list bytes) (w : world) (key : bytes) : Prop :=
  let set_text := longer_than target_key target_texts in
  exists line fragment rest potential_key_id new_text_bytes text,
    replies w = Line line :: Line fragment :: rest /\
    py_int line = Some potential_key_id /\
    utf8_encode fragment = Some new_text_bytes /\
    check_ascii new_text_bytes = true /\
    py_index set_text potential_key_id = Some text /\
    key = xor_key_text new_text_bytes text /\
    Forall (fun t => check_ascii (xor_key_text key t) = true) set_text.

(** Every text of the decoding is strictly longer than its key. *)
Definition decodes_longer (e : event) : Prop :=
  match e with
  | Decode _ key texts =>
    Forall (fun text => (length key < length text)%nat) texts
  end.

Definition event_site (e : event) : site :=
  match e with Decode s _ _ => s end.

(** The decodings of a trace at the sites [sites] are all of texts longer
    than the key. *)
Definition decodes_longer_at (sites : site -> bool) (tr : list event) : Prop :=
  forall e, In e tr -> sites (event_site e) = true -> decodes_longer e.

(** The sites that decode with the key of the session: the current key
    (generator, manual-input prompt) or the key the oracle has just
    confirmed (cleaning). *)
Definition session_key_site (s : site) : bool :=
  match s with
  | Generate | Manual | Cleaning => true
  | _ => false
  end.

(** In every run of the session from [w], the decodings at [sites] are of
    texts longer than the key. *)
Definition session_decodes_longer {py : PyBuiltins} (word_finder : WordFinder)
    (sites : site -> bool) (fuel : nat) (target_key : bytes)
    (set_text : list bytes) (w : world) : Prop :=
  forall r w',
    interactive_crib_dragging word_finder fuel target_key set_text w = (r, w') ->
    decodes_longer_at sites (trace w').

(** Every text is strictly longer than [target_key]. *)
Definition texts_longer (target_key : bytes) (texts : list bytes) : Prop :=
  Forall (fun text => (length target_key < length text)%nat) texts.

(** Every decoding of the trace is of texts strictly longer than the
    current key.  The current key is the [target_key] of the turn of the
    loop: the key the generator was last called with (line 153, and line
    174 where [new_target_key] equals [target_key]); before the generator
    has been called nothing may be decoded at all.  The key an event
    decodes with can be another one: a proposed or a newly confirmed
    key. *)
Fixpoint decodes_longer_than_current (current : option bytes)
    (tr : list event) : Prop :=
  match tr with
  | [] => True
  | Decode s key texts :: tr' =>
    let current := match s with Generate => Some key | _ => current end in
    match current with
    | Some target_key => texts_longer target_key texts
    | None => False
    end /\ decodes_longer_than_current current tr'
  end.

(** ** Vocabulary of the proofs *)

(** An event of a turn with the key [target_key]: its texts are longer
    than [target_key], and the generator is called with [target_key]. *)
Definition turn_event (target_key : bytes) (e : event) : Prop :=
  match e with
  | Decode s key texts =>
    (s = Generate -> key = target_key) /\ texts_longer target_key texts
  end.

(** From [w] to [w'] only events of a turn with the key [target_key] have
    been logged. *)
Definition turn_related (target_key : bytes) (w w' : world) : Prop :=
  exists l, trace w' = trace w ++ l /\ Forall (turn_event target_key) l.

(** The active set a step hands on is [good]. *)
Definition flow_good (good : list bytes -> Prop) (f : flow) : Prop :=
  match f with
  | Go v => good (v_set_text v)
  | Stop _ => True
  end.

(** The test [check_ascii] makes, on the items of the scan. *)
Definition items_printable (l : list (option N)) : bool :=
  match mapM id l with
  | None => false
  | Some s => check_ascii_str s
  end.

(** However [c] ends, the world it leaves is [R]-related to the world it
    started in, and it is not cut off by a bound of the model. *)
Definition keeps (R : world -> world -> Prop) {A} (c : M A) : Prop :=
  forall w r w', c w = (r, w') -> R w w' /\ r <> Raise OutOfFuel.

(** The world after [e] has been logged, and after a reply has been
    read. *)
Definition logged (w : world) (e : event) : world :=
  {| replies := replies w; trace := trace w ++ [e] |}.
Definition answered (w : world) (rest : list reply) : world :=
  {| replies := rest; trace := trace w |}.

(** A string that [encode()] accepts. *)
Definition encodable (s : str) : Prop := is_Some (utf8_encode s).

(** No step of the session puts replies back. *)
Definition not_more_replies (w w' : world) : Prop :=
  (length (replies w') <= length (replies w))%nat.

(** A byte that is one of the characters [extra_strict_check] rejects. *)
Definition forbidden_byte (b : byte) : bool :=
  char_in (Byte.to_N b) forbidden_chars.

(** The test one decoded byte has to pass. *)
Definition byte_passes (strict : bool) (b : byte) : bool :=
  printable_byte b && (negb strict || negb (forbidden_byte b)).

(** A word [str.split()] yields: not empty and free of white space. *)
Definition is_token (w : str) : Prop :=
  w <> [] /\ Forall (fun c => py_isspace c = false) w.

(** ** [WordFinder.get_matching_words_with_known_index_and_plaintext] *)

(** An [Iterable[int]] argument: a sequence, which every reader reads
    from its start (a list, a tuple, a range), or an iterator, which is
    read once: what one reader has taken is gone for the next. *)
Inductive iterable :=
| Sequence (items : list Z)
| Iterator (items : list Z).

Definition items_of (indices : iterable) : list Z :=
  match indices with
  | Sequence items => items
  | Iterator items => items
  end.

(** [all(word[idx] == target[idx] for idx in indices)] reading [indices]
    from its start: the test stops at the first difference, and an index
    outside the word raises [IndexError]. *)
Fixpoint agree_at (word target : str) (indices : list Z) : outcome bool :=
  match indices with
  | [] => Return true
  | idx :: rest =>
    match py_index word idx, py_index target idx with
    | Some a, Some b =>
      if bool_decide (a = b) then agree_at word target rest else Return false
    | _, _ => Raise Exception
    end
  end.

(** The same test reading from an iterator that has [remaining] left: it
    returns with what it has not taken, the indices after the first
    difference. *)
Fixpoint agree_at_rest (word target : str) (remaining : list Z)
  : outcome (bool * list Z) :=
  match remaining with
  | [] => Return (true, [])
  | idx :: rest =>
    match py_index word idx, py_index target idx with
    | Some a, Some b =>
      if bool_decide (a = b) then agree_at_rest word target rest
      else Return (false, rest)
    | _, _ => Raise Exception
    end
  end.

(** The comprehension over [words], with a sequence of indices. *)
Fixpoint words_agreeing (words : list str) (target : str) (indices : list Z)
  : outcome (list str) :=
  match words with
  | [] => Return []
  | word :: rest =>
    let* keep :=
      if (len word =? len target)%Z then agree_at word target indices
      else Return false in
    let* kept := words_agreeing rest target indices in
    Return (if keep then word :: kept else kept)
  end.

(** The comprehension over [words], with an iterator: the test of a word
    of the length of [target] goes on where the test of the word before
    stopped; for a word of another length the iterator is not touched. *)
Fixpoint words_agreeing_once (words : list str) (target : str)
    (remaining : list Z) : outcome (list str) :=
  match words with
  | [] => Return []
  | word :: rest =>
    if (len word =? len target)%Z then
      let* tested := agree_at_rest word target remaining in
      let* kept := words_agreeing_once rest target tested.2 in
      Return (if tested.1 then word :: kept else kept)
    else words_agreeing_once rest target remaining
  end.

Definition get_matching_words_with_known_index_and_plaintext
    (self : WordFinder) (target : str) (indices : iterable)
  : outcome (list str) :=
  match indices with
  | Sequence items => words_agreeing (all_words self) target items
  | Iterator items => words_agreeing_once (all_words self) target items
  end.

(** [idx] is an index into a sequence of length [n], counted from the
    start or, when negative, from the end. *)
Definition index_in_range (n : nat) (idx : Z) : Prop :=
  (- Z.of_nat n <= idx < Z.of_nat n)%Z.

(** [word] has the length of [target] and the same character at each of
    the [indices]. *)
Definition agrees_with (target : str) (indices : list Z) (word : str) : bool :=
  (length word =? length target)%nat
  && forallb (fun idx => bool_decide (py_index word idx = py_index target idx))
             indices.

(** ** Vocabulary of the statements about cleaning *)

(** [key] decodes [text] to printable ASCII without forbidden punctuation:
    the text is not reported by [get_invalid_idxs]. *)
Definition decodes_clean (key text : bytes) : bool :=
  check_ascii (xor_key_text key text)
  && extra_strict_check (xor_key_text key text).

(** The list of set-aside ciphertexts a session result carries; the
    result of line 151 carries none. *)
Definition result_invalid_pts (r : session_result) : list bytes :=
  match r with
  | Converged _ => []
  | NoExtension _ invalid_pts => invalid_pts
  | NotFound _ _ invalid_pts => invalid_pts
  | Interrupted _ _ invalid_pts => invalid_pts
  | Finished _ _ invalid_pts => invalid_pts
  end.

(** ** Vocabulary of the statements about what the session returns *)

(** Whenever [c] returns, what it returns satisfies [Q]. *)
Definition returns {A} (c : M A) (Q : A -> Prop) : Prop :=
  forall w a w', c w = (Return a, w') -> Q a.

(** The active set and the set-aside list a step hands on, or the
    set-aside list of the result it returns, hold only texts of [texts]. *)
Definition flow_within (texts : list bytes) (f : flow) : Prop :=
  match f with
  | Go v => incl (v_set_text v) texts /\ incl (v_invalid_pts v) texts
  | Stop r => incl (result_invalid_pts r) texts
  end.

(** ** Vocabulary of the statements about the keys of the session *)

(** The key a session result carries first: [target_key]. *)
Definition result_key (r : session_result) : bytes :=
  match r with
  | Converged target_key => target_key
  | NoExtension target_key _ => target_key
  | NotFound target_key _ _ => target_key
  | Interrupted target_key _ _ => target_key
  | Finished target_key _ _ => target_key
  end.

(** The trace of [w'] continues that of [w]. *)
Definition grows (w w' : world) : Prop :=
  exists l, trace w' = trace w ++ l.

(** Since [w0], [key] has been put before the oracle by [validate_key]. *)
Definition shown_since (w0 w : world) (key : bytes) : Prop :=
  exists l texts,
    trace w = trace w0 ++ l /\ In (Decode Validate key texts) l.

(** A step that goes on hands on a key shown since [w0], if it hands on
    one; a step that returns from the session returns [target_key]. *)
Definition flow_shown (w0 : world) (target_key : bytes) (f : flow) (w : world)
  : Prop :=
  match f with
  | Go v => forall key, v_my_new_key v = Some key -> shown_since w0 w key
  | Stop r => result_key r = target_key
  end.

(** ** A small session for examples *)

(** Two ciphertexts of six and two zero bytes, and an oracle that rejects
    the first proposal, then points at ciphertext 0, types "hello" and
    confirms the key derived from it. *)
Definition six_zeros : bytes := [x00; x00; x00; x00; x00; x00].
Definition two_zeros : bytes := [x00; x00].
(** A ciphertext that the key "th" decodes to "ca" and four more bytes. *)
Definition cat_text : bytes := [x17; x09; x00; x00; x00; x00].
Definition rejecting_oracle : world :=
  {| replies := [Line (str_of "n"); Line (str_of "0"); Line (str_of "hello");
                 Line (str_of "y")];
     trace := [] |}.

(* ================================================================== *)
(** * Properties *)
(* ================================================================== *)

(** ** Properties of [byte_xor] *)

Lemma byte_to_N_lt (b : byte) : Byte.to_N b < 256.
Proof. destruct b; reflexivity. Qed.

Lemma lxor_lt_256 (m n : N) : m < 256 -> n < 256 -> N.lxor m n < 256.
Proof.
  intros Hm Hn.
  destruct (N.eq_dec (N.lxor m n) 0) as [->|Hz]; [reflexivity|].
  apply N.log2_lt_pow2 with (b := 8); [lia|].
  eapply N.le_lt_trans; [apply N.log2_lxor|].
  apply N.max_lub_lt.
  - destruct (N.eq_dec m 0) as [->|?]; [reflexivity|].
    apply N.log2_lt_pow2; lia.
  - destruct (N.eq_dec n 0) as [->|?]; [reflexivity|].
    apply N.log2_lt_pow2; lia.
Qed.

Lemma byte_xor_to_N (a b : byte) :
  Byte.to_N (byte_xor a b) = N.lxor (Byte.to_N a) (Byte.to_N b).
Proof.
  unfold byte_xor.
  destruct (Byte.of_N _) as [c|] eqn:E.
  - apply Byte.to_of_N_iff. exact E.
  - apply Byte.of_N_None_iff in E.
    pose proof (lxor_lt_256 _ _ (byte_to_N_lt a) (byte_to_N_lt b)). lia.
Qed.

Lemma byte_to_N_inj (a b : byte) : Byte.to_N a = Byte.to_N b -> a = b.
Proof.
  intros H. apply (f_equal Byte.of_N) in H.
  rewrite !Byte.of_to_N in H. congruence.
Qed.

Lemma byte_xor_comm (a b : byte) : byte_xor a b = byte_xor b a.
Proof. apply byte_to_N_inj. rewrite !byte_xor_to_N. apply N.lxor_comm. Qed.

Lemma byte_xor_involutive (a b : byte) : byte_xor (byte_xor a b) b = a.
Proof.
  apply byte_to_N_inj. rewrite !byte_xor_to_N.
  rewrite N.lxor_assoc, N.lxor_nilpotent, N.lxor_0_r. reflexivity.
Qed.

Lemma byte_xor_x00_l (a : byte) : byte_xor x00 a = a.
Proof. apply byte_to_N_inj. rewrite byte_xor_to_N. reflexivity. Qed.

(** ** [xor_key_text] is the zipped XOR *)

Lemma xor_zip_length (a b : bytes) :
  length (xor_zip a b) = Nat.min (length a) (length b).
Proof.
  revert b. induction a as [|x a IH]; intros [|y b]; simpl; auto.
Qed.

Lemma xor_zip_nth (a b : bytes) (i : nat) :
  (i < Nat.min (length a) (length b))%nat ->
  nth i (xor_zip a b) x00 = byte_xor (nth i a x00) (nth i b x00).
Proof.
  revert b i. induction a as [|x a IH]; intros [|y b] i; simpl; try lia.
  destruct i as [|i]; [reflexivity|]. intros H. apply IH. lia.
Qed.

Lemma xor_zip_as_map (a b : bytes) :
  xor_zip a b =
  map (fun n => byte_xor (nth n a x00) (nth n b x00))
      (seq 0 (Nat.min (length a) (length b))).
Proof.
  revert b. induction a as [|x a IH]; intros [|y b]; simpl; try reflexivity.
  f_equal. rewrite IH, <- seq_shift, map_map. reflexivity.
Qed.

Lemma max_list_ge (l : list nat) (n : nat) :
  In n l -> (n <= fold_right Nat.max 0 l)%nat.
Proof.
  induction l as [|m l IH]; simpl; [tauto|].
  intros [->|H]; [lia|]. specialize (IH H). lia.
Qed.

Lemma xor_key_text_zip (key text : bytes) :
  xor_key_text key text = xor_zip key text.
Proof.
  unfold xor_key_text, pwn_xor.
  destruct key as [|k key]; [reflexivity|].
  destruct text as [|t text]; [reflexivity|].
  cbn [List.filter length Nat.eqb negb].
  set (a := k :: key). set (b := t :: text).
  change (S (length key)) with (length a).
  change (S (length text)) with (length b).
  rewrite firstn_map, take_seq, xor_zip_as_map.
  replace (Nat.min (Nat.min (length a) (length b)) _)
    with (Nat.min (length a) (length b)) by (cbn [map fold_right]; lia).
  apply map_ext_in. intros n Hn. apply in_seq in Hn.
  cbn [fold_left]. rewrite byte_xor_x00_l.
  rewrite !Nat.mod_small by lia. reflexivity.
Qed.

Lemma xor_zip_involutive (a b : bytes) :
  (length a <= length b)%nat -> xor_zip (xor_zip a b) b = a.
Proof.
  revert b. induction a as [|x a IH]; intros [|y b]; simpl; try reflexivity; try lia.
  intros H. rewrite byte_xor_involutive, IH by lia. reflexivity.
Qed.

Lemma xor_zip_comm (a b : bytes) : xor_zip a b = xor_zip b a.
Proof.
  revert b. induction a as [|x a IH]; intros [|y b]; simpl; try reflexivity.
  rewrite byte_xor_comm, IH. reflexivity.
Qed.

(** C8. [xor_key_text] is a total function on byte sequences: for all [a]
    and [b] its result has length [min(len(a), len(b))] and its [i]-th byte
    is [a[i] XOR b[i]] (the bit-wise exclusive or of the two byte values)
    for every [i] below that length. *)
Theorem xor_key_text_bytewise (a b : bytes) :
  length (xor_key_text a b) = Nat.min (length a) (length b) /\
  forall i : nat, (i < Nat.min (length a) (length b))%nat ->
    exists x y r : byte,
      nth_error a i = Some x /\ nth_error b i = Some y /\
      nth_error (xor_key_text a b) i = Some r /\
      Byte.to_N r = N.lxor (Byte.to_N x) (Byte.to_N y).
Proof.
  rewrite xor_key_text_zip. split; [apply xor_zip_length|].
  intros i Hi.
  exists (nth i a x00), (nth i b x00), (nth i (xor_zip a b) x00).
  repeat split.
  - apply nth_error_nth'. lia.
  - apply nth_error_nth'. lia.
  - apply nth_error_nth'. rewrite xor_zip_length. lia.
  - rewrite xor_zip_nth by exact Hi. apply byte_xor_to_N.
Qed.

(** C9. For byte sequences of equal length, XOR-ing with [b] twice gives
    back [a]: [xor_key_text(xor_key_text(a, b), b) == a]. *)
Theorem xor_key_text_involution (a b : bytes) :
  length a = length b ->
  xor_key_text (xor_key_text a b) b = a.
Proof.
  intros H. rewrite !xor_key_text_zip. apply xor_zip_involutive. lia.
Qed.

(** ** The UTF-8 decoder on printable text *)

Lemma lor_ge_128_l (a b : N) : 128 <= a -> 128 <= N.lor a b.
Proof.
  intros Ha.
  assert (H0 : 0 < a) by lia.
  assert (H1 : 0 < N.lor a b).
  { destruct (N.eq_dec (N.lor a b) 0) as [E|]; [|lia].
    apply N.lor_eq_0_l in E. lia. }
  change 128 with (2 ^ 7) in *.
  apply N.log2_le_pow2; [exact H1|].
  apply N.log2_le_pow2 in Ha; [|exact H0].
  rewrite N.log2_lor. lia.
Qed.

Lemma lor_ge_128_r (a b : N) : 128 <= b -> 128 <= N.lor a b.
Proof. rewrite N.lor_comm. apply lor_ge_128_l. Qed.

Lemma cp2_ge_128 (b0 b1 : byte) : two_byte_ok b0 b1 = true -> 128 <= cp2 b0 b1.
Proof.
  unfold two_byte_ok, cp2. intros H. apply andb_prop in H as [H _].
  apply lor_ge_128_l.
  destruct b0; try discriminate H; vm_compute; discriminate.
Qed.

Lemma cp3_ge_128 (b0 b1 b2 : byte) :
  three_byte_ok b0 b1 b2 = true -> 128 <= cp3 b0 b1 b2.
Proof.
  unfold three_byte_ok, cp3. intros H.
  apply andb_prop in H as [H _]. apply andb_prop in H as [H0 H1].
  destruct (Byte.to_N b0 =? 0xE0) eqn:E.
  - apply lor_ge_128_r, lor_ge_128_l. unfold cont_bits.
    destruct b1; try discriminate H1; vm_compute; discriminate.
  - apply lor_ge_128_l.
    destruct b0; try discriminate H0; try discriminate E;
      vm_compute; discriminate.
Qed.

Lemma cp4_ge_128 (b0 b1 b2 b3 : byte) :
  four_byte_ok b0 b1 b2 b3 = true -> 128 <= cp4 b0 b1 b2 b3.
Proof.
  unfold four_byte_ok, cp4. intros H.
  apply andb_prop in H as [H _]. apply andb_prop in H as [H _].
  apply andb_prop in H as [H0 H1].
  destruct (Byte.to_N b0 =? 0xF0) eqn:E.
  - apply lor_ge_128_r, lor_ge_128_l. unfold cont_bits.
    destruct b1; try discriminate H1; vm_compute; discriminate.
  - apply lor_ge_128_l.
    destruct b0; try discriminate H0; try discriminate E;
      vm_compute; discriminate.
Qed.

Lemma printable_lt_128 (c : N) : char_in c string_printable = true -> c < 128.
Proof.
  unfold char_in. intros H. apply bool_decide_eq_true in H.
  assert (F : forallb (fun c => c <? 128) string_printable = true)
    by reflexivity.
  rewrite forallb_forall in F. apply N.ltb_lt, F, list_elem_of_In, H.
Qed.

Lemma not_printable_ge_128 (c : N) :
  128 <= c -> char_in c string_printable = false.
Proof.
  intros H. destruct (char_in c string_printable) eqn:E; [|reflexivity].
  apply printable_lt_128 in E. lia.
Qed.

Lemma items_printable_Some (c : N) (l : list (option N)) :
  items_printable (Some c :: l) = char_in c string_printable && items_printable l.
Proof.
  unfold items_printable. cbn. destruct (mapM id l); cbn; [reflexivity|].
  rewrite andb_false_r. reflexivity.
Qed.

Lemma items_printable_None (l : list (option N)) :
  items_printable (None :: l) = false.
Proof. reflexivity. Qed.

Lemma items_printable_big (c : N) (l : list (option N)) :
  128 <= c -> items_printable (Some c :: l) = false.
Proof.
  intros H. rewrite items_printable_Some, not_printable_ge_128 by exact H.
  reflexivity.
Qed.

Lemma check_ascii_items (bs : bytes) :
  check_ascii bs = items_printable (utf8_scan bs).
Proof. reflexivity. Qed.

Lemma check_ascii_cons (b0 : byte) (r0 : bytes) :
  check_ascii (b0 :: r0) = printable_byte b0 && check_ascii r0.
Proof.
  rewrite !check_ascii_items. unfold printable_byte. cbn [utf8_scan].
  destruct (Byte.to_N b0 <? 0x80) eqn:E0.
  - apply items_printable_Some.
  - apply N.ltb_ge in E0.
    rewrite (not_printable_ge_128 _ E0). cbn [andb].
    destruct r0 as [|b1 r1]; [reflexivity|].
    destruct (two_byte_ok b0 b1) eqn:E2.
    { apply items_printable_big, cp2_ge_128, E2. }
    destruct r1 as [|b2 r2]; [reflexivity|].
    destruct (three_byte_ok b0 b1 b2) eqn:E3.
    { apply items_printable_big, cp3_ge_128, E3. }
    destruct r2 as [|b3 r3]; [reflexivity|].
    destruct (four_byte_ok b0 b1 b2 b3) eqn:E4.
    { apply items_printable_big, cp4_ge_128, E4. }
    reflexivity.
Qed.

Lemma check_ascii_forallb (bs : bytes) :
  check_ascii bs = forallb printable_byte bs.
Proof.
  induction bs as [|b0 r0 IH]; [reflexivity|].
  rewrite check_ascii_cons, IH. reflexivity.
Qed.

Lemma utf8_scan_ascii (bs : bytes) :
  Forall (fun b => Byte.to_N b < 128) bs ->
  utf8_scan bs = map (fun b => Some (Byte.to_N b)) bs.
Proof.
  induction 1 as [|b0 r0 Hb _ IH]; [reflexivity|].
  cbn [utf8_scan map]. apply N.ltb_lt in Hb. rewrite Hb, IH. reflexivity.
Qed.

Lemma printable_bytes_ascii (bs : bytes) :
  check_ascii bs = true -> Forall (fun b => Byte.to_N b < 128) bs.
Proof.
  rewrite check_ascii_forallb, forallb_forall, Forall_forall.
  intros H b Hb. apply printable_lt_128, (H b). apply list_elem_of_In, Hb.
Qed.

Lemma utf8_decode_ascii (bs : bytes) :
  Forall (fun b => Byte.to_N b < 128) bs ->
  utf8_decode bs = Some (map Byte.to_N bs).
Proof.
  intros H. unfold utf8_decode. rewrite (utf8_scan_ascii _ H).
  clear H. induction bs as [|b bs IH]; [reflexivity|].
  cbn. cbn in IH. rewrite IH. reflexivity.
Qed.

Lemma utf8_decode_ignore_ascii (bs : bytes) :
  Forall (fun b => Byte.to_N b < 128) bs ->
  utf8_decode_ignore bs = map Byte.to_N bs.
Proof.
  intros H. unfold utf8_decode_ignore. rewrite (utf8_scan_ascii _ H).
  clear H. induction bs as [|b bs IH]; [reflexivity|].
  cbn. cbn in IH. rewrite IH. reflexivity.
Qed.





(** ** [py_sorted] sorts, and is stable *)

Section Sorting.
Context {A : Type} (key : A -> Z).

Lemma sorted_insert_perm (reverse : bool) (x : A) (l : list A) :
  Permutation (sorted_insert key reverse x l) (x :: l).
Proof.
  induction l as [|y l IH]; cbn; [reflexivity|].
  destruct (if reverse then _ else _); [|reflexivity].
  rewrite IH. apply perm_swap.
Qed.

Lemma py_sorted_perm (reverse : bool) (l : list A) :
  Permutation (py_sorted key reverse l) l.
Proof.
  induction l as [|x l IH]; cbn; [reflexivity|].
  fold (py_sorted key reverse l). rewrite sorted_insert_perm, IH. reflexivity.
Qed.

Lemma py_sorted_In (reverse : bool) (l : list A) (x : A) :
  In x (py_sorted key reverse l) <-> In x l.
Proof.
  split; apply Permutation_in; [|symmetry]; apply py_sorted_perm.
Qed.

Lemma sorted_insert_desc (x : A) (l : list A) :
  StronglySorted (fun a b => (key b <= key a)%Z) l ->
  StronglySorted (fun a b => (key b <= key a)%Z) (sorted_insert key true x l).
Proof.
  induction 1 as [|y l Hl IH Hy]; cbn.
  - constructor; constructor.
  - destruct (key x <? key y)%Z eqn:E.
    + apply Z.ltb_lt in E. constructor; [exact IH|].
      rewrite Forall_forall. intros z Hz. apply list_elem_of_In in Hz.
      apply (Permutation_in _ (sorted_insert_perm true x l)) in Hz.
      destruct Hz as [<-|Hz]; [lia|].
      rewrite Forall_forall in Hy. apply Hy, list_elem_of_In, Hz.
    + apply Z.ltb_ge in E. constructor; [constructor; assumption|].
      constructor; [exact E|].
      rewrite Forall_forall in Hy |- *. intros z Hz. specialize (Hy z Hz). lia.
Qed.

Lemma py_sorted_desc (l : list A) :
  StronglySorted (fun a b => (key b <= key a)%Z) (py_sorted key true l).
Proof.
  induction l as [|x l IH]; cbn; [constructor|].
  apply sorted_insert_desc, IH.
Qed.

(** Stability: the elements of any one key keep their order. *)
Lemma sorted_insert_same_key (k : Z) (x : A) (l : list A) :
  List.filter (fun a => (key a =? k)%Z) (sorted_insert key true x l) =
  List.filter (fun a => (key a =? k)%Z) (x :: l).
Proof.
  induction l as [|y l IH]; [reflexivity|].
  cbn [sorted_insert]. destruct (key x <? key y)%Z eqn:E; [|reflexivity].
  cbn [List.filter] in *. rewrite IH.
  destruct (key x =? k)%Z eqn:Ex, (key y =? k)%Z eqn:Ey; try reflexivity.
  apply Z.eqb_eq in Ex, Ey. apply Z.ltb_lt in E. lia.
Qed.

Lemma py_sorted_stable (k : Z) (l : list A) :
  List.filter (fun a => (key a =? k)%Z) (py_sorted key true l) =
  List.filter (fun a => (key a =? k)%Z) l.
Proof.
  induction l as [|x l IH]; [reflexivity|].
  cbn [py_sorted fold_right]. fold (py_sorted key true l).
  rewrite sorted_insert_same_key. cbn [List.filter]. rewrite IH. reflexivity.
Qed.

End Sorting.

(** ** [sort_with_frequencies] *)

Section Frequencies.
Context {py : PyBuiltins}.
Variable self : WordFinder.

Lemma scored_words_map (ws : list str) :
  flat_map (fun word =>
              if (word_freq self word =? 0)%Z then []
              else [(word, word_freq self word)]) ws =
  map (fun w => (w, word_freq self w))
      (List.filter (fun w => negb (word_freq self w =? 0)%Z) ws).
Proof.
  induction ws as [|w ws IH]; [reflexivity|].
  cbn [flat_map List.filter]. rewrite IH.
  destruct (word_freq self w =? 0)%Z; reflexivity.
Qed.

Lemma scored_snd (l : list str) (p : str * Z) :
  In p (map (fun w => (w, word_freq self w)) l) -> p.2 = word_freq self p.1.
Proof. rewrite in_map_iff. intros (w & <- & _). reflexivity. Qed.

Lemma strongly_sorted_map_fst (l : list (str * Z)) :
  (forall p, In p l -> p.2 = word_freq self p.1) ->
  StronglySorted (fun a b => (b.2 <= a.2)%Z) l ->
  StronglySorted (fun a b => (word_freq self b <= word_freq self a)%Z)
                 (map fst l).
Proof.
  intros Hl S. induction S as [|p l S IH Hp]; cbn; [constructor|].
  constructor.
  - apply IH. intros q Hq. apply Hl. right. exact Hq.
  - rewrite Forall_forall in Hp. rewrite Forall_forall. intros w Hw.
    apply list_elem_of_In, in_map_iff in Hw as (q & <- & Hq).
    rewrite <- (Hl q (or_intror Hq)), <- (Hl p (or_introl eq_refl)).
    apply Hp, list_elem_of_In, Hq.
Qed.

(** C6. [sort_with_frequencies] returns exactly the input words whose
    frequency is nonzero, in descending order of frequency, where the
    frequency of a word is the larger of its own count and the count of its
    lowercase form (of those the table has, zero if it has neither); the
    words of zero frequency are absent. *)
Theorem sort_with_frequencies_ranks (matching_words : list str) :
  ranks_by (word_freq self) matching_words
           (sort_with_frequencies self matching_words).
Proof.
  unfold ranks_by, sort_with_frequencies. cbv zeta. rewrite scored_words_map.
  set (kept := List.filter _ matching_words).
  split.
  - rewrite (py_sorted_perm snd true), map_map. cbn. rewrite map_id. reflexivity.
  - apply strongly_sorted_map_fst; [|apply py_sorted_desc].
    intros p Hp. apply py_sorted_In in Hp. eapply scored_snd, Hp.
Qed.

End Frequencies.

(** The statement of C6 with the frequency read as a fallback fails: the
    count of "The" is 3 and that of "the" is 10, so "The" is ranked with
    10, before "cat" with 5. *)
Lemma sort_with_frequencies_not_fallback :
  ~ ranks_by (fallback_freq (py := ascii_builtins) small_corpus)
             [str_of "The"; str_of "cat"]
             (sort_with_frequencies (py := ascii_builtins) small_corpus
                                    [str_of "The"; str_of "cat"]).
Proof.
  intros [_ S].
  change (sort_with_frequencies small_corpus [str_of "The"; str_of "cat"])
    with [str_of "The"; str_of "cat"] in S.
  inversion S as [|? ? _ F]; subst.
  inversion F as [|? ? Hle _]; subst.
  vm_compute in Hle. apply Hle. reflexivity.
Qed.

(** ** Completion of the last word *)

Section Completion.
Context {py : PyBuiltins}.
Variable self : WordFinder.

Lemma sort_with_frequencies_In (ws : list str) (w : str) :
  In w (sort_with_frequencies self ws) -> In w ws.
Proof.
  unfold sort_with_frequencies. cbv zeta. rewrite scored_words_map.
  rewrite in_map_iff. intros (p & <- & Hp).
  apply py_sorted_In, in_map_iff in Hp as (w' & <- & Hw').
  apply filter_In in Hw'. tauto.
Qed.

Lemma get_matching_words_In (prefix : str) (words_list : list str)
    (add_space : bool) (s : str) :
  In s (get_matching_words self prefix words_list add_space) ->
  exists word,
    In word (all_words self) /\ startswith word prefix = true /\
    s = str_join [32] (removelast words_list) ++ [32] ++ word
        ++ (if add_space then [32] else []).
Proof.
  unfold get_matching_words. cbv zeta.
  set (base := str_join [32] (removelast words_list)).
  intros Hs.
  assert (Hw : exists word,
             In word (sort_with_frequencies self
                        (List.filter (fun word => startswith word prefix)
                                     (all_words self))) /\
             s = base ++ [32] ++ word ++ (if add_space then [32] else [])).
  { destruct add_space.
    - apply in_map_iff in Hs as (s' & <- & Hs').
      apply in_map_iff in Hs' as (word & <- & Hw).
      exists word. split; [exact Hw|]. rewrite <- !app_assoc. reflexivity.
    - apply in_map_iff in Hs as (word & <- & Hw).
      exists word. split; [exact Hw|]. rewrite app_nil_r. reflexivity. }
  destruct Hw as (word & Hw & ->).
  apply sort_with_frequencies_In, filter_In in Hw as [Hin Hpre].
  exists word. auto.
Qed.

Lemma match_sentence_Some (sentence : bytes) (strict add_space : bool)
    (candidates : list str) :
  match_sentence self sentence strict add_space = Some candidates ->
  exists last_word,
    last (str_split (utf8_decode_ignore sentence)) = Some last_word /\
    candidates =
      get_matching_words self last_word
        (str_split (utf8_decode_ignore sentence)) add_space.
Proof.
  unfold match_sentence. cbv zeta.
  destruct (last _) as [last_word|]; [|discriminate].
  intros Hm. exists last_word. split; [reflexivity|].
  destruct (_ && _); [|discriminate].
  destruct strict.
  - destruct (bool_decide _); [|discriminate]. congruence.
  - destruct (2 <=? _)%nat; [|discriminate]. congruence.
Qed.

Lemma utf8_encode_space (s : str) (e : bytes) :
  utf8_encode (32 :: s) = Some e -> exists e', e = x20 :: e'.
Proof.
  unfold utf8_encode. cbn.
  destruct (mapM utf8_encode_cp s) as [k|]; cbn; [|discriminate].
  intros [= <-]. eexists. reflexivity.
Qed.

Lemma byte_xor_cancel (t x : byte) : byte_xor (byte_xor t x) t = x.
Proof. rewrite (byte_xor_comm t x). apply byte_xor_involutive. Qed.

(** C10. When the decoded stream is a single token, every sentence that
    [match_sentence] proposes is a space, a dictionary word that starts
    with the token, and the optional trailing space; so the key derived
    from a ciphertext and such a sentence decodes the first byte of that
    ciphertext to a space. *)
Theorem single_token_completion_leads_with_space
    (sentence : bytes) (strict add_space : bool) (token : str)
    (candidates : list str) (s : str) :
  str_split (utf8_decode_ignore sentence) = [token] ->
  match_sentence self sentence strict add_space = Some candidates ->
  In s candidates ->
  (exists word,
      In word (all_words self) /\ startswith word token = true /\
      s = 32 :: word ++ (if add_space then [32] else [])) /\
  (forall text key : bytes,
      text <> [] ->
      xor_key_text_str text s = Return key ->
      exists rest, xor_key_text key text = x20 :: rest).
Proof.
  intros Hsplit Hm Hs.
  apply match_sentence_Some in Hm as (last_word & Hlast & ->).
  rewrite Hsplit in Hlast, Hs. cbn in Hlast. injection Hlast as <-.
  apply get_matching_words_In in Hs as (word & Hin & Hpre & ->).
  cbn [removelast str_join app].
  split; [exists word; auto|].
  intros text key Htext Hkey. unfold xor_key_text_str in Hkey.
  destruct (utf8_encode _) as [e|] eqn:He; [|discriminate Hkey].
  injection Hkey as <-.
  apply utf8_encode_space in He as [e' ->].
  destruct text as [|t text]; [congruence|].
  rewrite !xor_key_text_zip. cbn [xor_zip].
  rewrite byte_xor_cancel. eexists. reflexivity.
Qed.

End Completion.

Lemma single_token_completion_witness :
  exists rest,
    xor_key_text (bytes_of " the ") [x00; x00; x00; x00; x00; x00]
    = x20 :: rest.
Proof.
  exact (proj2 (single_token_completion_leads_with_space
                  (py := ascii_builtins) small_corpus
                  (bytes_of "th") false true (str_of "th") [str_of " the "]
                  (str_of " the ") eq_refl eq_refl (or_introl eq_refl))
               [x00; x00; x00; x00; x00; x00] (bytes_of " the ")
               ltac:(discriminate) eq_refl).
Defined.

(** ** The [Counter] *)

Lemma counter_get_incr (k k' : bytes) (c : Counter) :
  counter_get k (counter_incr k' c) =
  (counter_get k c + if bool_decide (k' = k) then 1 else 0)%Z.
Proof.
  induction c as [|[k0 n] c IH]; cbn.
  - rewrite (bool_decide_ext (k = k') (k' = k)) by (split; congruence).
    destruct (bool_decide (k' = k)); reflexivity.
  - destruct (bool_decide (k' = k0)) eqn:E0; cbn.
    + apply bool_decide_eq_true in E0 as ->.
      rewrite (bool_decide_ext (k0 = k) (k = k0)) by (split; congruence).
      destruct (bool_decide (k = k0)); lia.
    + apply bool_decide_eq_false in E0.
      destruct (bool_decide (k = k0)) eqn:E1; [|exact IH].
      apply bool_decide_eq_true in E1 as ->.
      rewrite bool_decide_eq_false_2 by exact E0. lia.
Qed.

Lemma counter_get_update (k : bytes) (keys : list bytes) (c : Counter) :
  counter_get k (counter_update c keys) =
  (counter_get k c + Z.of_nat (occurrences k keys))%Z.
Proof.
  unfold counter_update, occurrences. revert c.
  induction keys as [|k' keys IH]; intros c; cbn; [lia|].
  rewrite IH, counter_get_incr.
  destruct (bool_decide (k' = k)); cbn [length]; lia.
Qed.

Lemma counter_mem_set (k : bytes) (v : Z) (c : Counter) :
  counter_mem k (counter_set k v c) = true.
Proof.
  unfold counter_mem. induction c as [|[k0 n] c IH]; cbn.
  - rewrite bool_decide_eq_true_2; reflexivity.
  - destruct (bool_decide (k = k0)) eqn:E; cbn; rewrite ?E; [reflexivity|].
    exact IH.
Qed.

Lemma counter_keys_del (k x : bytes) (c : Counter) :
  In x (counter_keys (counter_del k c)) -> x <> k.
Proof.
  unfold counter_keys, counter_del. rewrite in_map_iff.
  intros ([k0 n] & <- & Hin). apply filter_In in Hin as [_ Hne].
  cbn in *. apply negb_true_iff, bool_decide_eq_false in Hne. congruence.
Qed.

Lemma occurrences_app (k : bytes) (l1 l2 : list bytes) :
  occurrences k (l1 ++ l2) = (occurrences k l1 + occurrences k l2)%nat.
Proof. unfold occurrences. rewrite List.filter_app, length_app. reflexivity. Qed.

(** ** The tally of the generator *)

Section Tally.
Context {py : PyBuiltins}.
Variable self : WordFinder.

Lemma filter_streams_one_key (strict : Z) (key k : bytes) (texts : list bytes) :
  occurrences k
    (map snd (flat_map (fun text =>
                 if stream_ok self strict (xor_key_text key text)
                 then [(xor_key_text key text, key)] else []) texts)) =
  if bool_decide (key = k) then length (accepted_texts self strict key texts)
  else 0%nat.
Proof.
  unfold occurrences, accepted_texts.
  induction texts as [|t texts IH]; cbn [flat_map List.filter map length].
  - destruct (bool_decide _); reflexivity.
  - rewrite map_app, List.filter_app, length_app, IH.
    destruct (stream_ok self strict (xor_key_text key t)); cbn.
    + destruct (bool_decide (key = k)); reflexivity.
    + reflexivity.
Qed.

Lemma filter_streams_occurrences (strict : Z) (k : bytes)
    (keys texts : list bytes) :
  occurrences k (filter_streams self keys texts strict).2 =
  (occurrences k keys * length (accepted_texts self strict k texts))%nat.
Proof.
  unfold filter_streams. cbv zeta. cbn [snd].
  induction keys as [|key keys IH]; [reflexivity|].
  cbn [flat_map]. rewrite map_app, occurrences_app, IH, filter_streams_one_key.
  change (occurrences k (key :: keys))
    with (length (if bool_decide (key = k)
                  then key :: List.filter (fun x => bool_decide (x = k)) keys
                  else List.filter (fun x => bool_decide (x = k)) keys)).
  fold (occurrences k keys).
  destruct (bool_decide (key = k)) eqn:E; cbn [length];
    fold (occurrences k keys); [|lia].
  apply bool_decide_eq_true in E as ->. lia.
Qed.

Lemma count_keys_tally (filtered : list bytes) (strict : Z) (add_space : bool)
    (streams : list bytes) :
  forall (i : nat) (c c' : Counter),
    count_keys self filtered strict add_space i streams c = Return c' ->
    forall k,
      counter_get k c' =
      (counter_get k c +
       Z.of_nat (occurrences k (guessed_keys self filtered add_space i streams)
                 * length (accepted_texts self strict k filtered)))%Z.
Proof.
  induction streams as [|stream rest IH]; intros i c c' Hc k.
  - cbn in Hc. injection Hc as <-. cbn. lia.
  - cbn [count_keys guessed_keys] in *.
    destruct (match_sentence self stream false add_space) as [[|s ms]|].
    + rewrite (IH _ _ _ Hc). reflexivity.
    + destruct (filtered !! i) as [text_i|]; [|discriminate Hc].
      destruct (xor_key_text_list_str text_i (s :: ms)) as [ks|e];
        [|discriminate Hc].
      cbn [obind] in Hc.
      destruct (filter_streams self ks filtered strict) as [results new_keys] eqn:F.
      rewrite (IH _ _ _ Hc), counter_get_update, occurrences_app.
      replace new_keys with (filter_streams self ks filtered strict).2
        by (rewrite F; reflexivity).
      rewrite filter_streams_occurrences. lia.
    + rewrite (IH _ _ _ Hc). reflexivity.
Qed.

(** C2. A candidate key receives one tally increment for each guess that
    derives it and each filtered ciphertext that it decodes to a valid
    sentence (every token a corpus word, and no forbidden punctuation when
    the strictness is 2): it is tallied as soon as one filtered ciphertext
    passes, and is left out only when none does. *)
Theorem tally_counts_accepted_texts (target_key : bytes)
    (target_texts : list bytes) (strict_filter : Z) (add_space : bool) :
  tallied_per_accepted_text self target_key target_texts strict_filter add_space.
Proof.
  intros potential_stream counted_keys _ Hc key.
  rewrite (count_keys_tally _ _ _ _ _ _ _ Hc). reflexivity.
Qed.

End Tally.

Lemma tally_counts_accepted_texts_witness :
  counter_get (bytes_of " the ") [(bytes_of " the ", 1%Z)] =
  Z.of_nat
    (occurrences (bytes_of " the ")
       (guessed_keys (py := ascii_builtins) small_corpus
          [[x00; x00; x00; x00; x00; x00]; [x00; x00; x00]] true 0
          [bytes_of "th"; bytes_of "th"])
     * length (accepted_texts small_corpus 2
                 (bytes_of " the ")
                 [[x00; x00; x00; x00; x00; x00]; [x00; x00; x00]])).
Proof.
  apply (tally_counts_accepted_texts small_corpus
           (bytes_of "th") [[x00; x00; x00; x00; x00; x00]; [x00; x00; x00]]
           2 true [bytes_of "th"; bytes_of "th"]
           [(bytes_of " the ", 1%Z)]).
  - vm_compute. reflexivity.
  - vm_compute. reflexivity.
Defined.

(** The statement of C2 as an all-or-nothing rule fails: with the key "th"
    and two ciphertexts of six and three zero bytes, the candidate " the "
    is tallied once, for the first ciphertext, although it decodes the
    second one to " th", which is no corpus word. *)
Lemma tally_not_all_or_nothing :
  ~ tallied_only_if_all_accepted (py := ascii_builtins) small_corpus
      (bytes_of "th") [[x00; x00; x00; x00; x00; x00]; [x00; x00; x00]] 2 true.
Proof.
  intros Hc.
  specialize (Hc [bytes_of "th"; bytes_of "th"] [(bytes_of " the ", 1%Z)]).
  assert (Hbad : stream_ok small_corpus 2
                   (xor_key_text (bytes_of " the ") [x00; x00; x00]) = true).
  { apply Hc.
    - vm_compute. reflexivity.
    - vm_compute. reflexivity.
    - vm_compute. reflexivity.
    - right. left. reflexivity. }
  vm_compute in Hbad. discriminate Hbad.
Qed.

(** ** The answer of the generator *)

Lemma startswith_spec (w p : bytes) :
  startswith w p = true <-> prefix_of p w.
Proof.
  unfold prefix_of. revert w.
  induction p as [|x p IH]; intros w; destruct w as [|y w]; cbn.
  - split; [intros _; exists []; reflexivity|reflexivity].
  - split; [intros _; exists (y :: w); reflexivity|reflexivity].
  - split; [discriminate|]. intros [post Hp]. discriminate Hp.
  - rewrite andb_true_iff, bool_decide_eq_true, IH. split.
    + intros [-> [post ->]]. exists post. reflexivity.
    + intros [post [= -> ->]]. split; [reflexivity|]. exists post. reflexivity.
Qed.

Lemma bytes_in_unfold (n h : bytes) :
  bytes_in n h =
  startswith h n || match h with [] => false | _ :: h' => bytes_in n h' end.
Proof. destruct h; reflexivity. Qed.

Lemma bytes_in_spec (n h : bytes) : bytes_in n h = true <-> occurs_in n h.
Proof.
  unfold occurs_in. split.
  - induction h as [|x h IH]; rewrite bytes_in_unfold, orb_true_iff.
    + intros [Hs|Hf]; [|discriminate Hf].
      apply startswith_spec in Hs as [post ->]. exists [], post. reflexivity.
    + intros [Hs|Hr].
      * apply startswith_spec in Hs as [post ->]. exists [], post. reflexivity.
      * destruct (IH Hr) as (pre & post & ->).
        exists (x :: pre), post. reflexivity.
  - intros (pre & post & ->). induction pre as [|x pre IH].
    + rewrite bytes_in_unfold, orb_true_iff. left.
      apply startswith_spec. exists post. reflexivity.
    + rewrite bytes_in_unfold, orb_true_iff. right. exact IH.
Qed.

Lemma occurs_in_same_length (m k : bytes) :
  occurs_in m k -> length k = length m -> k = m.
Proof.
  intros (pre & post & ->). rewrite !length_app. intros Hl.
  destruct pre; [|cbn in Hl; lia]. destruct post; [|cbn in Hl; lia].
  cbn. apply app_nil_r.
Qed.

Lemma py_min_len_shortest (keys : list bytes) (m : bytes) :
  py_min len keys = Some m -> shortest_in m keys.
Proof.
  unfold shortest_in, len. revert m.
  induction keys as [|x keys IH]; intros m; cbn; [discriminate|].
  destruct (py_min _ keys) as [m'|] eqn:E.
  - destruct (IH m' eq_refl) as [Hin Hle].
    destruct (Z.of_nat (length m') <? Z.of_nat (length x))%Z eqn:C;
      intros [= <-].
    + apply Z.ltb_lt in C. split; [right; exact Hin|].
      intros k [<-|Hk]; [lia|apply Hle, Hk].
    + apply Z.ltb_ge in C. split; [left; reflexivity|].
      intros k [<-|Hk]; [lia|]. specialize (Hle k Hk). lia.
  - intros [= <-]. destruct keys; [|cbn in E; destruct (py_min _ keys);
      [destruct (_ <? _)%Z|]; discriminate E].
    split; [left; reflexivity|]. intros k [<-|[]]. lia.
Qed.

Lemma py_min_None {A} (key : A -> Z) (l : list A) :
  py_min key l = None -> l = [].
Proof.
  destruct l as [|x l]; [reflexivity|]. cbn.
  destruct (py_min key l); [destruct (_ <? _)%Z|]; discriminate.
Qed.

Lemma verify_substring_keys_spec (keys : list bytes) :
  verify_substring_keys keys = true <-> consistent occurs_in keys.
Proof.
  unfold verify_substring_keys, consistent. split.
  - destruct (py_min len keys) as [m|] eqn:E; [|discriminate].
    intros Hall. exists m. split; [apply py_min_len_shortest, E|].
    intros k Hk. rewrite forallb_forall in Hall.
    apply bytes_in_spec, Hall, Hk.
  - intros (m & [Hin Hle] & Hocc).
    destruct (py_min len keys) as [m'|] eqn:E.
    + apply py_min_len_shortest in E as [Hin' Hle'].
      assert (m' = m) as ->.
      { apply occurs_in_same_length; [apply Hocc, Hin'|].
        specialize (Hle m' Hin'). specialize (Hle' m Hin). lia. }
      apply forallb_forall. intros k Hk. apply bytes_in_spec, Hocc, Hk.
    + apply py_min_None in E. subst keys. destruct Hin.
Qed.

Lemma py_sorted_head_longest (keys : list bytes) (key : bytes) (rest : list bytes) :
  py_sorted len true keys = key :: rest -> longest_in key keys.
Proof.
  intros E. pose proof (py_sorted_desc len keys) as S.
  pose proof (py_sorted_In len true keys) as I.
  rewrite E in S, I. split; [apply I; left; reflexivity|].
  intros k Hk. apply I in Hk as [<-|Hk]; [lia|].
  inversion S as [|? ? _ F]; subst. rewrite Forall_forall in F.
  apply list_elem_of_In, F in Hk. unfold len in Hk. lia.
Qed.

Section Answer.
Context {py : PyBuiltins}.
Variable self : WordFinder.

(** C1. With strictness 0 the generator never proposes the key it was
    given: the single key it returns, and every key of a list it returns,
    differs from [target_key]. *)
Theorem generator_drops_target_key_when_loose (target_key : bytes)
    (target_texts : list bytes) (add_space : bool) :
  proposes_progress self target_key target_texts 0 add_space.
Proof.
  unfold proposes_progress, identify_potential_keys. cbv zeta.
  intros r Hr Hin.
  destruct (check_potential_stream _ _ _) as [streams|];
    [|injection Hr as <-; destruct Hin].
  destruct (count_keys _ _ _ _ _ _ _) as [counted|e]; [|discriminate Hr].
  cbn [obind] in Hr.
  assert (Hs : forall k,
             In k (surviving_keys (longer_than target_key target_texts) 0
                     (drop_target_key target_key 0 counted)) ->
             k <> target_key).
  { intros k Hk. unfold surviving_keys in Hk. apply filter_In in Hk as [Hk _].
    unfold drop_target_key in Hk. rewrite counter_mem_set in Hk.
    cbn in Hk. eapply counter_keys_del, Hk. }
  destruct (verify_substring_keys _).
  - destruct (py_sorted len true _) as [|key rest] eqn:E; [discriminate Hr|].
    injection Hr as <-. destruct Hin as [->|[]].
    apply (Hs target_key); [|reflexivity].
    apply (py_sorted_In len true). rewrite E. left. reflexivity.
  - injection Hr as <-. apply (Hs target_key Hin). reflexivity.
Qed.

(** C3. The generator returns a single key exactly when some surviving
    candidate is a shortest one and occurs in every surviving candidate as
    a contiguous run of bytes (anywhere, not only at the start); the key
    returned is then a longest surviving candidate.  Otherwise it returns
    the list of surviving candidates, and the empty list when the first
    check of the decoded streams fails. *)
Theorem generator_decides_by_substring (target_key : bytes)
    (target_texts : list bytes) (strict_filter : Z) (add_space : bool) :
  decides_by self occurs_in target_key target_texts strict_filter add_space.
Proof.
  unfold decides_by, identify_potential_keys. cbv zeta.
  destruct (check_potential_stream _ _ _) as [streams|]; [|reflexivity].
  intros counted ->. cbn [obind].
  set (survivors := surviving_keys _ _ _).
  destruct (verify_substring_keys survivors) eqn:V.
  - apply verify_substring_keys_spec in V. split; [|tauto].
    intros _. destruct (py_sorted len true survivors) as [|key rest] eqn:E.
    + destruct V as (m & [Hin _] & _).
      apply (py_sorted_In len true) in Hin. rewrite E in Hin. destruct Hin.
    + exists key. split; [reflexivity|]. eapply py_sorted_head_longest, E.
  - split; [|reflexivity].
    intros C. apply verify_substring_keys_spec in C. congruence.
Qed.

End Answer.

Lemma decides_by_reached {py : PyBuiltins} (self : WordFinder)
    (rel : bytes -> bytes -> Prop) (target_key : bytes)
    (target_texts : list bytes) (strict_filter : Z) (add_space : bool)
    (potential_stream : list bytes) (counted_keys : Counter) :
  decides_by self rel target_key target_texts strict_filter add_space ->
  check_potential_stream target_key (longer_than target_key target_texts)
                         (negb (strict_filter =? 0)%Z)
  = Some potential_stream ->
  count_keys self (longer_than target_key target_texts) strict_filter
             add_space 0 potential_stream [] = Return counted_keys ->
  let survivors :=
    surviving_keys (longer_than target_key target_texts) strict_filter
      (drop_target_key target_key strict_filter counted_keys) in
  let answer :=
    identify_potential_keys self target_key target_texts strict_filter
                            add_space in
  (consistent rel survivors ->
   exists key, answer = Return (SingleKey key) /\ longest_in key survivors)
  /\ (~ consistent rel survivors -> answer = Return (KeyList survivors)).
Proof.
  unfold decides_by. cbv zeta. intros D E C. rewrite E in D. apply D, C.
Qed.

Lemma generator_drops_target_key_witness :
  ~ In (bytes_of "th") (result_keys (SingleKey (bytes_of " the "))).
Proof.
  apply (generator_drops_target_key_when_loose (py := ascii_builtins)
           small_corpus (bytes_of "th")
           [[x00; x00; x00; x00; x00; x00]; [x00; x00; x00]] true).
  vm_compute. reflexivity.
Defined.

(** The statement of C1 for every strictness fails: with strictness 2 the
    one-byte key 0x00 and the ciphertext "hi" give no completion (the
    decoded stream "h" is too short), the zeroed key stays in the tally,
    passes the stream check, and is returned as the answer. *)
Lemma generator_returns_target_key_when_strict :
  ~ proposes_progress (py := ascii_builtins) small_corpus
      [x00] [bytes_of "hi"] 2 true.
Proof.
  intros Hc. apply (Hc (SingleKey [x00])).
  - vm_compute. reflexivity.
  - left. reflexivity.
Qed.

Lemma generator_decides_by_substring_witness :
  exists key,
    identify_potential_keys (py := ascii_builtins) small_corpus (bytes_of "th")
      [[x00; x00; x00; x00; x00; x00]; [x00; x00; x00]] 2 true
    = Return (SingleKey key)
    /\ longest_in key [bytes_of " the "; bytes_of "th"].
Proof.
  apply (decides_by_reached (py := ascii_builtins) small_corpus occurs_in
           (bytes_of "th") [[x00; x00; x00; x00; x00; x00]; [x00; x00; x00]]
           2 true [bytes_of "th"; bytes_of "th"] [(bytes_of " the ", 1%Z)]
           (generator_decides_by_substring (py := ascii_builtins) small_corpus
              (bytes_of "th")
              [[x00; x00; x00; x00; x00; x00]; [x00; x00; x00]] 2 true)).
  - vm_compute. reflexivity.
  - vm_compute. reflexivity.
  - exists (bytes_of "th"). split.
    + split; [right; left; reflexivity|].
      intros k [<-|[<-|[]]]; cbn; lia.
    + intros k [<-|[<-|[]]].
      * exists [x20], (bytes_of "e "). reflexivity.
      * exists [], []. reflexivity.
Defined.

(** The statement of C3 with a prefix test fails: for the key "th" and
    ciphertexts of six and three zero bytes the surviving candidates are
    " the " and "th"; "th" is not a prefix of " the ", yet it occurs in it,
    and the generator answers with the single key " the ". *)
Lemma generator_not_decided_by_prefix :
  ~ decides_by (py := ascii_builtins) small_corpus prefix_of (bytes_of "th")
      [[x00; x00; x00; x00; x00; x00]; [x00; x00; x00]] 2 true.
Proof.
  intros D.
  apply (decides_by_reached _ _ _ _ _ _ [bytes_of "th"; bytes_of "th"]
           [(bytes_of " the ", 1%Z)]) in D;
    [|vm_compute; reflexivity|vm_compute; reflexivity].
  destruct D as [_ D].
  assert (N : ~ consistent prefix_of [bytes_of " the "; bytes_of "th"]).
  { intros (m & [Hin Hle] & Hp). destruct Hin as [<-|[<-|[]]].
    - specialize (Hle (bytes_of "th") (or_intror (or_introl eq_refl))).
      cbn in Hle. lia.
    - destruct (Hp (bytes_of " the ") (or_introl eq_refl)) as [post Hpost].
      discriminate Hpost. }
  specialize (D N). vm_compute in D. discriminate D.
Qed.

Lemma xor_key_text_involution_witness :
  xor_key_text (xor_key_text (bytes_of "the") (bytes_of "key")) (bytes_of "key")
  = bytes_of "the".
Proof. apply xor_key_text_involution. reflexivity. Defined.

Lemma xor_key_text_bytewise_witness :
  exists x y r : byte,
    nth_error (bytes_of "the") 1 = Some x /\
    nth_error (bytes_of "ke") 1 = Some y /\
    nth_error (xor_key_text (bytes_of "the") (bytes_of "ke")) 1 = Some r /\
    Byte.to_N r = N.lxor (Byte.to_N x) (Byte.to_N y).
Proof.
  apply (proj2 (xor_key_text_bytewise (bytes_of "the") (bytes_of "ke"))).
  cbn. lia.
Defined.

(** ** The manual-input step *)

Lemma truthy_check_potential_stream (key : bytes) (set_text : list bytes) :
  truthy (check_potential_stream key set_text false) = true ->
  Forall (fun t => check_ascii (xor_key_text key t) = true) set_text.
Proof.
  unfold check_potential_stream, xor_key_text_list. cbv zeta.
  destruct (forallb check_ascii _) eqn:E; [|discriminate].
  intros _. rewrite forallb_forall in E. rewrite Forall_forall.
  intros t Ht. apply E, in_map, list_elem_of_In, Ht.
Qed.

Lemma check_potential_stream_truthy (key : bytes) (set_text : list bytes) :
  set_text <> [] ->
  Forall (fun t => check_ascii (xor_key_text key t) = true) set_text ->
  truthy (check_potential_stream key set_text false) = true.
Proof.
  unfold check_potential_stream, xor_key_text_list. cbv zeta.
  intros Hne F.
  assert (E : forallb check_ascii (map (fun t => xor_key_text key t) set_text)
              = true).
  { apply forallb_forall. intros x Hx. apply in_map_iff in Hx as (t & <- & Ht).
    rewrite Forall_forall in F. apply F, list_elem_of_In, Ht. }
  rewrite E. destruct set_text; [congruence|reflexivity].
Qed.

Lemma py_index_nonempty {A} (l : list A) (i : Z) (x : A) :
  py_index l i = Some x -> l <> [].
Proof.
  intros Hx ->. unfold py_index in Hx.
  destruct (0 <=? i)%Z; [rewrite lookup_nil in Hx; discriminate|].
  destruct (_ <=? i)%Z; [rewrite lookup_nil in Hx|]; discriminate.
Qed.

Section ManualInput.
Context {py : PyBuiltins}.

(** C4. [get_input_key] always returns a key.  It is the key derived from
    the index and the plaintext fragment the oracle supplies exactly when
    the index parses and selects one of the filtered ciphertexts, the
    fragment is printable ASCII, and the derived key passes the non-strict
    stream validation (every filtered ciphertext decodes to printable
    ASCII); in every other case, among them a failed validation, a bad
    index, a fragment that is not ASCII, an interrupt and the end of the
    input, it is the prior key, unchanged. *)
Theorem get_input_key_accepts_or_keeps (target_key : bytes)
    (target_texts : list bytes) (w : world) :
  exists key w',
    get_input_key target_key target_texts w = (Return key, w') /\
    (accepted_fragment target_key target_texts w key \/
     (key = target_key /\
      ~ exists k, accepted_fragment target_key target_texts w k)).
Proof.
  assert (Hkeep : forall w' : world,
             (forall k, ~ accepted_fragment target_key target_texts w k) ->
             exists key w'',
               (Return target_key, w') = (Return key, w'') /\
               (accepted_fragment target_key target_texts w key \/
                (key = target_key /\
                 ~ exists k, accepted_fragment target_key target_texts w k))).
  { intros w' Hno. exists target_key, w'. split; [reflexivity|].
    right. split; [reflexivity|]. intros [k Hk]. exact (Hno k Hk). }
  unfold get_input_key. cbv zeta.
  unfold try_except, bind, emit, input, lift_option, ret, raise. cbn.
  destruct (replies w) as [|[line|] rest] eqn:R; cbn;
    [apply Hkeep; intros k (? & ? & ? & ? & ? & ? & Hr & _); congruence| |
     apply Hkeep; intros k (? & ? & ? & ? & ? & ? & Hr & _); congruence].
  destruct (py_int line) as [idx|] eqn:I; cbn;
    [|apply Hkeep; intros k (? & ? & ? & ? & ? & ? & Hr & Hi & _);
      congruence].
  destruct rest as [|[fragment|] rest']; cbn;
    [apply Hkeep; intros k (? & ? & ? & ? & ? & ? & Hr & _); congruence| |
     apply Hkeep; intros k (? & ? & ? & ? & ? & ? & Hr & _); congruence].
  destruct (utf8_encode fragment) as [fb|] eqn:U; cbn;
    [|apply Hkeep; intros k (? & ? & ? & ? & ? & ? & Hr & _ & Hu & _);
      congruence].
  destruct (check_ascii fb) eqn:A; cbn;
    [|apply Hkeep; intros k (? & ? & ? & ? & ? & ? & Hr & _ & Hu & Ha & _);
      congruence].
  destruct (py_index (longer_than target_key target_texts) idx)
    as [text|] eqn:P; cbn;
    [|apply Hkeep;
      intros k (? & ? & ? & ? & ? & ? & Hr & Hi & _ & _ & Hp & _);
      congruence].
  destruct (truthy (check_potential_stream _ _ false)) eqn:T; cbn.
  - do 2 eexists. split; [reflexivity|]. left.
    exists line, fragment, rest', idx, fb, text.
    repeat split; try assumption; try reflexivity.
    apply truthy_check_potential_stream, T.
  - apply Hkeep.
    intros k (line' & fragment' & rest'' & idx' & fb' & text'
              & Hr & Hi & Hu & _ & Hp & Hk & Hf).
    assert (fb' = fb) as -> by congruence.
    assert (text' = text) as -> by congruence.
    subst k.
    rewrite check_potential_stream_truthy in T; [discriminate| |exact Hf].
    eapply py_index_nonempty, P.
Qed.

End ManualInput.

(** ** The generator raises only what the source raises *)

Lemma xor_key_text_list_str_raise (key : bytes) (texts : list str) (e : exn) :
  xor_key_text_list_str key texts = Raise e -> e = Exception.
Proof.
  induction texts as [|t texts IH]; cbn; [discriminate|].
  unfold xor_key_text_str. destruct (utf8_encode t); cbn.
  - destruct (xor_key_text_list_str key texts); cbn; [discriminate|].
    intros [= <-]. apply IH. reflexivity.
  - intros [= <-]. reflexivity.
Qed.

Lemma count_keys_raise {py : PyBuiltins} (self : WordFinder)
    (filtered : list bytes) (strict : Z) (add_space : bool)
    (streams : list bytes) :
  forall i c e,
    count_keys self filtered strict add_space i streams c = Raise e ->
    e = Exception.
Proof.
  induction streams as [|stream rest IH]; intros i c e; cbn [count_keys];
    [discriminate|].
  destruct (match_sentence self stream false add_space) as [[|s ms]|];
    try apply IH.
  destruct (filtered !! i) as [text_i|]; [|intros [= <-]; reflexivity].
  destruct (xor_key_text_list_str text_i (s :: ms)) as [ks|e'] eqn:E;
    cbn [obind].
  - destruct (filter_streams self ks filtered strict). apply IH.
  - intros [= <-]. eapply xor_key_text_list_str_raise, E.
Qed.

Lemma identify_potential_keys_raise {py : PyBuiltins} (self : WordFinder)
    (target_key : bytes) (target_texts : list bytes) (strict : Z)
    (add_space : bool) (e : exn) :
  identify_potential_keys self target_key target_texts strict add_space
  = Raise e ->
  e = Exception.
Proof.
  unfold identify_potential_keys. cbv zeta.
  destruct (check_potential_stream _ _ _); [|discriminate].
  destruct (count_keys _ _ _ _ _ _ _) as [c|e'] eqn:E; cbn [obind].
  - destruct (verify_substring_keys _); [|discriminate].
    destruct (py_sorted _ _ _); [|discriminate]. intros [= <-]. reflexivity.
  - intros [= <-]. eapply count_keys_raise, E.
Qed.

Lemma py_max_In {A} (key : A -> Z) (l : list A) (m : A) :
  py_max key l = Some m -> In m l.
Proof.
  revert m. induction l as [|x l IH]; intros m; cbn; [discriminate|].
  destruct (py_max key l) as [m'|].
  - destruct (key x <? key m')%Z; intros [= <-]; [right; apply IH|left];
      reflexivity.
  - intros [= <-]. left. reflexivity.
Qed.

Lemma filter_length_lt {A} (f : A -> bool) (l : list A) (x : A) :
  In x l -> f x = false -> (length (List.filter f l) < length l)%nat.
Proof.
  intros Hx Hf. induction l as [|y l IH]; [destruct Hx|].
  cbn. pose proof (List.filter_length_le f l) as Hle.
  destruct Hx as [->|Hx].
  - rewrite Hf. lia.
  - specialize (IH Hx). destruct (f y); cbn; lia.
Qed.

(** When the oracle rejects the candidates shown, fewer candidates are
    left. *)
Lemma check_new_target_keys_shrinks {py : PyBuiltins}
    (new_target_keys set_text : list bytes) (w w' : world) (keys : list bytes) :
  check_new_target_keys new_target_keys set_text w = (Return (KeyList keys), w') ->
  (length keys < length new_target_keys)%nat.
Proof.
  unfold check_new_target_keys. cbv zeta.
  unfold bind, lift_option, try_except, input, ret, raise.
  destruct (py_max len new_target_keys) as [longest|] eqn:Emax;
    [|discriminate].
  destruct (emit_all _ w) as [[u|e] w1]; [|discriminate].
  set (small_keys := List.filter _ new_target_keys).
  assert (Hl : In longest small_keys).
  { apply filter_In. split; [eapply py_max_In, Emax|apply Z.eqb_refl]. }
  intros Hr.
  destruct (replies w1) as [|[result|] rest]; cbn in Hr.
  - discriminate Hr.
  - destruct (match result with [] => false | _ => _ end).
    + cbn in Hr. destruct rest as [|[line|] rest']; cbn in Hr.
      * discriminate Hr.
      * destruct (py_int line) as [idx|]; cbn in Hr; [|discriminate Hr].
        destruct (py_index small_keys idx); cbn in Hr; discriminate Hr.
      * destruct small_keys; [destruct new_target_keys|]; discriminate Hr.
    + injection Hr as <- <-. apply filter_length_lt with (x := longest).
      * eapply py_max_In, Emax.
      * apply negb_false_iff, bool_decide_eq_true, list_elem_of_In, Hl.
  - destruct small_keys; [destruct new_target_keys|]; discriminate Hr.
Qed.

(** ** What a computation that returns has done *)

Lemma bind_Return_inv {A B} (c : M A) (k : A -> M B) (w w' : world) (b : B) :
  bind c k w = (Return b, w') ->
  exists a w1, c w = (Return a, w1) /\ k a w1 = (Return b, w').
Proof.
  unfold bind. destruct (c w) as [[a|e] w1]; [eauto|discriminate].
Qed.

Lemma interruptible_Return_inv {A} (c : M A) (r0 : session_result)
    (k : A -> M flow) (w w' : world) (f : flow) :
  interruptible c r0 k w = (Return f, w') ->
  (exists a w1, c w = (Return a, w1) /\ k a w1 = (Return f, w')) \/
  (f = Stop r0 /\ c w = (Raise KeyboardInterrupt, w')).
Proof.
  unfold interruptible. destruct (c w) as [[a|[| |]] w1]; [eauto| | |];
    intros [= <- <-]; auto.
Qed.

Lemma attempt_Return_inv {A} (c : M A) (r0 : session_result) (h : M flow)
    (k : A -> M flow) (w w' : world) (f : flow) :
  attempt c r0 h k w = (Return f, w') ->
  (exists a w1, c w = (Return a, w1) /\ k a w1 = (Return f, w')) \/
  (f = Stop r0 /\ c w = (Raise KeyboardInterrupt, w')) \/
  (exists w1, c w = (Raise Exception, w1) /\ h w1 = (Return f, w')).
Proof.
  unfold attempt. destruct (c w) as [[a|[| |]] w1]; [eauto| |eauto|].
  - intros [= <- <-]. auto.
  - discriminate.
Qed.

Lemma returns_ret {A} (a : A) (Q : A -> Prop) : Q a -> returns (ret a) Q.
Proof. intros Hq w a' w' [= <- <-]. exact Hq. Qed.

Lemma returns_any {A} (c : M A) : returns c (fun _ => True).
Proof. intros w a w' _. exact I. Qed.

Lemma returns_bind {A B} (c : M A) (k : A -> M B) (P : A -> Prop)
    (Q : B -> Prop) :
  returns c P -> (forall a, P a -> returns (k a) Q) -> returns (bind c k) Q.
Proof.
  intros Hc Hk w b w' Hr.
  apply bind_Return_inv in Hr as (a & w1 & Ha & Hb).
  exact (Hk a (Hc _ _ _ Ha) _ _ _ Hb).
Qed.

Lemma returns_interruptible {A} (c : M A) (r0 : session_result)
    (k : A -> M flow) (P : A -> Prop) (Q : flow -> Prop) :
  returns c P -> Q (Stop r0) -> (forall a, P a -> returns (k a) Q) ->
  returns (interruptible c r0 k) Q.
Proof.
  intros Hc H0 Hk w f w' Hr.
  apply interruptible_Return_inv in Hr as [(a & w1 & Ha & Hf)|[-> _]].
  - exact (Hk a (Hc _ _ _ Ha) _ _ _ Hf).
  - exact H0.
Qed.

Lemma returns_attempt {A} (c : M A) (r0 : session_result) (h : M flow)
    (k : A -> M flow) (P : A -> Prop) (Q : flow -> Prop) :
  returns c P -> Q (Stop r0) -> returns h Q ->
  (forall a, P a -> returns (k a) Q) ->
  returns (attempt c r0 h k) Q.
Proof.
  intros Hc H0 Hh Hk w f w' Hr.
  apply attempt_Return_inv in Hr
    as [(a & w1 & Ha & Hf)|[[-> _]|(w1 & _ & Hf)]].
  - exact (Hk a (Hc _ _ _ Ha) _ _ _ Hf).
  - exact H0.
  - exact (Hh _ _ _ Hf).
Qed.

(** ** Relations between worlds that every step of a turn keeps *)

Section Keeps.
Variable R : world -> world -> Prop.
Hypothesis R_refl : forall w, R w w.
Hypothesis R_trans : forall w1 w2 w3, R w1 w2 -> R w2 w3 -> R w1 w3.

Lemma keeps_ret {A} (a : A) : keeps R (ret a).
Proof. intros w r w' [= <- <-]. split; [apply R_refl|discriminate]. Qed.

Lemma keeps_raise {A} (e : exn) : e <> OutOfFuel -> keeps R (@raise A e).
Proof.
  intros He w r w' [= <- <-]. split; [apply R_refl|congruence].
Qed.

Lemma keeps_lift {A} (o : outcome A) : o <> Raise OutOfFuel -> keeps R (lift o).
Proof. intros Ho w r w' [= <- <-]. split; [apply R_refl|exact Ho]. Qed.

Lemma keeps_lift_option {A} (o : option A) : keeps R (lift_option o).
Proof. destruct o; [apply keeps_ret|apply keeps_raise; discriminate]. Qed.

Lemma keeps_bind {A B} (c : M A) (k : A -> M B) :
  keeps R c -> (forall a, keeps R (k a)) -> keeps R (bind c k).
Proof.
  intros Hc Hk w r w' Hr. unfold bind in Hr.
  destruct (c w) as [[a|e] w1] eqn:E; destruct (Hc _ _ _ E) as [H1 Hne].
  - destruct (Hk _ _ _ _ Hr) as [H2 Hr']. split; [|exact Hr'].
    eapply R_trans; eassumption.
  - injection Hr as <- <-. split; [assumption|congruence].
Qed.

Lemma keeps_try_except {A} (c : M A) (oi oe : option (M A)) :
  keeps R c ->
  match oi with Some h => keeps R h | None => True end ->
  match oe with Some h => keeps R h | None => True end ->
  keeps R (try_except c oi oe).
Proof.
  intros Hc Hi He w r w' Hr. unfold try_except in Hr.
  destruct (c w) as [[a|[| |]] w1] eqn:E; destruct (Hc _ _ _ E) as [H1 Hne].
  - injection Hr as <- <-. split; [assumption|congruence].
  - destruct oi as [h|].
    + destruct (Hi _ _ _ Hr) as [H2 Hr']. split; [|exact Hr'].
      eapply R_trans; eassumption.
    + injection Hr as <- <-. split; [assumption|congruence].
  - destruct oe as [h|].
    + destruct (He _ _ _ Hr) as [H2 Hr']. split; [|exact Hr'].
      eapply R_trans; eassumption.
    + injection Hr as <- <-. split; [assumption|congruence].
  - congruence.
Qed.

Lemma keeps_interruptible {A} (c : M A) (r0 : session_result)
    (k : A -> M flow) :
  keeps R c -> (forall a, keeps R (k a)) -> keeps R (interruptible c r0 k).
Proof.
  intros Hc Hk w r w' Hr. unfold interruptible in Hr.
  destruct (c w) as [[a|[| |]] w1] eqn:E; destruct (Hc _ _ _ E) as [H1 Hne].
  - destruct (Hk _ _ _ _ Hr) as [H2 Hr']. split; [|exact Hr'].
    eapply R_trans; eassumption.
  - injection Hr as <- <-. split; [assumption|discriminate].
  - injection Hr as <- <-. split; [assumption|congruence].
  - congruence.
Qed.

Lemma keeps_attempt {A} (c : M A) (r0 : session_result) (h : M flow)
    (k : A -> M flow) :
  keeps R c -> keeps R h -> (forall a, keeps R (k a)) ->
  keeps R (attempt c r0 h k).
Proof.
  intros Hc Hh Hk w r w' Hr. unfold attempt in Hr.
  destruct (c w) as [[a|[| |]] w1] eqn:E; destruct (Hc _ _ _ E) as [H1 Hne].
  - destruct (Hk _ _ _ _ Hr) as [H2 Hr']. split; [|exact Hr'].
    eapply R_trans; eassumption.
  - injection Hr as <- <-. split; [assumption|discriminate].
  - destruct (Hh _ _ _ Hr) as [H2 Hr']. split; [|exact Hr'].
    eapply R_trans; eassumption.
  - congruence.
Qed.

(** The two steps that change the world. *)
Variable ok : event -> Prop.
Hypothesis R_logged : forall w e, ok e -> R w (logged w e).
Hypothesis R_answered :
  forall w x rest, replies w = x :: rest -> R w (answered w rest).

Lemma keeps_emit (e : event) : ok e -> keeps R (emit e).
Proof.
  intros He w r w' [= <- <-]. split; [apply R_logged, He|discriminate].
Qed.

Lemma keeps_input : keeps R input.
Proof.
  intros w r w' Hr. unfold input in Hr.
  destruct (replies w) as [|[s|] rest] eqn:E; injection Hr as <- <-.
  - split; [apply R_refl|discriminate].
  - split; [eapply R_answered, E|discriminate].
  - split; [eapply R_answered, E|discriminate].
Qed.

Lemma keeps_bind_returns {A B} (c : M A) (k : A -> M B) (P : A -> Prop) :
  keeps R c -> returns c P -> (forall a, P a -> keeps R (k a)) ->
  keeps R (bind c k).
Proof.
  intros Hc Hp Hk w r w' Hr. unfold bind in Hr.
  destruct (c w) as [[a|e] w1] eqn:E; destruct (Hc _ _ _ E) as [H1 Hne].
  - destruct (Hk a (Hp _ _ _ E) _ _ _ Hr) as [H2 Hr']. split; [|exact Hr'].
    eapply R_trans; eassumption.
  - injection Hr as <- <-. split; [assumption|congruence].
Qed.

Lemma bind_emit {B} (e : event) (k : unit -> M B) (w : world) :
  bind (emit e) k w = k tt (logged w e).
Proof. reflexivity. Qed.

(** The events of a turn with the key [target_key] are acceptable when the
    texts they decode are [good], those of the generator when it is called
    with [target_key].  The texts [get_input_key] keeps are [good], and so
    is every part of a [good] list. *)
Variable target_key : bytes.
Variable good : list bytes -> Prop.
Hypothesis ok_good :
  forall s key texts, s <> Generate -> good texts -> ok (Decode s key texts).
Hypothesis ok_generate :
  forall texts, good texts -> ok (Decode Generate target_key texts).
Hypothesis good_longer : forall texts, good (longer_than target_key texts).
Hypothesis good_incl :
  forall texts texts', incl texts' texts -> good texts -> good texts'.

Context {py : PyBuiltins}.
Variable word_finder : WordFinder.

(** One step of a proof that a computation keeps [R]: the rule for the
    head of the computation, or a case split. *)
Ltac keeps_step :=
  match goal with
  | |- keeps _ (ret _) => apply keeps_ret
  | |- keeps _ (raise Exception) => apply keeps_raise; discriminate
  | |- keeps _ (lift_option _) => apply keeps_lift_option
  | |- keeps _ input => apply keeps_input
  | |- keeps _ (emit _) =>
    apply keeps_emit, ok_good;
    [discriminate|first [assumption|apply good_longer]]
  | |- keeps _ (bind _ _) => apply keeps_bind
  | |- keeps _ (try_except _ _ _) => apply keeps_try_except
  | |- keeps _ (interruptible _ _ _) => apply keeps_interruptible
  | |- keeps _ (attempt _ _ _ _) => apply keeps_attempt
  | |- keeps _ (if ?b then _ else _) => destruct b
  | |- keeps _ (match ?x with _ => _ end) => destruct x
  | |- forall _, _ => intro
  | |- True => exact I
  end.

Lemma keeps_identify (key : bytes) (set_text : list bytes) (strict : Z)
    (add_space : bool) :
  keeps R (lift (identify_potential_keys word_finder key set_text
                                         strict add_space)).
Proof.
  apply keeps_lift. intros E.
  apply identify_potential_keys_raise in E. discriminate E.
Qed.

Lemma keeps_emit_all (s : site) (set_text : list bytes) (keys : list bytes) :
  s <> Generate -> good set_text ->
  keeps R (emit_all (map (fun key => Decode s key set_text) keys)).
Proof.
  intros Hs Hg. induction keys as [|k keys IH]; cbn.
  - apply keeps_ret.
  - apply keeps_bind; [apply keeps_emit, ok_good; assumption|intros _; exact IH].
Qed.

Lemma keeps_get_input_key (target_texts : list bytes) :
  keeps R (get_input_key target_key target_texts).
Proof. unfold get_input_key. cbv zeta. repeat keeps_step. Qed.

Lemma keeps_check_new_target_keys (new_target_keys set_text : list bytes) :
  good set_text ->
  keeps R (check_new_target_keys new_target_keys set_text).
Proof.
  intros Hg. unfold check_new_target_keys. cbv zeta.
  apply keeps_bind; [apply keeps_lift_option|intros longest].
  apply keeps_bind;
    [apply keeps_emit_all; [discriminate|exact Hg]|intros _].
  repeat keeps_step.
Qed.

Lemma keeps_check_and_remove (key : bytes) (set_text : list bytes) :
  good set_text ->
  keeps R (check_and_remove_invalid_chars key set_text).
Proof.
  intros Hg. unfold check_and_remove_invalid_chars. cbv zeta.
  repeat keeps_step.
Qed.

Lemma keeps_validate_key (key : option bytes) (set_text : list bytes) :
  good set_text -> keeps R (validate_key key set_text).
Proof. intros Hg. unfold validate_key. repeat keeps_step. Qed.

Lemma keeps_clean_step (my_new_key my_new_key_ : option bytes)
    (set_text invalid_pts : list bytes) :
  good set_text ->
  keeps R (clean_step target_key my_new_key my_new_key_ set_text invalid_pts).
Proof.
  intros Hg. unfold clean_step.
  destruct my_new_key as [[|b key]|]; try apply keeps_ret.
  apply keeps_interruptible; [apply keeps_check_and_remove, Hg|].
  intros r. apply keeps_ret.
Qed.

Lemma keeps_manual_round (my_new_key : option bytes)
    (set_text invalid_pts : list bytes) :
  good set_text ->
  keeps R (manual_round target_key my_new_key set_text invalid_pts).
Proof.
  intros Hg. unfold manual_round.
  apply keeps_interruptible; [apply keeps_get_input_key|intros k].
  apply keeps_interruptible; [apply keeps_validate_key, Hg|intros v].
  apply keeps_clean_step, Hg.
Qed.

Lemma keeps_manual_if_none (f : flow) :
  flow_good good f -> keeps R (manual_if_none target_key f).
Proof.
  intros Hf. destruct f as [v|r]; cbn [manual_if_none]; [|apply keeps_ret].
  destruct (truthy_key _); [apply keeps_ret|apply keeps_manual_round, Hf].
Qed.

Lemma keeps_give_up_if_none (f : flow) :
  keeps R (give_up_if_none target_key f).
Proof.
  destruct f as [v|r]; cbn [give_up_if_none]; [|apply keeps_ret].
  destruct (truthy_key _); apply keeps_ret.
Qed.

Lemma keeps_get_new_keys_loop (fuel : nat) :
  forall new_keys set_text,
    good set_text ->
    (length new_keys < fuel)%nat ->
    keeps R (get_new_keys_loop fuel new_keys set_text).
Proof.
  induction fuel as [|fuel IH]; intros new_keys set_text Hg Hlt; [lia|].
  cbn [get_new_keys_loop]. intros w r w' Hr. unfold bind in Hr.
  destruct (check_new_target_keys new_keys set_text w) as [[res|e] w1] eqn:E;
    destruct (keeps_check_new_target_keys _ _ Hg _ _ _ E) as [H1 Hne].
  - destruct res as [[|b key]|[|k keys]];
      try (injection Hr as <- <-; split; [assumption|discriminate]).
    apply check_new_target_keys_shrinks in E.
    destruct (IH (k :: keys) set_text Hg ltac:(lia) _ _ _ Hr) as [H2 Hr'].
    split; [eapply R_trans; eassumption|exact Hr'].
  - injection Hr as <- <-. split; [assumption|congruence].
Qed.

Lemma keeps_get_new_keys (new_target_keys : keys_result) (set_text : list bytes) :
  good set_text -> keeps R (get_new_keys new_target_keys set_text).
Proof.
  intros Hg. destruct new_target_keys; cbn [get_new_keys]; [apply keeps_ret|].
  apply keeps_get_new_keys_loop; [exact Hg|lia].
Qed.

(** The active set a step of the turn hands on is part of the one it was
    given. *)
Lemma returns_good_cleaning (key : bytes) (set_text : list bytes) :
  good set_text ->
  returns (check_and_remove_invalid_chars key set_text) (fun r => good r.1).
Proof.
  intros Hg w r w'. unfold check_and_remove_invalid_chars. cbv zeta.
  unfold bind, emit, input, ret. cbn [replies trace].
  destruct (get_invalid_idxs _) as [|i ids]; [intros [= <- <-]; exact Hg|].
  destruct (replies w) as [|[choice|] rest]; cbn [replies trace];
    try discriminate.
  destruct (affirmative choice); intros [= <- <-]; [|exact Hg].
  cbn [fst]. eapply good_incl; [|exact Hg].
  intros x Hx. apply in_map_iff in Hx as ([j t] & <- & Hin).
  apply filter_In in Hin as [Hin _]. unfold enumerate in Hin.
  apply in_combine_r in Hin. exact Hin.
Qed.

Lemma returns_good_clean_step (my_new_key my_new_key_ : option bytes)
    (set_text invalid_pts : list bytes) :
  good set_text ->
  returns (clean_step target_key my_new_key my_new_key_ set_text invalid_pts)
          (flow_good good).
Proof.
  intros Hg. unfold clean_step.
  destruct my_new_key as [[|b key]|]; try (apply returns_ret; exact Hg).
  eapply returns_interruptible; [apply returns_good_cleaning, Hg|exact I|].
  intros r Hr. apply returns_ret. exact Hr.
Qed.

Lemma returns_good_manual_round (my_new_key : option bytes)
    (set_text invalid_pts : list bytes) :
  good set_text ->
  returns (manual_round target_key my_new_key set_text invalid_pts)
          (flow_good good).
Proof.
  intros Hg. unfold manual_round.
  eapply returns_interruptible; [apply returns_any|exact I|]. intros key _.
  eapply returns_interruptible; [apply returns_any|exact I|]. intros v _.
  apply returns_good_clean_step, Hg.
Qed.

Lemma returns_good_retry_loose (new_target_key : bytes)
    (set_text invalid_pts : list bytes) :
  good set_text ->
  returns (retry_loose word_finder target_key new_target_key set_text
                       invalid_pts)
          (flow_good good).
Proof.
  intros Hg. unfold retry_loose. cbv zeta.
  eapply returns_bind; [apply returns_any|]. intros _ _.
  eapply returns_attempt;
    [apply returns_any|exact I|apply returns_good_manual_round, Hg|].
  intros keys _.
  eapply returns_attempt;
    [apply returns_any|exact I|apply returns_good_manual_round, Hg|].
  intros key_ _.
  eapply returns_attempt;
    [apply returns_any|exact I|apply returns_good_manual_round, Hg|].
  intros [[|b key]|] _; try (apply returns_ret; exact Hg).
  eapply returns_attempt;
    [apply returns_good_cleaning, Hg|exact I
    |apply returns_good_manual_round, Hg|].
  intros r Hr. apply returns_ret. exact Hr.
Qed.

Lemma keeps_retry_loose (new_target_key : bytes)
    (set_text invalid_pts : list bytes) :
  good set_text -> ok (Decode Generate new_target_key set_text) ->
  keeps R (retry_loose word_finder target_key new_target_key set_text
                       invalid_pts).
Proof.
  intros Hg Hok. unfold retry_loose. cbv zeta.
  apply keeps_bind; [apply keeps_emit, Hok|intros _].
  apply keeps_attempt;
    [apply keeps_identify|apply keeps_manual_round, Hg|intros new_target_keys].
  apply keeps_attempt;
    [apply keeps_get_new_keys, Hg|apply keeps_manual_round, Hg
    |intros my_new_key_].
  apply keeps_attempt;
    [apply keeps_validate_key, Hg|apply keeps_manual_round, Hg
    |intros my_new_key].
  destruct my_new_key as [[|b key]|]; try apply keeps_ret.
  apply keeps_attempt;
    [apply keeps_check_and_remove, Hg|apply keeps_manual_round, Hg|intros r].
  apply keeps_ret.
Qed.

(** The generator is called again (line 174) only when [new_target_key]
    is [target_key]. *)
Lemma keeps_after_validation (new_target_key : bytes)
    (my_new_key_ : option bytes) (set_text invalid_pts : list bytes)
    (result : option bytes) :
  good set_text ->
  keeps R (after_validation word_finder target_key new_target_key my_new_key_
                            set_text invalid_pts result).
Proof.
  intros Hg. unfold after_validation. destruct (truthy_key result).
  - destruct (bool_decide (target_key <> new_target_key)) eqn:E;
      [apply keeps_ret|].
    apply bool_decide_eq_false, dec_stable in E. subst new_target_key.
    eapply keeps_bind_returns;
      [apply keeps_retry_loose; [exact Hg|apply ok_generate, Hg]
      |apply returns_good_retry_loose, Hg|intros f Hf].
    apply keeps_bind; [apply keeps_manual_if_none, Hf|intros f'].
    apply keeps_give_up_if_none.
  - apply keeps_bind; [apply keeps_manual_round, Hg|intros f].
    apply keeps_give_up_if_none.
Qed.

Lemma keeps_confirm (new_target_key : bytes)
    (my_new_key_ : option bytes) (set_text invalid_pts : list bytes) :
  good set_text ->
  keeps R (confirm word_finder target_key new_target_key my_new_key_ set_text
                   invalid_pts).
Proof.
  intros Hg. unfold confirm.
  apply keeps_interruptible; [apply keeps_validate_key, Hg|intros result].
  apply keeps_after_validation, Hg.
Qed.

(** A turn first logs the call of the generator with [target_key] and the
    active set, and keeps [R] from there on. *)
Lemma loop_body_logged (my_new_key_ : option bytes)
    (set_text invalid_pts : list bytes) (w w' : world)
    (r : outcome flow) :
  good set_text ->
  loop_body word_finder target_key my_new_key_ set_text invalid_pts w
  = (r, w') ->
  R (logged w (Decode Generate target_key set_text)) w' /\
  r <> Raise OutOfFuel.
Proof.
  intros Hg. unfold loop_body. rewrite bind_emit. cbv beta.
  revert r w'. generalize (logged w (Decode Generate target_key set_text)).
  intros w1 r w'. revert w1 r w'.
  apply keeps_bind; [apply keeps_identify|intros [key|[|k keys]]].
  - apply keeps_confirm, Hg.
  - apply keeps_ret.
  - destruct (last _) as [temp_key|]; [|apply keeps_raise; discriminate].
    apply keeps_interruptible; [apply keeps_validate_key, Hg|intros validated].
    destruct (truthy_key validated); [apply keeps_confirm, Hg|apply keeps_ret].
Qed.

Lemma keeps_loop_body (my_new_key_ : option bytes)
    (set_text invalid_pts : list bytes) :
  good set_text ->
  keeps R (loop_body word_finder target_key my_new_key_ set_text invalid_pts).
Proof.
  intros Hg w r w' Hr. destruct (loop_body_logged _ _ _ _ _ _ Hg Hr) as [H Hne].
  split; [|exact Hne].
  eapply R_trans; [apply R_logged, ok_generate, Hg|exact H].
Qed.

End Keeps.

(** ** The session decodes only texts longer than the current key *)

Lemma longer_than_longer (key : bytes) (texts : list bytes) :
  texts_longer key (longer_than key texts).
Proof.
  unfold texts_longer. rewrite Forall_forall. intros t Ht.
  apply list_elem_of_In, filter_In in Ht as [_ Ht]. apply Nat.ltb_lt, Ht.
Qed.

(** The texts the loop keeps at line 149 are the texts the generator and
    [get_input_key] keep: their own filter changes nothing. *)
Lemma longer_than_idem (key : bytes) (texts : list bytes) :
  longer_than key (longer_than key texts) = longer_than key texts.
Proof.
  unfold longer_than. induction texts as [|t texts IH]; [reflexivity|].
  cbn [List.filter]. destruct (length key <? length t)%nat eqn:E.
  - cbn [List.filter]. rewrite E, IH. reflexivity.
  - exact IH.
Qed.

Lemma texts_longer_incl (key : bytes) (texts texts' : list bytes) :
  incl texts' texts -> texts_longer key texts -> texts_longer key texts'.
Proof.
  unfold texts_longer. rewrite !Forall_forall. intros Hi H t Ht.
  apply H, list_elem_of_In, Hi, list_elem_of_In, Ht.
Qed.

Lemma turn_related_refl (key : bytes) (w : world) : turn_related key w w.
Proof. exists []. split; [symmetry; apply app_nil_r|constructor]. Qed.

Lemma turn_related_trans (key : bytes) (w1 w2 w3 : world) :
  turn_related key w1 w2 -> turn_related key w2 w3 -> turn_related key w1 w3.
Proof.
  intros (l1 & H1 & F1) (l2 & H2 & F2). exists (l1 ++ l2). split.
  - rewrite H2, H1. symmetry. apply app_assoc.
  - apply Forall_app. split; assumption.
Qed.

Lemma turn_related_logged (key : bytes) (w : world) (e : event) :
  turn_event key e -> turn_related key w (logged w e).
Proof.
  intros He. exists [e]. split; [reflexivity|]. constructor; [exact He|constructor].
Qed.

Lemma turn_related_answered (key : bytes) (w : world) (x : reply)
    (rest : list reply) :
  replies w = x :: rest -> turn_related key w (answered w rest).
Proof. intros _. exists []. split; [symmetry; apply app_nil_r|constructor]. Qed.

(** The events of a turn leave the current key as it is. *)
Lemma turn_events_decode (key : bytes) (l rest : list event) :
  Forall (turn_event key) l ->
  decodes_longer_than_current (Some key) rest ->
  decodes_longer_than_current (Some key) (l ++ rest).
Proof.
  intros Hl Hrest. induction Hl as [|[s k texts] l [Hk Ht] _ IH]; [exact Hrest|].
  cbn [app decodes_longer_than_current]. cbv zeta.
  assert (E : match s with Generate => Some k | _ => Some key end = Some key).
  { destruct s; try reflexivity. rewrite (Hk eq_refl). reflexivity. }
  rewrite E. split; [exact Ht|exact IH].
Qed.

Section SessionTrace.
Context {py : PyBuiltins}.
Variable word_finder : WordFinder.

(** One turn: the call of the generator with the key of the turn and the
    pruned active set, then events of that turn only. *)
Lemma loop_body_turn (target_key : bytes) (my_new_key_ : option bytes)
    (set_text invalid_pts : list bytes) (w w' : world) (r : outcome flow) :
  texts_longer target_key set_text ->
  loop_body word_finder target_key my_new_key_ set_text invalid_pts w
  = (r, w') ->
  exists l,
    trace w' = trace w ++ Decode Generate target_key set_text :: l /\
    Forall (turn_event target_key) l.
Proof.
  intros Hg Hr.
  assert (Hgood : forall s key texts,
             s <> Generate -> texts_longer target_key texts ->
             turn_event target_key (Decode s key texts))
    by (intros s key texts Hs Ht; split; [intros E; contradiction|exact Ht]).
  assert (Hgen : forall texts,
             texts_longer target_key texts ->
             turn_event target_key (Decode Generate target_key texts))
    by (intros texts Ht; split; [reflexivity|exact Ht]).
  destruct (loop_body_logged (turn_related target_key)
              (turn_related_refl target_key) (turn_related_trans target_key)
              (turn_event target_key) (turn_related_logged target_key)
              (turn_related_answered target_key)
              target_key (texts_longer target_key) Hgood Hgen
              (longer_than_longer target_key) (texts_longer_incl target_key)
              word_finder my_new_key_ set_text invalid_pts w w' r Hg Hr)
    as [(l & Hl & Fl) _].
  exists l. split; [|exact Fl]. rewrite Hl. cbn [logged trace].
  rewrite <- app_assoc. reflexivity.
Qed.

Lemma session_loop_decodes (fuel : nat) :
  forall target_key my_new_key my_new_key_ set_text invalid_pts w r w',
    session_loop word_finder fuel target_key my_new_key my_new_key_ set_text
                 invalid_pts w = (r, w') ->
    exists l,
      trace w' = trace w ++ l /\
      forall current, decodes_longer_than_current current l.
Proof.
  assert (Hnone : forall w : world,
             exists l, trace w = trace w ++ l /\
                       forall current, decodes_longer_than_current current l).
  { intros w. exists []. split; [symmetry; apply app_nil_r|intros; exact I]. }
  induction fuel as [|fuel IH]; intros target_key my_new_key my_new_key_
    set_text invalid_pts w r w' Hr; cbn [session_loop] in Hr.
  - destruct (_ =? 1)%nat; injection Hr as <- <-; apply Hnone.
  - destruct (_ =? 1)%nat; [injection Hr as <- <-; apply Hnone|].
    destruct my_new_key as [key|]; [|injection Hr as <- <-; apply Hnone].
    cbv zeta in Hr.
    destruct (_ =? 1)%nat; [injection Hr as <- <-; apply Hnone|].
    unfold bind in Hr.
    destruct (loop_body word_finder key my_new_key_ _ invalid_pts w)
      as [[[v|res]|e] w1] eqn:E;
      destruct (loop_body_turn _ _ _ _ _ _ _ (longer_than_longer key set_text) E)
        as (l1 & H1 & F1).
    + destruct (IH _ _ _ _ _ _ _ _ Hr) as (l2 & H2 & D2).
      exists ((Decode Generate key (longer_than key set_text) :: l1) ++ l2).
      split; [rewrite H2, H1; symmetry; apply app_assoc|].
      intros current. cbn [app decodes_longer_than_current]. cbv zeta.
      split; [apply longer_than_longer|].
      apply turn_events_decode; [exact F1|apply D2].
    + injection Hr as <- <-.
      exists (Decode Generate key (longer_than key set_text) :: l1).
      split; [exact H1|].
      intros current. cbn [decodes_longer_than_current]. cbv zeta.
      split; [apply longer_than_longer|].
      rewrite <- (app_nil_r l1). apply turn_events_decode; [exact F1|exact I].
    + injection Hr as <- <-.
      exists (Decode Generate key (longer_than key set_text) :: l1).
      split; [exact H1|].
      intros current. cbn [decodes_longer_than_current]. cbv zeta.
      split; [apply longer_than_longer|].
      rewrite <- (app_nil_r l1). apply turn_events_decode; [exact F1|exact I].
Qed.

(** C5. In every run of the session, whatever the oracle replies and
    however the run ends, every list of ciphertexts that is decoded during
    a turn of the loop (by the generator, at the confirmation prompts, in
    the display of tied candidates, in the manual-input step and in the
    cleaning step) holds only ciphertexts strictly longer than the current
    key, the [target_key] of that turn, and nothing is decoded before the
    first call of the generator: the loop prunes the active set with
    [target_key] at the start of the turn (line 149), and the later steps
    of the turn decode that set or a part of it.  The generator and
    [get_input_key] prune again for themselves: what they do depends only
    on the ciphertexts longer than the key they are given.  The key that
    decodes need not be the current key; for a proposed or newly confirmed
    key the statement says nothing. *)
Theorem session_decodes_texts_longer_than_current_key (fuel : nat)
    (target_key : bytes) (set_text : list bytes) (w : world) :
  (exists l,
      trace (interactive_crib_dragging word_finder fuel target_key set_text
                                       w).2
      = trace w ++ l /\
      decodes_longer_than_current None l) /\
  (forall key texts strict_filter add_space,
      identify_potential_keys word_finder key texts strict_filter add_space
      = identify_potential_keys word_finder key (longer_than key texts)
                                strict_filter add_space) /\
  (forall key texts w0,
      get_input_key key texts w0
      = get_input_key key (longer_than key texts) w0).
Proof.
  split; [|split].
  - destruct (session_loop_decodes fuel target_key (Some target_key) None
                set_text [] w _ _ (surjective_pairing _)) as (l & Hl & Dl).
    exists l. split; [exact Hl|apply Dl].
  - intros key texts strict_filter add_space.
    unfold identify_potential_keys. cbv zeta.
    rewrite longer_than_idem. reflexivity.
  - intros key texts w0. unfold get_input_key. cbv zeta.
    rewrite longer_than_idem. reflexivity.
Qed.

End SessionTrace.

(** ** The session ends *)

Section SessionEnds.
Context {py : PyBuiltins}.
Variable word_finder : WordFinder.

Lemma keeps_replies_loop_body (target_key : bytes) (my_new_key_ : option bytes)
    (set_text invalid_pts : list bytes) :
  keeps not_more_replies
        (loop_body word_finder target_key my_new_key_ set_text invalid_pts).
Proof.
  apply keeps_loop_body with (ok := fun _ => True) (good := fun _ => True); unfold not_more_replies;
    try (intros; cbn; lia); auto.
  intros w x rest ->. cbn. lia.
Qed.

Lemma keeps_replies_after_validation (target_key new_target_key : bytes)
    (my_new_key_ : option bytes) (set_text invalid_pts : list bytes)
    (result : option bytes) :
  keeps not_more_replies
        (after_validation word_finder target_key new_target_key my_new_key_
                          set_text invalid_pts result).
Proof.
  apply keeps_after_validation with (ok := fun _ => True) (good := fun _ => True);
    unfold not_more_replies; try (intros; cbn; lia); auto.
  intros w x rest ->. cbn. lia.
Qed.

(** [validate_key] returns only after it has read a reply. *)
Lemma validate_key_consumes (target_key : option bytes) (set_text : list bytes)
    (w w' : world) (a : option bytes) :
  validate_key target_key set_text w = (Return a, w') ->
  (length (replies w') < length (replies w))%nat.
Proof.
  unfold validate_key, bind, emit, input, ret, raise. intros Hr.
  destruct target_key as [key|]; [|destruct set_text]; cbn in Hr;
    try discriminate Hr;
    (destruct (replies w) as [|[s|] rest]; cbn in Hr; try discriminate Hr;
     destruct (affirmative s); injection Hr as <- <-; cbn; lia).
Qed.

Lemma confirm_consumes (target_key new_target_key : bytes)
    (my_new_key_ : option bytes) (set_text invalid_pts : list bytes)
    (w w' : world) (v : vars) :
  confirm word_finder target_key new_target_key my_new_key_ set_text
          invalid_pts w = (Return (Go v), w') ->
  (length (replies w') < length (replies w))%nat.
Proof.
  unfold confirm, interruptible. intros Hr.
  destruct (validate_key (Some new_target_key) set_text w)
    as [[a|[| |]] w1] eqn:E; try discriminate Hr.
  apply validate_key_consumes in E.
  apply keeps_replies_after_validation in Hr as [Hr _].
  unfold not_more_replies in Hr. lia.
Qed.

(** A turn of the loop that goes on has read a reply. *)
Lemma loop_body_consumes (target_key : bytes) (my_new_key_ : option bytes)
    (set_text invalid_pts : list bytes) (w w' : world) (v : vars) :
  loop_body word_finder target_key my_new_key_ set_text invalid_pts w
  = (Return (Go v), w') ->
  (length (replies w') < length (replies w))%nat.
Proof.
  unfold loop_body, bind, emit, lift. intros Hr.
  destruct (identify_potential_keys _ _ _ _ _) as [[key|[|k keys]]|e];
    try discriminate Hr.
  - apply confirm_consumes in Hr. exact Hr.
  - destruct (last _) as [temp_key|]; [|discriminate Hr].
    unfold interruptible in Hr.
    destruct (validate_key (Some temp_key) set_text _)
      as [[a|[| |]] w1] eqn:E; try discriminate Hr.
    apply validate_key_consumes in E. cbn in E.
    destruct (truthy_key a); [|discriminate Hr].
    apply confirm_consumes in Hr. lia.
Qed.

Lemma session_loop_ends (fuel : nat) :
  forall target_key my_new_key my_new_key_ set_text invalid_pts w r w',
    (length (replies w) < fuel)%nat ->
    session_loop word_finder fuel target_key my_new_key my_new_key_ set_text
                 invalid_pts w = (r, w') ->
    r <> Raise OutOfFuel.
Proof.
  induction fuel as [|fuel IH]; intros target_key my_new_key my_new_key_
    set_text invalid_pts w r w' Hlt Hr; [lia|].
  cbn [session_loop] in Hr.
  destruct (_ =? 1)%nat; [injection Hr as <- <-; discriminate|].
  destruct my_new_key as [key|]; [|injection Hr as <- <-; discriminate].
  destruct (_ =? 1)%nat; [injection Hr as <- <-; discriminate|].
  unfold bind in Hr.
  destruct (loop_body word_finder key my_new_key_ _ invalid_pts w)
    as [[[v|res]|e] w1] eqn:E.
  - apply loop_body_consumes in E. eapply IH; [|exact Hr]. lia.
  - injection Hr as <- <-. discriminate.
  - injection Hr as <- <-.
    apply keeps_replies_loop_body in E as [_ E]. congruence.
Qed.

(** With more fuel than the oracle has replies, the run of the session is
    not cut off: it returns, or raises as the source does. *)
Lemma interactive_crib_dragging_ends (fuel : nat) (target_key : bytes)
    (set_text : list bytes) (w : world) (r : outcome session_result)
    (w' : world) :
  (length (replies w) < fuel)%nat ->
  interactive_crib_dragging word_finder fuel target_key set_text w = (r, w') ->
  r <> Raise OutOfFuel.
Proof. apply session_loop_ends. Qed.

End SessionEnds.


(** The run of the example session: the oracle rejects the key "a", the
    key "hello" is derived from its fragment and confirmed, and the
    cleaning step decodes both ciphertexts with it before the loop prunes
    the shorter one and converges. *)
Lemma rejecting_session_run :
  interactive_crib_dragging (py := ascii_builtins) small_corpus 10
    (bytes_of "a") [six_zeros; two_zeros] rejecting_oracle =
  (Return (Converged (bytes_of "hello")),
   {| replies := [];
      trace :=
        [Decode Generate (bytes_of "a") [six_zeros; two_zeros];
         Decode Validate (bytes_of "a") [six_zeros; two_zeros];
         Decode Manual (bytes_of "a") [six_zeros; two_zeros];
         Decode ManualCheck (bytes_of "hello") [six_zeros; two_zeros];
         Decode Validate (bytes_of "hello") [six_zeros; two_zeros];
         Decode Cleaning (bytes_of "hello") [six_zeros; two_zeros]] |}).
Proof. vm_compute. reflexivity. Qed.

(** The statement of C5 for every decoding with the key of the session
    fails: in the example session the key "hello", confirmed by the
    oracle, is five bytes long, and the cleaning step decodes with it the
    active set that still holds the ciphertext of two bytes. *)
Lemma session_cleans_before_pruning :
  ~ session_decodes_longer (py := ascii_builtins) small_corpus
      session_key_site 10 (bytes_of "a") [six_zeros; two_zeros]
      rejecting_oracle.
Proof.
  intros Hc. specialize (Hc _ _ rejecting_session_run).
  specialize (Hc (Decode Cleaning (bytes_of "hello") [six_zeros; two_zeros])).
  cbn [trace] in Hc.
  assert (Hl : decodes_longer
                 (Decode Cleaning (bytes_of "hello") [six_zeros; two_zeros])).
  { apply Hc; [|reflexivity]. do 5 right. left. reflexivity. }
  cbn in Hl. inversion Hl as [|? ? _ Hl']; subst.
  inversion Hl' as [|? ? Hlt _]; subst. cbn in Hlt. lia.
Qed.

(** [get_input_key] in the example session: the fragment "hello" at index
    0 gives the key "hello". *)
Lemma get_input_key_example :
  (get_input_key (py := ascii_builtins) (bytes_of "a") [six_zeros; two_zeros]
     {| replies := [Line (str_of "0"); Line (str_of "hello")]; trace := [] |}).1
  = Return (bytes_of "hello").
Proof. vm_compute. reflexivity. Qed.

(** ** The generator returns *)

Lemma encodable_chars (s : str) :
  encodable s <-> Forall (fun c => is_Some (utf8_encode_cp c)) s.
Proof.
  unfold encodable, utf8_encode. rewrite fmap_is_Some. apply mapM_is_Some.
Qed.

Lemma ascii_char_encodable (c : N) : c < 128 -> is_Some (utf8_encode_cp c).
Proof.
  intros Hc. unfold utf8_encode_cp. apply N.ltb_lt in Hc. rewrite Hc. eauto.
Qed.

Lemma split_go_chars (P : N -> Prop) (s : str) :
  Forall P s ->
  Forall (Forall P) (split_go s).1 /\ Forall P (split_go s).2.
Proof.
  induction 1 as [|c s Hc _ [IH1 IH2]]; cbn; [split; constructor|].
  destruct (split_go s) as [toks cur]. cbn in *.
  destruct (py_isspace c); cbn.
  - split; [|constructor]. destruct cur; [exact IH1|].
    constructor; assumption.
  - split; [exact IH1|]. constructor; assumption.
Qed.

Lemma str_split_chars (P : N -> Prop) (s : str) :
  Forall P s -> Forall (Forall P) (str_split s).
Proof.
  intros Hs. destruct (split_go_chars P s Hs) as [H1 H2].
  unfold str_split. destruct (split_go s) as [toks cur]. cbn in *.
  destruct cur; [exact H1|]. constructor; assumption.
Qed.

Lemma removelast_chars {A} (P : A -> Prop) (l : list A) :
  Forall P l -> Forall P (removelast l).
Proof.
  induction 1 as [|x l Hx Hl IH]; cbn; [constructor|].
  destruct l; [constructor|]. constructor; assumption.
Qed.

Lemma str_join_chars (P : N -> Prop) (sep : str) (l : list str) :
  Forall P sep -> Forall (Forall P) l -> Forall P (str_join sep l).
Proof.
  intros Hsep. induction 1 as [|w l Hw Hl IH]; cbn; [constructor|].
  destruct l; [exact Hw|]. rewrite !Forall_app. auto.
Qed.

Section Returns.
Context {py : PyBuiltins}.
Variable self : WordFinder.
Hypothesis words_encodable : Forall encodable (all_words self).

Lemma matched_sentences_encodable (stream : bytes) (strict add_space : bool)
    (sentences : list str) :
  check_ascii stream = true ->
  match_sentence self stream strict add_space = Some sentences ->
  Forall encodable sentences.
Proof.
  intros Ha Hm. apply match_sentence_Some in Hm as (last_word & _ & ->).
  rewrite Forall_forall. intros s Hs.
  apply list_elem_of_In, get_matching_words_In in Hs as (word & Hw & _ & ->).
  apply printable_bytes_ascii in Ha.
  rewrite (utf8_decode_ignore_ascii _ Ha).
  set (ok := fun c => is_Some (utf8_encode_cp c)).
  assert (Hstream : Forall ok (map Byte.to_N stream)).
  { rewrite Forall_map. eapply Forall_impl; [exact Ha|].
    intros b Hb. apply ascii_char_encodable, Hb. }
  assert (Hsp : Forall ok [32]).
  { constructor; [|constructor]. apply ascii_char_encodable. reflexivity. }
  apply encodable_chars. fold ok. rewrite !Forall_app. repeat split.
  - apply str_join_chars; [exact Hsp|].
    apply removelast_chars, str_split_chars, Hstream.
  - exact Hsp.
  - rewrite Forall_forall in words_encodable.
    apply encodable_chars, words_encodable, list_elem_of_In, Hw.
  - destruct add_space; [exact Hsp|constructor].
Qed.

Lemma xor_key_text_list_str_returns (key : bytes) (sentences : list str) :
  Forall encodable sentences ->
  exists ks, xor_key_text_list_str key sentences = Return ks.
Proof.
  induction 1 as [|s l [e He] _ [ks IH]]; cbn; [eauto|].
  unfold xor_key_text_str. rewrite He, IH. cbn. eauto.
Qed.

Lemma count_keys_returns (filtered : list bytes) (strict : Z) (add_space : bool)
    (streams : list bytes) :
  forall i c,
    Forall (fun s => check_ascii s = true) streams ->
    (i + length streams <= length filtered)%nat ->
    exists c', count_keys self filtered strict add_space i streams c = Return c'.
Proof.
  induction streams as [|stream rest IH]; intros i c Ha Hlen;
    cbn [count_keys]; [eauto|].
  apply Forall_cons in Ha as [Ha Hrest]. cbn [length] in Hlen.
  destruct (match_sentence self stream false add_space) as [[|s ms]|] eqn:Em;
    try (apply IH; [exact Hrest|lia]).
  destruct (lookup_lt_is_Some_2 filtered i ltac:(lia)) as [text_i ->].
  destruct (xor_key_text_list_str_returns text_i (s :: ms)) as [ks ->].
  { eapply matched_sentences_encodable; eassumption. }
  cbn [obind]. destruct (filter_streams self ks filtered strict).
  apply IH; [exact Hrest|lia].
Qed.

(** When every dictionary word can be encoded, the generator returns a
    result for every key, list of ciphertexts and strictness. *)
Lemma identify_potential_keys_returns (target_key : bytes)
    (target_texts : list bytes) (strict_filter : Z) (add_space : bool) :
  exists r,
    identify_potential_keys self target_key target_texts strict_filter
                            add_space = Return r.
Proof.
  unfold identify_potential_keys. cbv zeta.
  destruct (check_potential_stream _ _ _) as [streams|] eqn:Ec; [|eauto].
  assert (Hs : streams = xor_key_text_list target_key
                           (longer_than target_key target_texts) /\
               Forall (fun s => check_ascii s = true) streams).
  { unfold check_potential_stream in Ec. cbv zeta in Ec.
    destruct (forallb check_ascii _) eqn:Ea; [|discriminate Ec].
    assert (streams = xor_key_text_list target_key
                        (longer_than target_key target_texts)) as ->.
    { destruct (negb _); [destruct (forallb extra_strict_check _)|];
        congruence. }
    split; [reflexivity|]. rewrite forallb_forall in Ea.
    rewrite Forall_forall. intros s Hs. apply Ea, list_elem_of_In, Hs. }
  destruct Hs as [Hs Ha].
  destruct (count_keys_returns (longer_than target_key target_texts)
              strict_filter add_space streams 0 [] Ha) as [c ->].
  { rewrite Hs. unfold xor_key_text_list. rewrite length_map. lia. }
  cbn [obind]. destruct (verify_substring_keys _) eqn:V; [|eauto].
  destruct (py_sorted len true _) as [|key rest] eqn:E; [|eauto].
  apply verify_substring_keys_spec in V as (m & [Hin _] & _).
  apply (py_sorted_In len true) in Hin. rewrite E in Hin. destruct Hin.
Qed.

End Returns.

(* ================================================================== *)
(** * Further properties of the code *)
(* ================================================================== *)

(** ** [xor_key_text] as the operation of crib dragging *)

Lemma xor_zip_recover (a b : bytes) :
  xor_zip (xor_zip a b) b = firstn (Nat.min (length a) (length b)) a.
Proof.
  revert b. induction a as [|x a IH]; intros [|y b]; cbn; try reflexivity.
  rewrite byte_xor_involutive, IH. reflexivity.
Qed.

Lemma xor_zip_firstn_l (n : nat) (a b : bytes) :
  xor_zip (firstn n a) b = firstn n (xor_zip a b).
Proof.
  revert a b. induction n as [|n IH]; intros [|x a] [|y b]; cbn;
    try reflexivity.
  rewrite IH. reflexivity.
Qed.

Lemma xor_zip_firstn_r (n : nat) (a b : bytes) :
  xor_zip a (firstn n b) = firstn n (xor_zip a b).
Proof. rewrite xor_zip_comm, xor_zip_firstn_l, xor_zip_comm. reflexivity. Qed.

Lemma byte_xor_assoc (a b c : byte) :
  byte_xor (byte_xor a b) c = byte_xor a (byte_xor b c).
Proof. apply byte_to_N_inj. rewrite !byte_xor_to_N. apply N.lxor_assoc. Qed.

(** X1. [xor_key_text] does not depend on the order of its arguments. *)
Theorem xor_key_text_comm (a b : bytes) : xor_key_text a b = xor_key_text b a.
Proof. rewrite !xor_key_text_zip. apply xor_zip_comm. Qed.

(** X2. XOR-ing the result with the second argument again gives back the
    first argument, cut to the length of the shorter one; with
    [xor_key_text(ciphertext, guess)] as the key, this is the guess (up to
    the length of the ciphertext). *)
Theorem xor_key_text_recovers (a b : bytes) :
  xor_key_text (xor_key_text a b) b = firstn (Nat.min (length a) (length b)) a.
Proof. rewrite !xor_key_text_zip. apply xor_zip_recover. Qed.

(** X3. A prefix of a key decodes a text to the prefix of what the key
    decodes it to: extending a key never changes the bytes already
    decoded. *)
Theorem xor_key_text_prefix_key (n : nat) (key text : bytes) :
  xor_key_text (firstn n key) text = firstn n (xor_key_text key text).
Proof. rewrite !xor_key_text_zip. apply xor_zip_firstn_l. Qed.

Lemma xor_zip_cross (key p1 p2 : bytes) :
  (length p1 <= length key)%nat -> (length p2 <= length key)%nat ->
  xor_zip (xor_zip (xor_zip key p1) p1) (xor_zip key p2) =
  firstn (Nat.min (length p1) (length p2)) p2.
Proof.
  revert p1 p2. induction key as [|k key IH]; intros [|x p1] [|y p2];
    cbn [xor_zip length Nat.min firstn]; try reflexivity; try lia.
  intros H1 H2. rewrite IH by lia.
  rewrite byte_xor_involutive, (byte_xor_comm k (byte_xor k y)),
    byte_xor_cancel.
  reflexivity.
Qed.

(** X4. The principle of crib dragging: when two plaintexts are encrypted
    with the same key, the key derived from the first ciphertext and its
    plaintext decodes the second ciphertext to its plaintext, as far as
    both plaintexts reach. *)
Theorem crib_decodes_other_ciphertext (key p1 p2 : bytes) :
  (length p1 <= length key)%nat -> (length p2 <= length key)%nat ->
  xor_key_text (xor_key_text (xor_key_text key p1) p1) (xor_key_text key p2) =
  firstn (Nat.min (length p1) (length p2)) p2.
Proof. intros H1 H2. rewrite !xor_key_text_zip. apply xor_zip_cross; lia. Qed.

Lemma crib_decodes_other_ciphertext_witness :
  xor_key_text
    (xor_key_text (xor_key_text (bytes_of "secretkey") (bytes_of "the cat"))
                  (bytes_of "the cat"))
    (xor_key_text (bytes_of "secretkey") (bytes_of "a dog"))
  = bytes_of "a dog".
Proof.
  apply (crib_decodes_other_ciphertext (bytes_of "secretkey")
           (bytes_of "the cat") (bytes_of "a dog")); cbn; lia.
Defined.

(** ** [extra_strict_check] on arbitrary bytes *)

Lemma is_cont_ge_128 (b : byte) : is_cont b = true -> 128 <= Byte.to_N b.
Proof.
  unfold is_cont, in_range. intros H. apply andb_prop in H as [H _].
  apply N.leb_le in H. exact H.
Qed.

Lemma in_range_ge (lo hi n : N) : in_range lo hi n = true -> lo <= n.
Proof.
  unfold in_range. intros H. apply andb_prop in H as [H _].
  apply N.leb_le, H.
Qed.

Lemma three_byte_ok_ge_128 (b0 b1 b2 : byte) :
  three_byte_ok b0 b1 b2 = true ->
  128 <= Byte.to_N b1 /\ 128 <= Byte.to_N b2.
Proof.
  unfold three_byte_ok. cbv zeta. intros H.
  apply andb_prop in H as [H H2]. apply andb_prop in H as [_ H1].
  split; [|apply is_cont_ge_128, H2].
  destruct (_ =? 0xE0); [apply in_range_ge in H1; lia|].
  destruct (_ =? 0xED); [apply in_range_ge in H1; lia|].
  apply is_cont_ge_128, H1.
Qed.

Lemma four_byte_ok_ge_128 (b0 b1 b2 b3 : byte) :
  four_byte_ok b0 b1 b2 b3 = true ->
  128 <= Byte.to_N b1 /\ 128 <= Byte.to_N b2 /\ 128 <= Byte.to_N b3.
Proof.
  unfold four_byte_ok. cbv zeta. intros H.
  apply andb_prop in H as [H H3]. apply andb_prop in H as [H H2].
  apply andb_prop in H as [_ H1].
  split; [|split; apply is_cont_ge_128; assumption].
  destruct (_ =? 0xF0); [apply in_range_ge in H1; lia|].
  destruct (_ =? 0xF4); [apply in_range_ge in H1; lia|].
  apply is_cont_ge_128, H1.
Qed.

(** A test that only ASCII characters pass sees the same in the text
    decoded with [errors='ignore'] as in the bytes. *)
Lemma decode_ignore_existsb (f : N -> bool) :
  (forall c, 128 <= c -> f c = false) ->
  forall bs,
    existsb f (utf8_decode_ignore bs) = existsb (fun b => f (Byte.to_N b)) bs.
Proof.
  intros Hf bs. unfold utf8_decode_ignore.
  remember (length bs) as n eqn:Hn.
  assert (Hle : (length bs <= n)%nat) by lia. clear Hn.
  revert bs Hle. induction n as [|n IH]; intros bs Hle.
  { destruct bs; [reflexivity|cbn in Hle; lia]. }
  destruct bs as [|b0 r0]; [reflexivity|]. cbn [length] in Hle.
  cbn [utf8_scan existsb].
  destruct (Byte.to_N b0 <? 0x80) eqn:E0.
  { cbn. rewrite IH by lia. reflexivity. }
  apply N.ltb_ge in E0. rewrite (Hf _ E0). cbn [orb].
  assert (Hskip : existsb f (omap id (None :: utf8_scan r0))
                  = existsb (fun b => f (Byte.to_N b)) r0).
  { cbn. apply IH. lia. }
  destruct r0 as [|b1 r1]; [reflexivity|]. cbn [length] in Hle.
  destruct (two_byte_ok b0 b1) eqn:E2.
  { cbn. rewrite (Hf _ (cp2_ge_128 _ _ E2)), IH by lia.
    unfold two_byte_ok in E2. apply andb_prop in E2 as [_ E2].
    rewrite (Hf _ (is_cont_ge_128 _ E2)). reflexivity. }
  destruct r1 as [|b2 r2]; [exact Hskip|]. cbn [length] in Hle.
  destruct (three_byte_ok b0 b1 b2) eqn:E3.
  { cbn. rewrite (Hf _ (cp3_ge_128 _ _ _ E3)), IH by lia.
    destruct (three_byte_ok_ge_128 _ _ _ E3) as [H1 H2].
    rewrite (Hf _ H1), (Hf _ H2). reflexivity. }
  destruct r2 as [|b3 r3]; [exact Hskip|]. cbn [length] in Hle.
  destruct (four_byte_ok b0 b1 b2 b3) eqn:E4; [|exact Hskip].
  cbn. rewrite (Hf _ (cp4_ge_128 _ _ _ _ E4)), IH by lia.
  destruct (four_byte_ok_ge_128 _ _ _ _ E4) as (H1 & H2 & H3).
  rewrite (Hf _ H1), (Hf _ H2), (Hf _ H3). reflexivity.
Qed.

Lemma forbidden_lt_128 (c : N) : 128 <= c -> char_in c forbidden_chars = false.
Proof.
  intros Hc. unfold char_in.
  destruct (bool_decide (c ∈ forbidden_chars)) eqn:E; [|reflexivity].
  apply bool_decide_eq_true in E.
  assert (F : forallb (fun c => c <? 128) forbidden_chars = true)
    by reflexivity.
  rewrite forallb_forall in F. apply list_elem_of_In, F, N.ltb_lt in E. lia.
Qed.

Lemma extra_strict_check_forallb (sentence : bytes) :
  extra_strict_check sentence
  = forallb (fun b => negb (forbidden_byte b)) sentence.
Proof.
  unfold extra_strict_check, forbidden_byte. cbv zeta.
  rewrite (decode_ignore_existsb (fun c => char_in c forbidden_chars)
             forbidden_lt_128).
  induction sentence as [|b l IH]; [reflexivity|]. cbn.
  rewrite negb_orb. cbn in IH. rewrite IH. reflexivity.
Qed.

(** X5. On any byte sequence, decodable or not, [extra_strict_check]
    passes exactly when no byte is one of the forbidden characters: bytes
    that do not decode are ignored and never hide or fake one. *)
Theorem extra_strict_check_bytes (sentence : bytes) :
  extra_strict_check sentence = negb (existsb forbidden_byte sentence).
Proof.
  rewrite extra_strict_check_forallb.
  induction sentence as [|b l IH]; [reflexivity|]. cbn.
  rewrite negb_orb, IH. reflexivity.
Qed.

(** ** [check_potential_stream] byte by byte *)

Lemma forallb_andb {A} (f g : A -> bool) (l : list A) :
  forallb (fun x => f x && g x) l = forallb f l && forallb g l.
Proof.
  induction l as [|x l IH]; [reflexivity|]. cbn. rewrite IH.
  destruct (f x), (g x), (forallb f l); reflexivity.
Qed.

Lemma forallb_map_compose {A B} (f : B -> bool) (g : A -> B) (l : list A) :
  forallb f (map g l) = forallb (fun x => f (g x)) l.
Proof.
  induction l as [|x l IH]; [reflexivity|]. cbn. rewrite IH. reflexivity.
Qed.

Lemma forallb_pointwise {A} (f g : A -> bool) (l : list A) :
  (forall x, f x = g x) -> forallb f l = forallb g l.
Proof.
  intros H. induction l as [|x l IH]; [reflexivity|]. cbn.
  rewrite H, IH. reflexivity.
Qed.

Lemma negb_existsb {A} (f : A -> bool) (l : list A) :
  negb (existsb f l) = forallb (fun x => negb (f x)) l.
Proof.
  induction l as [|x l IH]; [reflexivity|]. cbn.
  rewrite negb_orb, IH. reflexivity.
Qed.

(** X6. [check_potential_stream] returns the decoded texts exactly when
    every byte of every decoded text is a character of [string.printable]
    and, with [strict], none is a forbidden character; otherwise it returns
    [None]. *)
Theorem check_potential_stream_bytes (target_key : bytes)
    (text_list : list bytes) (strict : bool) :
  check_potential_stream target_key text_list strict =
  if forallb (fun text => forallb (byte_passes strict)
                                  (xor_key_text target_key text)) text_list
  then Some (xor_key_text_list target_key text_list)
  else None.
Proof.
  unfold check_potential_stream, xor_key_text_list. cbv zeta.
  rewrite !forallb_map_compose.
  rewrite (forallb_pointwise
             (fun t => check_ascii (xor_key_text target_key t))
             (fun t => forallb printable_byte (xor_key_text target_key t)))
    by (intros t; apply check_ascii_forallb).
  rewrite (forallb_pointwise
             (fun t => extra_strict_check (xor_key_text target_key t))
             (fun t => forallb (fun b => negb (forbidden_byte b))
                               (xor_key_text target_key t)))
    by (intros t; apply extra_strict_check_forallb).
  unfold byte_passes. destruct strict; cbn [negb orb].
  - rewrite (forallb_pointwise
               (fun t => forallb (fun b => printable_byte b
                                           && negb (forbidden_byte b))
                                 (xor_key_text target_key t))
               (fun t => forallb printable_byte (xor_key_text target_key t)
                         && forallb (fun b => negb (forbidden_byte b))
                                    (xor_key_text target_key t)))
      by (intros t; apply forallb_andb).
    rewrite forallb_andb.
    destruct (forallb _ text_list), (forallb _ text_list); reflexivity.
  - rewrite (forallb_pointwise
               (fun t => forallb (fun b => printable_byte b && true)
                                 (xor_key_text target_key t))
               (fun t => forallb printable_byte (xor_key_text target_key t)))
      by (intros t; apply forallb_pointwise; intros b; apply andb_true_r).
    reflexivity.
Qed.

(** ** [verify_substring_keys] and the order of the keys *)

Lemma consistent_perm (rel : bytes -> bytes -> Prop) (keys keys' : list bytes) :
  Permutation keys keys' -> consistent rel keys -> consistent rel keys'.
Proof.
  intros Hp (m & [Hin Hle] & Hrel). exists m. repeat split.
  - eapply Permutation_in; eassumption.
  - intros k Hk. apply Hle. eapply Permutation_in; [symmetry|]; eassumption.
  - intros k Hk. apply Hrel. eapply Permutation_in; [symmetry|]; eassumption.
Qed.

(** X7. The verdict of [verify_substring_keys] does not depend on the
    order in which the keys are listed. *)
Theorem verify_substring_keys_perm (keys keys' : list bytes) :
  Permutation keys keys' ->
  verify_substring_keys keys = verify_substring_keys keys'.
Proof.
  intros Hp.
  destruct (verify_substring_keys keys) eqn:E,
           (verify_substring_keys keys') eqn:E'; try reflexivity.
  - apply verify_substring_keys_spec, (consistent_perm _ _ _ Hp),
      verify_substring_keys_spec in E. congruence.
  - apply verify_substring_keys_spec, (consistent_perm _ _ _ (Permutation_sym Hp)),
      verify_substring_keys_spec in E'. congruence.
Qed.

Lemma verify_substring_keys_perm_witness :
  verify_substring_keys [bytes_of " the "; bytes_of "th"] =
  verify_substring_keys [bytes_of "th"; bytes_of " the "].
Proof.
  apply (verify_substring_keys_perm [bytes_of " the "; bytes_of "th"]
           [bytes_of "th"; bytes_of " the "]).
  apply perm_swap.
Defined.

(** ** More on [sort_with_frequencies] *)

Lemma py_sorted_sorted {A} (key : A -> Z) (l : list A) :
  StronglySorted (fun a b => (key b <= key a)%Z) l -> py_sorted key true l = l.
Proof.
  induction 1 as [|x l Hl IH Hx]; [reflexivity|].
  cbn [py_sorted fold_right]. fold (py_sorted key true l). rewrite IH.
  destruct l as [|y l']; [reflexivity|]. cbn [sorted_insert].
  rewrite Forall_forall in Hx.
  assert (Hy : (key y <= key x)%Z) by (apply Hx; left).
  apply Z.ltb_ge in Hy. rewrite Hy. reflexivity.
Qed.

Lemma strongly_sorted_map {A B} (f : A -> B) (R : B -> B -> Prop) (l : list A) :
  StronglySorted (fun a b => R (f a) (f b)) l -> StronglySorted R (map f l).
Proof.
  induction 1 as [|x l Hl IH Hx]; cbn; constructor; [exact IH|].
  rewrite Forall_map. exact Hx.
Qed.

Section Frequencies2.
Context {py : PyBuiltins}.
Variable self : WordFinder.

Lemma sort_with_frequencies_alt (ws : list str) :
  sort_with_frequencies self ws =
  map fst (py_sorted snd true
             (map (fun w => (w, word_freq self w))
                  (List.filter (fun w => negb (word_freq self w =? 0)%Z) ws))).
Proof.
  unfold sort_with_frequencies. cbv zeta. rewrite scored_words_map.
  reflexivity.
Qed.

Lemma sort_with_frequencies_perm (ws : list str) :
  Permutation (sort_with_frequencies self ws)
              (List.filter (fun w => negb (word_freq self w =? 0)%Z) ws).
Proof.
  rewrite sort_with_frequencies_alt, (py_sorted_perm snd true), map_map.
  cbn. rewrite map_id. reflexivity.
Qed.

Lemma sort_with_frequencies_sorted (ws : list str) :
  StronglySorted (fun a b => (word_freq self b <= word_freq self a)%Z)
                 (sort_with_frequencies self ws).
Proof.
  rewrite sort_with_frequencies_alt.
  apply strongly_sorted_map_fst; [|apply py_sorted_desc].
  intros p Hp. apply py_sorted_In in Hp. eapply scored_snd, Hp.
Qed.

Lemma filter_map_fst_scored (k : Z) (l : list (str * Z)) :
  (forall p, In p l -> p.2 = word_freq self p.1) ->
  List.filter (fun w => (word_freq self w =? k)%Z) (map fst l) =
  map fst (List.filter (fun p => (p.2 =? k)%Z) l).
Proof.
  induction l as [|p l IH]; intros Hl; [reflexivity|].
  cbn [map List.filter]. rewrite <- (Hl p (or_introl eq_refl)).
  rewrite IH by (intros q Hq; apply Hl; right; exact Hq).
  destruct (p.2 =? k)%Z; reflexivity.
Qed.

Lemma filter_map_scored (k : Z) (l : list str) :
  List.filter (fun p : str * Z => (p.2 =? k)%Z)
              (map (fun w => (w, word_freq self w)) l) =
  map (fun w => (w, word_freq self w))
      (List.filter (fun w => (word_freq self w =? k)%Z) l).
Proof.
  induction l as [|w l IH]; [reflexivity|]. cbn [map List.filter fst snd].
  rewrite IH. destruct (word_freq self w =? k)%Z; reflexivity.
Qed.

Lemma filter_filter_and {A} (f g : A -> bool) (l : list A) :
  List.filter f (List.filter g l) = List.filter (fun x => f x && g x) l.
Proof.
  induction l as [|x l IH]; [reflexivity|]. cbn.
  destruct (g x); cbn; rewrite IH; destruct (f x); reflexivity.
Qed.

(** X8. [sort_with_frequencies] is stable: the words of any one frequency
    come out in the order in which they were given. *)
Theorem sort_with_frequencies_stable (matching_words : list str) (k : Z) :
  List.filter (fun w => (word_freq self w =? k)%Z)
              (sort_with_frequencies self matching_words) =
  List.filter (fun w => (word_freq self w =? k)%Z
                        && negb (word_freq self w =? 0)%Z)
              matching_words.
Proof.
  rewrite sort_with_frequencies_alt.
  rewrite filter_map_fst_scored
    by (intros p Hp; apply py_sorted_In in Hp; eapply scored_snd, Hp).
  rewrite py_sorted_stable, filter_map_scored, map_map. cbn.
  rewrite map_id. apply filter_filter_and.
Qed.

Lemma filter_all {A} (f : A -> bool) (l : list A) :
  (forall x, In x l -> f x = true) -> List.filter f l = l.
Proof.
  induction l as [|x l IH]; intros H; [reflexivity|]. cbn.
  rewrite (H x (or_introl eq_refl)), IH; [reflexivity|].
  intros y Hy. apply H. right. exact Hy.
Qed.

(** X9. Ranking a ranked list again changes nothing. *)
Theorem sort_with_frequencies_idempotent (matching_words : list str) :
  sort_with_frequencies self (sort_with_frequencies self matching_words) =
  sort_with_frequencies self matching_words.
Proof.
  set (r := sort_with_frequencies self matching_words).
  rewrite (sort_with_frequencies_alt r).
  rewrite filter_all.
  - rewrite py_sorted_sorted.
    + rewrite map_map. cbn. apply map_id.
    + apply strongly_sorted_map with (f := fun w => (w, word_freq self w))
                                     (R := fun a b : str * Z => (b.2 <= a.2)%Z).
      apply sort_with_frequencies_sorted.
  - intros w Hw.
    apply (Permutation_in _ (sort_with_frequencies_perm matching_words)) in Hw.
    apply filter_In in Hw. tauto.
Qed.

End Frequencies2.

(** ** Splitting a completed sentence *)

Lemma split_go_trailing_space (s : str) (c : N) :
  py_isspace c = true -> split_go (s ++ [c]) = split_go s.
Proof.
  intros Hc. induction s as [|x s IH]; cbn.
  - rewrite Hc. reflexivity.
  - rewrite IH. reflexivity.
Qed.

Lemma split_go_trailing_space_split (s : str) (c : N) :
  py_isspace c = true -> str_split (s ++ [c]) = str_split s.
Proof.
  intros Hc. unfold str_split. rewrite split_go_trailing_space by exact Hc.
  reflexivity.
Qed.

Lemma split_go_word (w s : str) :
  Forall (fun c => py_isspace c = false) w ->
  split_go (w ++ s) = ((split_go s).1, w ++ (split_go s).2).
Proof.
  induction 1 as [|c w Hc _ IH]; cbn.
  - destruct (split_go s); reflexivity.
  - rewrite IH, Hc. reflexivity.
Qed.

Lemma str_split_leading_space (c : N) (s : str) :
  py_isspace c = true -> str_split (c :: s) = str_split s.
Proof.
  intros Hc. unfold str_split. cbn. destruct (split_go s) as [toks cur].
  rewrite Hc. reflexivity.
Qed.

Lemma str_split_token (w : str) : is_token w -> str_split w = [w].
Proof.
  intros [Hne Hw]. unfold str_split.
  rewrite <- (app_nil_r w) at 1. rewrite (split_go_word w [] Hw). cbn.
  rewrite app_nil_r. destruct w; [congruence|reflexivity].
Qed.

Lemma str_split_token_space (w s : str) (c : N) :
  is_token w -> py_isspace c = true ->
  str_split (w ++ c :: s) = w :: str_split s.
Proof.
  intros [Hne Hw] Hc. unfold str_split at 1.
  rewrite (split_go_word w (c :: s) Hw). cbn [split_go].
  fold (str_split s). unfold str_split.
  destruct (split_go s) as [toks cur]. rewrite Hc. cbn.
  rewrite app_nil_r. destruct w; [congruence|reflexivity].
Qed.

Lemma str_split_join_word (ws : list str) (word : str) :
  Forall is_token ws -> is_token word ->
  str_split (str_join [32] ws ++ 32 :: word) = ws ++ [word].
Proof.
  intros Hws Hword. induction Hws as [|w ws Hw Hws IH].
  - cbn [str_join app]. rewrite str_split_leading_space by reflexivity.
    apply str_split_token, Hword.
  - destruct ws as [|w' ws'].
    + cbn [str_join app]. rewrite str_split_token_space by (auto; reflexivity).
      rewrite str_split_token by exact Hword. reflexivity.
    + change (str_join [32] (w :: w' :: ws'))
        with (w ++ [32] ++ str_join [32] (w' :: ws')).
      rewrite <- !app_assoc. cbn [app].
      rewrite str_split_token_space by (auto; reflexivity).
      rewrite IH. reflexivity.
Qed.

Lemma split_go_tokens (s : str) :
  Forall is_token (split_go s).1 /\
  Forall (fun c => py_isspace c = false) (split_go s).2.
Proof.
  induction s as [|c s [IH1 IH2]]; cbn; [split; constructor|].
  destruct (split_go s) as [toks cur]. cbn in *.
  destruct (py_isspace c) eqn:Hc; cbn.
  - split; [|constructor]. destruct cur as [|x cur]; [exact IH1|].
    constructor; [|exact IH1]. split; [discriminate|exact IH2].
  - split; [exact IH1|]. constructor; assumption.
Qed.

Lemma str_split_tokens (s : str) : Forall is_token (str_split s).
Proof.
  destruct (split_go_tokens s) as [H1 H2]. unfold str_split.
  destruct (split_go s) as [toks cur]. cbn in *.
  destruct cur as [|x cur]; [exact H1|].
  constructor; [|exact H1]. split; [discriminate|exact H2].
Qed.

Lemma startswith_nonempty {A} `{EqDecision A} (w p : list A) :
  startswith w p = true -> p <> [] -> w <> [].
Proof. destruct p, w; cbn; congruence. Qed.

Section Resplit.
Context {py : PyBuiltins}.
Variable self : WordFinder.

(** X10. When no dictionary word holds white space, a sentence proposed by
    [match_sentence] differs from the decoded stream in its last word
    only: split again, it gives the words of the stream with the last one
    replaced by a dictionary word. *)
Theorem completion_replaces_last_word (sentence : bytes)
    (strict add_space : bool) (candidates : list str) (s : str) :
  Forall (Forall (fun c => py_isspace c = false)) (all_words self) ->
  match_sentence self sentence strict add_space = Some candidates ->
  In s candidates ->
  exists word,
    In word (all_words self) /\
    str_split s =
    removelast (str_split (utf8_decode_ignore sentence)) ++ [word].
Proof.
  intros Hdict Hm Hs.
  apply match_sentence_Some in Hm as (last_word & Hlast & ->).
  apply get_matching_words_In in Hs as (word & Hin & Hpre & ->).
  exists word. split; [exact Hin|].
  assert (Hword : Forall (fun c => py_isspace c = false) word).
  { rewrite Forall_forall in Hdict. apply Hdict, list_elem_of_In, Hin. }
  set (words := str_split (utf8_decode_ignore sentence)) in *.
  assert (Htok : Forall is_token words) by apply str_split_tokens.
  assert (Hlw : is_token last_word).
  { rewrite Forall_forall in Htok. apply Htok.
    apply last_Some in Hlast as [l' ->]. apply elem_of_app. right. left. }
  assert (Hw : is_token word).
  { split; [|exact Hword]. eapply startswith_nonempty; [exact Hpre|apply Hlw]. }
  assert (Hbase : Forall is_token (removelast words))
    by apply removelast_chars, Htok.
  destruct add_space.
  - rewrite !app_assoc, split_go_trailing_space_split by reflexivity.
    rewrite <- app_assoc. apply str_split_join_word; assumption.
  - rewrite app_nil_r. apply str_split_join_word; assumption.
Qed.

End Resplit.

Lemma completion_replaces_last_word_witness :
  exists word,
    In word (all_words small_corpus) /\
    str_split (str_of "a the ") =
    removelast (str_split (utf8_decode_ignore (bytes_of "a th"))) ++ [word].
Proof.
  apply (completion_replaces_last_word (py := ascii_builtins) small_corpus
           (bytes_of "a th") false true [str_of "a the "] (str_of "a the ")).
  - repeat constructor.
  - vm_compute. reflexivity.
  - left. reflexivity.
Defined.

(** ** [filter_streams] *)

Section FilterStreams.
Variable self : WordFinder.

Lemma filter_streams_valid_In (key_list text_list : list bytes) (strict : Z)
    (d k : bytes) :
  In (d, k)
     (flat_map (fun key =>
        flat_map (fun text =>
          if stream_ok self strict (xor_key_text key text)
          then [(xor_key_text key text, key)] else []) text_list) key_list)
  <->
  In k key_list /\
  exists t, In t text_list /\ d = xor_key_text k t /\
            stream_ok self strict d = true.
Proof.
  rewrite in_flat_map. split.
  - intros (key & Hkey & Hin). apply in_flat_map in Hin as (t & Ht & Hin).
    destruct (stream_ok self strict (xor_key_text key t)) eqn:E;
      [|destruct Hin].
    destruct Hin as [[= <- <-]|[]]. eauto.
  - intros (Hk & t & Ht & -> & Hok). exists k. split; [exact Hk|].
    apply in_flat_map. exists t. split; [exact Ht|]. rewrite Hok. left.
    reflexivity.
Qed.

Lemma Forall2_map_fst_snd {A B} (P : A -> B -> Prop) (l : list (A * B)) :
  (forall p, In p l -> P p.1 p.2) -> Forall2 P (map fst l) (map snd l).
Proof.
  induction l as [|p l IH]; intros H; cbn; constructor.
  - apply H. left. reflexivity.
  - apply IH. intros q Hq. apply H. right. exact Hq.
Qed.

(** X11. [filter_streams] returns its two lists in step: the i-th result
    is the i-th returned key applied to one of the texts, and passes the
    sentence check (and the punctuation check for strictness 2).  A key is
    returned exactly when it is one of the given keys and decodes at least
    one text to such a sentence. *)
Theorem filter_streams_in_step (key_list text_list : list bytes) (strict : Z) :
  Forall2 (fun decoded key =>
             In key key_list /\
             exists text, In text text_list /\
                          decoded = xor_key_text key text /\
                          stream_ok self strict decoded = true)
          (filter_streams self key_list text_list strict).1
          (filter_streams self key_list text_list strict).2
  /\ forall key,
       In key (filter_streams self key_list text_list strict).2 <->
       In key key_list /\
       exists text, In text text_list /\
                    stream_ok self strict (xor_key_text key text) = true.
Proof.
  unfold filter_streams. cbv zeta. cbn [fst snd]. split.
  - apply Forall2_map_fst_snd. intros [d k] Hp.
    apply filter_streams_valid_In in Hp. exact Hp.
  - intros key. rewrite in_map_iff. split.
    + intros ([d k] & <- & Hp). apply filter_streams_valid_In in Hp
        as (Hk & t & Ht & -> & Hok). eauto.
    + intros (Hk & t & Ht & Hok). exists (xor_key_text key t, key).
      split; [reflexivity|]. apply filter_streams_valid_In. eauto.
Qed.

End FilterStreams.

(** ** What the generator proposes *)

Lemma counter_keys_incr (k : bytes) (c : Counter) :
  counter_keys (counter_incr k c) =
  if bool_decide (k ∈ counter_keys c) then counter_keys c
  else counter_keys c ++ [k].
Proof.
  unfold counter_keys.
  induction c as [|[k0 n] c IH]; cbn; [reflexivity|].
  destruct (bool_decide (k = k0)) eqn:E.
  - apply bool_decide_eq_true in E as ->. cbn.
    rewrite bool_decide_eq_true_2 by left. reflexivity.
  - apply bool_decide_eq_false in E. cbn. rewrite IH.
    destruct (bool_decide (k ∈ map fst c)) eqn:E'.
    + apply bool_decide_eq_true in E'.
      rewrite bool_decide_eq_true_2 by (right; exact E'). reflexivity.
    + apply bool_decide_eq_false in E'.
      rewrite bool_decide_eq_false_2; [reflexivity|].
      rewrite elem_of_cons. intros [->|H]; [congruence|exact (E' H)].
Qed.

Lemma counter_keys_set (k : bytes) (v : Z) (c : Counter) :
  counter_keys (counter_set k v c) =
  if bool_decide (k ∈ counter_keys c) then counter_keys c
  else counter_keys c ++ [k].
Proof.
  unfold counter_keys.
  induction c as [|[k0 n] c IH]; cbn; [reflexivity|].
  destruct (bool_decide (k = k0)) eqn:E.
  - apply bool_decide_eq_true in E as ->. cbn.
    rewrite bool_decide_eq_true_2 by left. reflexivity.
  - apply bool_decide_eq_false in E. cbn. rewrite IH.
    destruct (bool_decide (k ∈ map fst c)) eqn:E'.
    + apply bool_decide_eq_true in E'.
      rewrite bool_decide_eq_true_2 by (right; exact E'). reflexivity.
    + apply bool_decide_eq_false in E'.
      rewrite bool_decide_eq_false_2; [reflexivity|].
      rewrite elem_of_cons. intros [->|H]; [congruence|exact (E' H)].
Qed.

Lemma NoDup_snoc_new {A} (l : list A) (x : A) :
  NoDup l -> x ∉ l -> NoDup (l ++ [x]).
Proof.
  intros Hl Hx. apply NoDup_app. repeat split.
  - exact Hl.
  - intros y Hy Hy'. apply list_elem_of_singleton in Hy' as ->. exact (Hx Hy).
  - apply NoDup_singleton.
Qed.

Lemma counter_incr_NoDup (k : bytes) (c : Counter) :
  NoDup (counter_keys c) -> NoDup (counter_keys (counter_incr k c)).
Proof.
  intros Hc. rewrite counter_keys_incr.
  destruct (bool_decide (k ∈ counter_keys c)) eqn:E; [exact Hc|].
  apply bool_decide_eq_false in E. apply NoDup_snoc_new; assumption.
Qed.

Lemma counter_update_NoDup (keys : list bytes) (c : Counter) :
  NoDup (counter_keys c) -> NoDup (counter_keys (counter_update c keys)).
Proof.
  unfold counter_update. revert c.
  induction keys as [|k keys IH]; intros c Hc; cbn; [exact Hc|].
  apply IH, counter_incr_NoDup, Hc.
Qed.

Lemma counter_set_NoDup (k : bytes) (v : Z) (c : Counter) :
  NoDup (counter_keys c) -> NoDup (counter_keys (counter_set k v c)).
Proof.
  intros Hc. rewrite counter_keys_set.
  destruct (bool_decide (k ∈ counter_keys c)) eqn:E; [exact Hc|].
  apply bool_decide_eq_false in E. apply NoDup_snoc_new; assumption.
Qed.

Lemma NoDup_List_filter {A} (f : A -> bool) (l : list A) :
  NoDup l -> NoDup (List.filter f l).
Proof.
  induction 1 as [|x l Hx Hl IH]; cbn; [constructor|].
  destruct (f x); [|exact IH]. constructor; [|exact IH].
  intros Hin. apply Hx. apply list_elem_of_In, filter_In in Hin as [Hin _].
  apply list_elem_of_In, Hin.
Qed.

Lemma NoDup_map_fst_filter {A B} (f : A * B -> bool) (l : list (A * B)) :
  NoDup (map fst l) -> NoDup (map fst (List.filter f l)).
Proof.
  induction l as [|p l IH]; cbn; [constructor|].
  intros Hnd. apply NoDup_cons in Hnd as [Hp Hl].
  destruct (f p); cbn; [|apply IH, Hl]. apply NoDup_cons. split; [|apply IH, Hl].
  intros Hin. apply Hp. apply list_elem_of_In, in_map_iff in Hin
    as (q & Hq & Hin).
  apply filter_In in Hin as [Hin _]. apply list_elem_of_In, in_map_iff.
  exists q. split; assumption.
Qed.

Lemma counter_keys_update_In (k : bytes) (keys : list bytes) (c : Counter) :
  In k (counter_keys (counter_update c keys)) <->
  In k (counter_keys c) \/ In k keys.
Proof.
  unfold counter_update. revert c.
  induction keys as [|k' keys IH]; intros c; cbn; [tauto|].
  rewrite IH, counter_keys_incr.
  destruct (bool_decide (k' ∈ counter_keys c)) eqn:E.
  - apply bool_decide_eq_true, list_elem_of_In in E. split; [tauto|].
    intros [H|[<-|H]]; tauto.
  - rewrite in_app_iff. cbn. tauto.
Qed.

Lemma counter_keys_set_In (k k' : bytes) (v : Z) (c : Counter) :
  In k (counter_keys (counter_set k' v c)) -> In k (counter_keys c) \/ k = k'.
Proof.
  rewrite counter_keys_set. destruct (bool_decide _); [tauto|].
  rewrite in_app_iff. cbn. intuition.
Qed.

Lemma counter_keys_del_In (k k' : bytes) (c : Counter) :
  In k (counter_keys (counter_del k' c)) -> In k (counter_keys c).
Proof.
  unfold counter_keys, counter_del. rewrite !in_map_iff.
  intros (p & Hp & Hin). apply filter_In in Hin as [Hin _]. eauto.
Qed.

Lemma xor_key_text_list_str_In (key : bytes) (sentences : list str)
    (ks : list bytes) (k : bytes) :
  xor_key_text_list_str key sentences = Return ks -> In k ks ->
  exists sentence e,
    In sentence sentences /\ utf8_encode sentence = Some e /\
    k = xor_key_text key e.
Proof.
  revert ks. induction sentences as [|s l IH]; intros ks; cbn.
  - intros [= <-] [].
  - unfold xor_key_text_str. destruct (utf8_encode s) as [e|] eqn:E; cbn;
      [|discriminate].
    destruct (xor_key_text_list_str key l) as [ks'|]; cbn; [|discriminate].
    intros [= <-] [<-|Hk].
    + exists s, e. auto.
    + destruct (IH ks' eq_refl Hk) as (s' & e' & Hs' & He' & ->).
      exists s', e'. auto.
Qed.

Section Proposals.
Context {py : PyBuiltins}.
Variable self : WordFinder.

Lemma count_keys_NoDup (filtered : list bytes) (strict : Z) (add_space : bool)
    (streams : list bytes) :
  forall i c c',
    count_keys self filtered strict add_space i streams c = Return c' ->
    NoDup (counter_keys c) -> NoDup (counter_keys c').
Proof.
  induction streams as [|stream rest IH]; intros i c c'; cbn [count_keys].
  - intros [= <-]. auto.
  - destruct (match_sentence self stream false add_space) as [[|s ms]|];
      try apply IH.
    destruct (filtered !! i) as [text_i|]; [|discriminate].
    destruct (xor_key_text_list_str text_i (s :: ms)) as [ks|]; cbn [obind];
      [|discriminate].
    destruct (filter_streams self ks filtered strict) as [results new_keys].
    intros Hc Hnd. eapply IH; [exact Hc|]. apply counter_update_NoDup, Hnd.
Qed.

(** The keys the loop adds to the tally are guessed keys that decode some
    filtered text to an accepted sentence. *)
Lemma count_keys_In (filtered : list bytes) (strict : Z) (add_space : bool)
    (streams : list bytes) (k : bytes) :
  forall i c c',
    count_keys self filtered strict add_space i streams c = Return c' ->
    In k (counter_keys c') ->
    In k (counter_keys c) \/
    (In k (guessed_keys self filtered add_space i streams) /\
     exists t, In t filtered /\
               stream_ok self strict (xor_key_text k t) = true).
Proof.
  induction streams as [|stream rest IH]; intros i c c';
    cbn [count_keys guessed_keys].
  - intros [= <-]. auto.
  - destruct (match_sentence self stream false add_space) as [[|s ms]|];
      try (intros Hc Hk; destruct (IH _ _ _ Hc Hk) as [?|[? ?]]; auto).
    destruct (filtered !! i) as [text_i|]; [|discriminate].
    destruct (xor_key_text_list_str text_i (s :: ms)) as [ks|]; cbn [obind];
      [|discriminate].
    destruct (filter_streams self ks filtered strict) as [results new_keys]
      eqn:F.
    intros Hc Hk. destruct (IH _ _ _ Hc Hk) as [Hin|[Hg Ht]].
    + apply counter_keys_update_In in Hin as [Hin|Hin]; [auto|].
      right. assert (new_keys = (filter_streams self ks filtered strict).2)
        as -> by (rewrite F; reflexivity).
      unfold filter_streams in Hin. cbn [snd] in Hin.
      apply in_map_iff in Hin as ([d k'] & Hk' & Hin). cbn in Hk'. subst k'.
      apply filter_streams_valid_In in Hin as (Hks & t & Ht & -> & Hok).
      split; [apply in_or_app; left; exact Hks|eauto].
    + right. split; [apply in_or_app; right; exact Hg|exact Ht].
Qed.

(** The guessed keys are the ciphertexts XOR-ed with the completions of
    their decoded streams. *)
Lemma guessed_keys_In (filtered : list bytes) (add_space : bool)
    (streams : list bytes) (k : bytes) :
  forall i,
    In k (guessed_keys self filtered add_space i streams) ->
    exists j stream text sentences sentence e,
      streams !! j = Some stream /\ filtered !! (i + j)%nat = Some text /\
      match_sentence self stream false add_space = Some sentences /\
      In sentence sentences /\ utf8_encode sentence = Some e /\
      k = xor_key_text text e.
Proof.
  induction streams as [|stream rest IH]; intros i; cbn [guessed_keys];
    [intros []|].
  intros Hk. apply in_app_or in Hk as [Hk|Hk].
  - destruct (match_sentence self stream false add_space) as [[|s ms]|] eqn:Em;
      try destruct Hk.
    destruct (filtered !! i) as [text_i|] eqn:Ei; [|destruct Hk].
    destruct (xor_key_text_list_str text_i (s :: ms)) as [ks|] eqn:Ex;
      [|destruct Hk].
    destruct (xor_key_text_list_str_In _ _ _ _ Ex Hk)
      as (sentence & e & Hs & He & ->).
    exists 0%nat, stream, text_i, (s :: ms), sentence, e.
    rewrite Nat.add_0_r. auto 10.
  - destruct (IH _ Hk) as (j & st & text & ss & sentence & e
                           & Hj & Hf & Hm & Hs & He & ->).
    exists (S j), st, text, ss, sentence, e.
    rewrite Nat.add_succ_r. auto 10.
Qed.

(** What a result of the generator holds, traced back into its run. *)
Lemma result_keys_survive (target_key : bytes) (target_texts : list bytes)
    (strict_filter : Z) (add_space : bool) (r : keys_result) (k : bytes) :
  identify_potential_keys self target_key target_texts strict_filter add_space
  = Return r ->
  In k (result_keys r) ->
  exists streams counted,
    check_potential_stream target_key (longer_than target_key target_texts)
                           (negb (strict_filter =? 0)%Z) = Some streams /\
    count_keys self (longer_than target_key target_texts) strict_filter
               add_space 0 streams [] = Return counted /\
    In k (surviving_keys (longer_than target_key target_texts) strict_filter
            (drop_target_key target_key strict_filter counted)).
Proof.
  unfold identify_potential_keys. cbv zeta. intros Hr Hk.
  destruct (check_potential_stream _ _ _) as [streams|];
    [|injection Hr as <-; destruct Hk].
  destruct (count_keys _ _ _ _ _ _ _) as [counted|] eqn:Ec;
    [|discriminate Hr].
  cbn [obind] in Hr. exists streams, counted.
  split; [reflexivity|]. split; [exact Ec|].
  destruct (verify_substring_keys _).
  - destruct (py_sorted len true _) as [|key rest] eqn:E; [discriminate Hr|].
    injection Hr as <-. destruct Hk as [<-|[]].
    apply (py_sorted_In len true). rewrite E. left. reflexivity.
  - injection Hr as <-. exact Hk.
Qed.

(** X12. Every key the generator proposes decodes every filtered
    ciphertext (of which there is at least one) to printable ASCII, and to
    text without forbidden punctuation when the strictness is not 0. *)
Theorem proposed_keys_decode_cleanly (target_key : bytes)
    (target_texts : list bytes) (strict_filter : Z) (add_space : bool)
    (r : keys_result) (k : bytes) :
  identify_potential_keys self target_key target_texts strict_filter add_space
  = Return r ->
  In k (result_keys r) ->
  longer_than target_key target_texts <> [] /\
  Forall (fun text =>
            check_ascii (xor_key_text k text) = true /\
            (strict_filter <> 0%Z ->
             extra_strict_check (xor_key_text k text) = true))
         (longer_than target_key target_texts).
Proof.
  intros Hr Hk.
  destruct (result_keys_survive _ _ _ _ _ _ Hr Hk)
    as (streams & counted & _ & _ & Hs).
  unfold surviving_keys in Hs. apply filter_In in Hs as [_ Ht].
  unfold check_potential_stream, xor_key_text_list in Ht. cbv zeta in Ht.
  set (filtered := longer_than target_key target_texts) in *.
  destruct (forallb check_ascii _) eqn:Ea; [|discriminate Ht].
  assert (Hs : (strict_filter <> 0%Z ->
                forallb extra_strict_check
                        (map (fun t => xor_key_text k t) filtered) = true)
               /\ filtered <> []).
  { destruct (strict_filter =? 0)%Z eqn:Ez; cbn [negb] in Ht.
    - apply Z.eqb_eq in Ez. split; [congruence|].
      destruct filtered; [discriminate Ht|discriminate].
    - destruct (forallb extra_strict_check _); [|discriminate Ht].
      split; [reflexivity|].
      destruct filtered; [discriminate Ht|discriminate]. }
  destruct Hs as [Hs Hne]. split; [exact Hne|].
  rewrite Forall_forall. intros t Ht'. apply list_elem_of_In in Ht'.
  rewrite forallb_forall in Ea. split.
  - apply Ea, in_map, Ht'.
  - intros Hnz. specialize (Hs Hnz). rewrite forallb_forall in Hs.
    apply Hs. apply (in_map (fun t => xor_key_text k t)), Ht'.
Qed.

(** X13. The generator never proposes a key twice: a list it returns has
    no duplicates. *)
Theorem proposed_keys_distinct (target_key : bytes)
    (target_texts : list bytes) (strict_filter : Z) (add_space : bool)
    (r : keys_result) :
  identify_potential_keys self target_key target_texts strict_filter add_space
  = Return r ->
  NoDup (result_keys r).
Proof.
  unfold identify_potential_keys. cbv zeta. intros Hr.
  destruct (check_potential_stream _ _ _) as [streams|];
    [|injection Hr as <-; constructor].
  destruct (count_keys _ _ _ _ _ _ _) as [counted|] eqn:Ec;
    [|discriminate Hr].
  cbn [obind] in Hr.
  assert (Hnd : NoDup (surviving_keys (longer_than target_key target_texts)
                         strict_filter
                         (drop_target_key target_key strict_filter counted))).
  { unfold surviving_keys. apply NoDup_List_filter.
    unfold drop_target_key.
    pose proof (counter_set_NoDup target_key 0
                  counted (count_keys_NoDup _ _ _ _ _ _ _ Ec (NoDup_nil_2 (A := bytes))))
      as Hset.
    destruct (_ && _); [|exact Hset].
    unfold counter_del, counter_keys. apply NoDup_map_fst_filter, Hset. }
  destruct (verify_substring_keys _).
  - destruct (py_sorted len true _) as [|key rest]; [discriminate Hr|].
    injection Hr as <-. apply NoDup_singleton.
  - injection Hr as <-. exact Hnd.
Qed.

(** X14. Every key the generator proposes, the current key apart, is one
    of the filtered ciphertexts XOR-ed with a completion of its stream (the
    ciphertext decoded with the current key), and decodes at least one
    filtered ciphertext to an accepted sentence. *)
Theorem proposed_keys_come_from_completions (target_key : bytes)
    (target_texts : list bytes) (strict_filter : Z) (add_space : bool)
    (r : keys_result) (k : bytes) :
  identify_potential_keys self target_key target_texts strict_filter add_space
  = Return r ->
  In k (result_keys r) ->
  k <> target_key ->
  (exists text sentences sentence e,
      In text (longer_than target_key target_texts) /\
      match_sentence self (xor_key_text target_key text) false add_space
      = Some sentences /\
      In sentence sentences /\ utf8_encode sentence = Some e /\
      k = xor_key_text text e) /\
  (exists text,
      In text (longer_than target_key target_texts) /\
      stream_ok self strict_filter (xor_key_text k text) = true).
Proof.
  intros Hr Hk Hne.
  destruct (result_keys_survive _ _ _ _ _ _ Hr Hk)
    as (streams & counted & Hc & Hcount & Hs).
  set (filtered := longer_than target_key target_texts) in *.
  assert (Hstreams : streams = xor_key_text_list target_key filtered).
  { unfold check_potential_stream in Hc. cbv zeta in Hc.
    destruct (forallb check_ascii _); [|discriminate Hc].
    destruct (negb _); [destruct (forallb extra_strict_check _)|];
      congruence. }
  unfold surviving_keys in Hs. apply filter_In in Hs as [Hs _].
  assert (Hin : In k (counter_keys counted)).
  { unfold drop_target_key in Hs. destruct (_ && _).
    - apply counter_keys_del_In, counter_keys_set_In in Hs as [Hs|Hs];
        [exact Hs|congruence].
    - apply counter_keys_set_In in Hs as [Hs|Hs]; [exact Hs|congruence]. }
  destruct (count_keys_In _ _ _ _ _ _ _ _ Hcount Hin) as [[]|[Hg Ht]].
  split; [|exact Ht].
  destruct (guessed_keys_In _ _ _ _ _ Hg)
    as (j & stream & text & ss & sentence & e & Hj & Hf & Hm & Hsn & He & ->).
  cbn in Hf. exists text, ss, sentence, e.
  assert (Hst : stream = xor_key_text target_key text).
  { rewrite Hstreams in Hj. unfold xor_key_text_list in Hj.
    rewrite list_lookup_fmap, Hf in Hj. cbn in Hj. congruence. }
  subst stream. repeat split; try assumption.
  apply list_elem_of_In, list_elem_of_lookup. eauto.
Qed.

(** X15. When no ciphertext is longer than the current key, the generator
    returns the empty list, whatever the strictness. *)
Theorem generator_without_longer_texts (target_key : bytes)
    (target_texts : list bytes) (strict_filter : Z) (add_space : bool) :
  longer_than target_key target_texts = [] ->
  identify_potential_keys self target_key target_texts strict_filter add_space
  = Return (KeyList []).
Proof.
  intros He. unfold identify_potential_keys. cbv zeta. rewrite He.
  assert (Hc : forall key strict, check_potential_stream key [] strict = Some [])
    by (intros key []; reflexivity).
  rewrite Hc. cbn [count_keys obind].
  assert (Hs : surviving_keys [] strict_filter
                 (drop_target_key target_key strict_filter []) = []).
  { unfold surviving_keys.
    induction (counter_keys _) as [|x l IH]; [reflexivity|].
    cbn [List.filter]. rewrite Hc. exact IH. }
  rewrite Hs. reflexivity.
Qed.

End Proposals.

Lemma proposed_keys_decode_cleanly_witness :
  longer_than (bytes_of "th") [six_zeros; cat_text] <> [] /\
  Forall (fun text =>
            check_ascii (xor_key_text (bytes_of "7jat ") text) = true /\
            (2%Z <> 0%Z ->
             extra_strict_check (xor_key_text (bytes_of "7jat ") text) = true))
         (longer_than (bytes_of "th") [six_zeros; cat_text]).
Proof.
  apply (proposed_keys_decode_cleanly (py := ascii_builtins) small_corpus
           (bytes_of "th") [six_zeros; cat_text] 2 true
           (KeyList [bytes_of " the "; bytes_of "7jat "; bytes_of "th"])).
  - vm_compute. reflexivity.
  - right. left. reflexivity.
Defined.

Lemma proposed_keys_distinct_witness :
  NoDup (result_keys
           (KeyList [bytes_of " the "; bytes_of "7jat "; bytes_of "th"])).
Proof.
  apply (proposed_keys_distinct (py := ascii_builtins) small_corpus
           (bytes_of "th") [six_zeros; cat_text] 2 true).
  vm_compute. reflexivity.
Defined.

Lemma proposed_keys_come_from_completions_witness :
  (exists text sentences sentence e,
      In text (longer_than (bytes_of "th") [six_zeros; cat_text]) /\
      match_sentence (py := ascii_builtins) small_corpus
        (xor_key_text (bytes_of "th") text) false true = Some sentences /\
      In sentence sentences /\ utf8_encode sentence = Some e /\
      bytes_of "7jat " = xor_key_text text e) /\
  (exists text,
      In text (longer_than (bytes_of "th") [six_zeros; cat_text]) /\
      stream_ok small_corpus 2 (xor_key_text (bytes_of "7jat ") text) = true).
Proof.
  apply (proposed_keys_come_from_completions (py := ascii_builtins)
           small_corpus (bytes_of "th") [six_zeros; cat_text] 2 true
           (KeyList [bytes_of " the "; bytes_of "7jat "; bytes_of "th"])).
  - vm_compute. reflexivity.
  - right. left. reflexivity.
  - discriminate.
Defined.

Lemma generator_without_longer_texts_witness :
  identify_potential_keys (py := ascii_builtins) small_corpus
    (bytes_of "hello") [two_zeros; bytes_of "hi"] 2 true
  = Return (KeyList []).
Proof.
  apply (generator_without_longer_texts (py := ascii_builtins) small_corpus
           (bytes_of "hello") [two_zeros; bytes_of "hi"] 2 true).
  reflexivity.
Defined.

(** ** Words with known characters *)

Lemma py_index_in_range {A} (l : list A) (idx : Z) :
  index_in_range (length l) idx -> is_Some (py_index l idx).
Proof.
  unfold index_in_range, py_index, len. intros [Hlo Hhi].
  destruct (0 <=? idx)%Z eqn:E.
  - apply Z.leb_le in E. apply lookup_lt_is_Some. lia.
  - apply Z.leb_gt in E. destruct (_ <=? idx)%Z eqn:E'.
    + apply lookup_lt_is_Some. lia.
    + apply Z.leb_gt in E'. lia.
Qed.

Lemma py_index_out_of_range {A} (l : list A) (idx : Z) :
  ~ index_in_range (length l) idx -> py_index l idx = None.
Proof.
  unfold index_in_range, py_index, len. intros Hout.
  destruct (0 <=? idx)%Z eqn:E.
  - apply Z.leb_le in E. apply lookup_ge_None. lia.
  - apply Z.leb_gt in E. destruct (_ <=? idx)%Z eqn:E'; [|reflexivity].
    apply Z.leb_le in E'. lia.
Qed.

Lemma agree_at_in_range (word target : str) (indices : list Z) :
  length word = length target ->
  Forall (index_in_range (length target)) indices ->
  agree_at word target indices =
  Return (forallb (fun idx => bool_decide (py_index word idx
                                           = py_index target idx)) indices).
Proof.
  intros Hlen. induction 1 as [|idx rest Hidx _ IH]; [reflexivity|].
  cbn [agree_at forallb].
  destruct (py_index_in_range target idx Hidx) as [b Hb].
  rewrite <- Hlen in Hidx.
  destruct (py_index_in_range word idx Hidx) as [a Ha].
  rewrite Ha, Hb. destruct (bool_decide (a = b)) eqn:E.
  - apply bool_decide_eq_true in E as ->.
    rewrite bool_decide_eq_true_2 by reflexivity. exact IH.
  - apply bool_decide_eq_false in E.
    rewrite bool_decide_eq_false_2 by congruence. reflexivity.
Qed.

Lemma len_eqb_length {A B} (l : list A) (l' : list B) :
  (len l =? len l')%Z = (length l =? length l')%nat.
Proof.
  unfold len. destruct (length l =? length l')%nat eqn:E.
  - apply Nat.eqb_eq in E. rewrite E. apply Z.eqb_refl.
  - apply Nat.eqb_neq in E. apply Z.eqb_neq. lia.
Qed.

(** X16. When the indices are given as a sequence that can be read more
    than once (a list, a tuple, a range) and every index lies within the
    target, counted from either end,
    [get_matching_words_with_known_index_and_plaintext] raises nothing and
    returns, in dictionary order, exactly the words that have the length
    of the target and its character at each index.  (An iterator is used
    up by the tests of the first words, and is not covered.) *)
Theorem known_index_words_in_range (self : WordFinder) (target : str)
    (indices : list Z) :
  Forall (index_in_range (length target)) indices ->
  get_matching_words_with_known_index_and_plaintext self target
    (Sequence indices) =
  Return (List.filter (agrees_with target indices) (all_words self)).
Proof.
  intros Hidx. unfold get_matching_words_with_known_index_and_plaintext.
  induction (all_words self) as [|word rest IH]; [reflexivity|].
  cbn [words_agreeing List.filter]. rewrite IH, len_eqb_length.
  assert (Ha : agrees_with target indices word =
               (length word =? length target)%nat
               && forallb (fun idx => bool_decide (py_index word idx
                                                   = py_index target idx))
                          indices) by reflexivity.
  rewrite Ha.
  destruct (length word =? length target)%nat eqn:E; cbn [andb obind].
  - apply Nat.eqb_eq in E. rewrite (agree_at_in_range _ _ _ E Hidx).
    cbn [obind]. reflexivity.
  - reflexivity.
Qed.

Lemma known_index_words_in_range_witness :
  get_matching_words_with_known_index_and_plaintext small_corpus
    (str_of "t?e") (Sequence [0%Z; (-1)%Z])
  = Return [str_of "the"].
Proof.
  apply (known_index_words_in_range small_corpus (str_of "t?e")
           [0%Z; (-1)%Z]).
  repeat constructor; cbn; lia.
Defined.

(** X17. When the first index, of a sequence or of an iterator, lies
    outside the target, the call raises [IndexError] if the dictionary has
    a word of the target's length, and returns the empty list if it has
    none: the index is only looked at for words of that length. *)
Theorem known_index_words_out_of_range (self : WordFinder) (target : str)
    (indices : iterable) (idx : Z) (rest : list Z) :
  items_of indices = idx :: rest ->
  ~ index_in_range (length target) idx ->
  get_matching_words_with_known_index_and_plaintext self target indices =
  if existsb (fun word => (length word =? length target)%nat) (all_words self)
  then Raise Exception
  else Return [].
Proof.
  intros Hitems Hout.
  unfold get_matching_words_with_known_index_and_plaintext.
  destruct indices as [items|items]; cbn [items_of] in Hitems; subst items.
  - induction (all_words self) as [|word words IH]; [reflexivity|].
    cbn [words_agreeing existsb]. rewrite len_eqb_length.
    destruct (length word =? length target)%nat eqn:E; cbn [orb].
    + apply Nat.eqb_eq in E. cbn [agree_at].
      rewrite <- E in Hout. rewrite (py_index_out_of_range word idx Hout).
      reflexivity.
    + cbn [obind]. rewrite IH. destruct (existsb _ words); reflexivity.
  - induction (all_words self) as [|word words IH]; [reflexivity|].
    cbn [words_agreeing_once existsb]. rewrite len_eqb_length.
    destruct (length word =? length target)%nat eqn:E; cbn [orb].
    + apply Nat.eqb_eq in E. cbn [agree_at_rest].
      rewrite <- E in Hout. rewrite (py_index_out_of_range word idx Hout).
      reflexivity.
    + exact IH.
Qed.

Lemma known_index_words_out_of_range_witness :
  get_matching_words_with_known_index_and_plaintext small_corpus
    (str_of "the") (Iterator [3%Z])
  = Raise Exception.
Proof.
  apply (known_index_words_out_of_range small_corpus (str_of "the")
           (Iterator [3%Z]) 3%Z []).
  - reflexivity.
  - unfold index_in_range. cbn. lia.
Defined.

(** ** The prompts of the session *)

Lemma py_index_In {A} (l : list A) (i : Z) (x : A) :
  py_index l i = Some x -> In x l.
Proof.
  unfold py_index. intros H. apply list_elem_of_In.
  destruct (0 <=? i)%Z; [eapply list_elem_of_lookup_2, H|].
  destruct (_ <=? i)%Z; [eapply list_elem_of_lookup_2, H|discriminate].
Qed.

Lemma py_max_len_longest (keys : list bytes) (m : bytes) :
  py_max len keys = Some m -> longest_in m keys.
Proof.
  unfold longest_in, len. revert m.
  induction keys as [|x keys IH]; intros m; cbn; [discriminate|].
  destruct (py_max _ keys) as [m'|] eqn:E.
  - destruct (IH m' eq_refl) as [Hin Hle].
    destruct (Z.of_nat (length x) <? Z.of_nat (length m'))%Z eqn:C;
      intros [= <-].
    + apply Z.ltb_lt in C. split; [right; exact Hin|].
      intros k [<-|Hk]; [lia|apply Hle, Hk].
    + apply Z.ltb_ge in C. split; [left; reflexivity|].
      intros k [<-|Hk]; [lia|]. specialize (Hle k Hk). lia.
  - intros [= <-]. destruct keys as [|y keys].
    + split; [left; reflexivity|]. intros k [<-|[]]. lia.
    + cbn in E. destruct (py_max _ keys); [destruct (_ <? _)%Z|];
        discriminate E.
Qed.

Section Prompts.
Context {py : PyBuiltins}.

(** What [check_new_target_keys] can return. *)
Lemma check_new_target_keys_inv (new_target_keys set_text : list bytes)
    (w w' : world) (r : keys_result) :
  check_new_target_keys new_target_keys set_text w = (Return r, w') ->
  exists m,
    py_max len new_target_keys = Some m /\
    ((exists key,
         r = SingleKey key /\
         In key (List.filter (fun x => (len x =? len m)%Z) new_target_keys)) \/
     r = KeyList
           (List.filter
              (fun x => negb (bool_decide
                                (x ∈ List.filter
                                       (fun x => (len x =? len m)%Z)
                                       new_target_keys)))
              new_target_keys)).
Proof.
  unfold check_new_target_keys. cbv zeta.
  unfold bind, lift_option, try_except, input, ret, raise.
  destruct (py_max len new_target_keys) as [m|] eqn:Emax; [|discriminate].
  destruct (emit_all _ w) as [[u|e] w1]; [|discriminate].
  remember (List.filter (fun x => (len x =? len m)%Z) new_target_keys)
    as small_keys eqn:Hsk.
  intros Hr. exists m. split; [reflexivity|]. rewrite <- Hsk.
  assert (Hm : In m small_keys).
  { rewrite Hsk. apply filter_In.
    split; [eapply py_max_In, Emax|apply Z.eqb_refl]. }
  clear Hsk.
  destruct (replies w1) as [|[result|] rest]; cbn in Hr.
  - discriminate Hr.
  - destruct (match result with [] => false | _ => _ end).
    + cbn in Hr. destruct rest as [|[line|] rest']; cbn in Hr.
      * discriminate Hr.
      * destruct (py_int line) as [idx|]; cbn in Hr; [|discriminate Hr].
        destruct (py_index small_keys idx) as [key|] eqn:Ek; cbn in Hr;
          [|discriminate Hr].
        injection Hr as <- <-. left. exists key. split; [reflexivity|].
        eapply py_index_In, Ek.
      * destruct small_keys as [|key sk]; [destruct Hm|].
        injection Hr as <- <-. left. exists key. split; [reflexivity|].
        left. reflexivity.
    + injection Hr as <- <-. right. reflexivity.
  - destruct small_keys as [|key sk]; [destruct Hm|].
    injection Hr as <- <-. left. exists key. split; [reflexivity|].
    left. reflexivity.
Qed.

(** X18. The oracle can only pick one of the longest candidates:
    [check_new_target_keys] returns either a candidate of the greatest
    length, or, when the oracle turns them all down, exactly the candidates
    that are shorter than that. *)
Theorem oracle_picks_among_longest (new_target_keys set_text : list bytes)
    (w w' : world) (r : keys_result) :
  check_new_target_keys new_target_keys set_text w = (Return r, w') ->
  match r with
  | SingleKey key => longest_in key new_target_keys
  | KeyList keys =>
    exists m,
      longest_in m new_target_keys /\
      keys = List.filter (fun x => (length x <? length m)%nat) new_target_keys
  end.
Proof.
  intros Hr. apply check_new_target_keys_inv in Hr as (m & Hmax & Hr).
  apply py_max_len_longest in Hmax as [Hin Hle]. unfold longest_in.
  destruct Hr as [(key & -> & Hk)| ->].
  - apply filter_In in Hk as [Hk Hlen]. apply Z.eqb_eq in Hlen.
    unfold len in Hlen. split; [exact Hk|].
    intros k Hk'. specialize (Hle k Hk'). lia.
  - exists m. split; [split; assumption|].
    apply filter_ext_in. intros x Hx. specialize (Hle x Hx).
    destruct (length x <? length m)%nat eqn:E.
    + apply Nat.ltb_lt in E. apply negb_true_iff, bool_decide_eq_false.
      intros Hs. apply list_elem_of_In, filter_In in Hs as [_ Hs].
      apply Z.eqb_eq in Hs. unfold len in Hs. lia.
    + apply Nat.ltb_ge in E. apply negb_false_iff, bool_decide_eq_true.
      apply list_elem_of_In, filter_In. split; [exact Hx|].
      apply Z.eqb_eq. unfold len. lia.
Qed.



End Prompts.

Lemma oracle_picks_among_longest_witness :
  longest_in (bytes_of "de") [bytes_of "a"; bytes_of "bc"; bytes_of "de"].
Proof.
  apply (oracle_picks_among_longest (py := ascii_builtins)
           [bytes_of "a"; bytes_of "bc"; bytes_of "de"] [six_zeros]
           {| replies := [Line (str_of "yes"); Line (str_of "1")];
              trace := [] |}
           {| replies := [];
              trace := [Decode Candidates (bytes_of "bc") [six_zeros];
                        Decode Candidates (bytes_of "de") [six_zeros]] |}
           (SingleKey (bytes_of "de"))).
  vm_compute. reflexivity.
Defined.


(** ** The cleaning step *)

Lemma enumerate_filter_snd {A} (q : A -> bool) (l : list A) (n : nat) :
  map snd (List.filter (fun ix : nat * A => q ix.2)
                       (combine (seq n (length l)) l))
  = List.filter q l.
Proof.
  revert n. induction l as [|x l IH]; intros n; [reflexivity|].
  cbn. destruct (q x); cbn; rewrite IH; reflexivity.
Qed.

Lemma enumerate_map_fst_filter {A B} (f : A -> B) (p : B -> bool)
    (l : list A) (n : nat) :
  map fst (List.filter (fun io : nat * B => p io.2)
                       (combine (seq n (length (map f l))) (map f l)))
  = map fst (List.filter (fun ix : nat * A => p (f ix.2))
                         (combine (seq n (length l)) l)).
Proof.
  revert n. induction l as [|x l IH]; intros n; [reflexivity|].
  cbn. destruct (p (f x)); cbn; rewrite IH; reflexivity.
Qed.

Lemma enumerate_lookup {A} (l : list A) (n i : nat) (x : A) :
  In (i, x) (combine (seq n (length l)) l) <->
  (n <= i)%nat /\ l !! (i - n)%nat = Some x.
Proof.
  revert n. induction l as [|y l IH]; intros n; cbn.
  - split; [intros []|intros [_ H]; discriminate H].
  - rewrite IH. split.
    + intros [[= <- <-]|[Hle Hx]].
      * split; [lia|]. rewrite Nat.sub_diag. reflexivity.
      * split; [lia|]. replace (i - n)%nat with (S (i - S n)) by lia.
        exact Hx.
    + intros [Hle Hx]. destruct (decide (i = n)) as [->|Hne].
      * left. rewrite Nat.sub_diag in Hx. cbn in Hx. congruence.
      * right. split; [lia|].
        replace (i - n)%nat with (S (i - S n)) in Hx by lia. exact Hx.
Qed.

Lemma enumerate_omap_lookup {A} (q : A -> bool) (l0 l : list A) (n : nat) :
  (forall j x, l !! j = Some x -> l0 !! (n + j)%nat = Some x) ->
  omap (fun i => l0 !! i)
       (map fst (List.filter (fun ix : nat * A => q ix.2)
                             (combine (seq n (length l)) l)))
  = List.filter q l.
Proof.
  revert n. induction l as [|x l IH]; intros n H; [reflexivity|].
  assert (Hl : forall j y, l !! j = Some y -> l0 !! (S n + j)%nat = Some y).
  { intros j y Hy. replace (S n + j)%nat with (n + S j)%nat by lia.
    apply H. exact Hy. }
  cbn. destruct (q x); cbn.
  - specialize (H 0%nat x eq_refl). rewrite Nat.add_0_r in H. rewrite H.
    f_equal. apply IH, Hl.
  - apply IH, Hl.
Qed.

(** The indices [get_invalid_idxs] reports for the decodings with [key]
    are those of the texts that do not decode clean. *)
Lemma get_invalid_idxs_spec (key : bytes) (set_text : list bytes) :
  get_invalid_idxs (xor_key_text_list key set_text)
  = map fst (List.filter (fun ix : nat * bytes => negb (decodes_clean key ix.2))
                         (enumerate set_text)).
Proof.
  unfold get_invalid_idxs, xor_key_text_list, enumerate.
  rewrite (enumerate_map_fst_filter (fun t => xor_key_text key t)
             (fun o => negb (check_ascii o) || negb (extra_strict_check o))).
  f_equal. apply filter_ext. intros [i t]. unfold decodes_clean. cbn.
  symmetry. apply negb_andb.
Qed.

Lemma removed_texts_spec (key : bytes) (set_text : list bytes) :
  omap (fun i => set_text !! i)
       (get_invalid_idxs (xor_key_text_list key set_text))
  = List.filter (fun t => negb (decodes_clean key t)) set_text.
Proof.
  rewrite get_invalid_idxs_spec. unfold enumerate.
  apply (enumerate_omap_lookup (fun t => negb (decodes_clean key t))).
  intros j x Hx. exact Hx.
Qed.

Lemma kept_texts_spec (key : bytes) (set_text : list bytes) :
  map snd
      (List.filter
         (fun ix : nat * bytes =>
            negb (bool_decide
                    (ix.1 ∈ get_invalid_idxs (xor_key_text_list key set_text))))
         (enumerate set_text))
  = List.filter (decodes_clean key) set_text.
Proof.
  rewrite <- (enumerate_filter_snd (decodes_clean key) set_text 0).
  f_equal. apply filter_ext_in. intros [i t] Hit. cbn [fst snd].
  rewrite get_invalid_idxs_spec.
  destruct (decodes_clean key t) eqn:Ec.
  - apply negb_true_iff, bool_decide_eq_false. intros Hin.
    apply list_elem_of_In, in_map_iff in Hin as ([i' t'] & Hi & Hin).
    cbn in Hi. subst i'. apply filter_In in Hin as [Hin Hq]. cbn in Hq.
    apply enumerate_lookup in Hit as [_ Hit].
    apply enumerate_lookup in Hin as [_ Hin].
    assert (t' = t) as -> by congruence.
    rewrite Ec in Hq. discriminate Hq.
  - apply negb_false_iff, bool_decide_eq_true.
    apply list_elem_of_In, in_map_iff. exists (i, t). split; [reflexivity|].
    apply filter_In. split; [exact Hit|]. cbn. rewrite Ec. reflexivity.
Qed.

Section Cleaning.
Context {py : PyBuiltins}.

(** X20. The cleaning step either leaves the active set as it is and sets
    nothing aside, or, when some text does not decode clean and the oracle
    agrees to the removal, keeps exactly the texts that the key decodes to
    printable ASCII without forbidden punctuation and sets aside exactly
    the others, both in their order in the active set. *)
Theorem cleaning_splits_by_decoding (target_key : bytes)
    (set_text kept removed : list bytes) (w w' : world) :
  check_and_remove_invalid_chars target_key set_text w
  = (Return (kept, removed), w') ->
  (kept = set_text /\ removed = []) \/
  (removed <> [] /\
   kept = List.filter (decodes_clean target_key) set_text /\
   removed = List.filter (fun t => negb (decodes_clean target_key t)) set_text).
Proof.
  unfold check_and_remove_invalid_chars. cbv zeta.
  unfold bind, emit, input, ret. cbn [replies trace].
  destruct (get_invalid_idxs (xor_key_text_list target_key set_text))
    as [|i ids] eqn:Ei.
  - intros [= <- <- <-]. left. split; reflexivity.
  - destruct (replies w) as [|[choice|] rest]; cbn [replies trace];
      try discriminate.
    destruct (affirmative choice).
    + rewrite <- Ei. intros [= <- <- <-]. right.
      rewrite kept_texts_spec, removed_texts_spec.
      split; [|split; reflexivity].
      intros Hnil.
      pose proof (removed_texts_spec target_key set_text) as Hr.
      rewrite Hnil in Hr. rewrite get_invalid_idxs_spec in Ei, Hr.
      unfold enumerate in Ei, Hr.
      assert (Hin : In i (map fst
                (List.filter
                   (fun ix : nat * bytes => negb (decodes_clean target_key ix.2))
                   (combine (seq 0 (length set_text)) set_text))))
        by (rewrite Ei; left; reflexivity).
      apply in_map_iff in Hin as ([i' t] & _ & Hin).
      apply filter_In in Hin as [Hin Hq]. cbn in Hq.
      apply in_combine_r in Hin.
      assert (Ht : In t (List.filter
                           (fun t => negb (decodes_clean target_key t))
                           set_text))
        by (apply filter_In; split; assumption).
      rewrite Hnil in Ht. destruct Ht.
    + intros [= <- <- <-]. left. split; reflexivity.
Qed.

(** X21. When the key decodes every text of the active set clean, the
    cleaning step asks the oracle nothing: it logs its decoding and returns
    the active set with nothing set aside. *)
Theorem cleaning_asks_nothing_when_clean (target_key : bytes)
    (set_text : list bytes) (w : world) :
  Forall (fun t => decodes_clean target_key t = true) set_text ->
  check_and_remove_invalid_chars target_key set_text w
  = (Return (set_text, []), logged w (Decode Cleaning target_key set_text)).
Proof.
  intros Hc. unfold check_and_remove_invalid_chars. cbv zeta.
  rewrite get_invalid_idxs_spec.
  assert (E : List.filter
                (fun ix : nat * bytes => negb (decodes_clean target_key ix.2))
                (enumerate set_text) = []).
  { rewrite (filter_ext_in _ (fun _ => false)); [apply List.filter_false|].
    intros [i t] Hit. cbn.
    unfold enumerate in Hit. apply in_combine_r in Hit.
    rewrite Forall_forall in Hc. rewrite (Hc t); [reflexivity|].
    apply list_elem_of_In, Hit. }
  rewrite E. reflexivity.
Qed.

End Cleaning.

Lemma cleaning_asks_nothing_when_clean_witness :
  check_and_remove_invalid_chars (py := ascii_builtins) (bytes_of "th")
    [six_zeros; cat_text] rejecting_oracle
  = (Return ([six_zeros; cat_text], []),
     logged rejecting_oracle
            (Decode Cleaning (bytes_of "th") [six_zeros; cat_text])).
Proof.
  apply (cleaning_asks_nothing_when_clean (py := ascii_builtins)
           (bytes_of "th") [six_zeros; cat_text] rejecting_oracle).
  repeat constructor.
Defined.

Lemma cleaning_splits_by_decoding_witness :
  ([six_zeros] = [six_zeros; [xff; x00; x00]] /\ [[xff; x00; x00]] = []) \/
  ([[xff; x00; x00]] <> [] /\
   [six_zeros] = List.filter (decodes_clean (bytes_of "th"))
                             [six_zeros; [xff; x00; x00]] /\
   [[xff; x00; x00]]
   = List.filter (fun t => negb (decodes_clean (bytes_of "th") t))
                 [six_zeros; [xff; x00; x00]]).
Proof.
  apply (cleaning_splits_by_decoding (py := ascii_builtins) (bytes_of "th")
           [six_zeros; [xff; x00; x00]] [six_zeros] [[xff; x00; x00]]
           {| replies := [Line (str_of "y")]; trace := [] |}
           {| replies := [];
              trace := [Decode Cleaning (bytes_of "th")
                               [six_zeros; [xff; x00; x00]]] |}).
  vm_compute. reflexivity.
Defined.

(** ** What the session returns *)

Lemma longer_than_incl (key : bytes) (texts : list bytes) :
  incl (longer_than key texts) texts.
Proof. apply incl_filter. Qed.

Section SessionTexts.
Context {py : PyBuiltins}.
Variable word_finder : WordFinder.
Variable texts : list bytes.

Lemma returns_cleaning (key : bytes) (set_text : list bytes) :
  incl set_text texts ->
  returns (check_and_remove_invalid_chars key set_text)
          (fun r => incl r.1 texts /\ incl r.2 texts).
Proof.
  intros Hs w r w'. unfold check_and_remove_invalid_chars. cbv zeta.
  unfold bind, emit, input, ret. cbn [replies trace].
  destruct (get_invalid_idxs (xor_key_text_list key set_text))
    as [|i ids] eqn:Ei.
  - intros [= <- <-]. split; [exact Hs|apply incl_nil_l].
  - destruct (replies w) as [|[choice|] rest]; cbn [replies trace];
      try discriminate.
    destruct (affirmative choice).
    + rewrite <- Ei. intros [= <- <-]. cbn [fst snd].
      rewrite kept_texts_spec, removed_texts_spec.
      split; (eapply incl_tran; [apply incl_filter|exact Hs]).
    + intros [= <- <-]. split; [exact Hs|apply incl_nil_l].
Qed.

Lemma returns_clean_step (target_key : bytes)
    (my_new_key my_new_key_ : option bytes) (set_text invalid_pts : list bytes) :
  incl set_text texts -> incl invalid_pts texts ->
  returns (clean_step target_key my_new_key my_new_key_ set_text invalid_pts)
          (flow_within texts).
Proof.
  intros Hs Hi. unfold clean_step.
  destruct my_new_key as [[|b key]|];
    try (apply returns_ret; split; assumption).
  eapply returns_interruptible; [apply returns_cleaning, Hs|exact Hi|].
  intros r [Hk Hr]. apply returns_ret. split; [exact Hk|].
  cbn [v_invalid_pts]. apply incl_app; assumption.
Qed.

Lemma returns_manual_round (target_key : bytes) (my_new_key : option bytes)
    (set_text invalid_pts : list bytes) :
  incl set_text texts -> incl invalid_pts texts ->
  returns (manual_round target_key my_new_key set_text invalid_pts)
          (flow_within texts).
Proof.
  intros Hs Hi. unfold manual_round.
  eapply returns_interruptible; [apply returns_any|exact Hi|]. intros key _.
  eapply returns_interruptible; [apply returns_any|exact Hi|]. intros v _.
  apply returns_clean_step; assumption.
Qed.

Lemma returns_retry_loose (target_key new_target_key : bytes)
    (set_text invalid_pts : list bytes) :
  incl set_text texts -> incl invalid_pts texts ->
  returns (retry_loose word_finder target_key new_target_key set_text
                       invalid_pts)
          (flow_within texts).
Proof.
  intros Hs Hi. unfold retry_loose. cbv zeta.
  eapply returns_bind; [apply returns_any|]. intros _ _.
  eapply returns_attempt;
    [apply returns_any|exact Hi|apply returns_manual_round; assumption|].
  intros keys _.
  eapply returns_attempt;
    [apply returns_any|exact Hi|apply returns_manual_round; assumption|].
  intros key_ _.
  eapply returns_attempt;
    [apply returns_any|exact Hi|apply returns_manual_round; assumption|].
  intros [[|b key]|] _; try (apply returns_ret; split; assumption).
  eapply returns_attempt;
    [apply returns_cleaning, Hs|exact Hi
    |apply returns_manual_round; assumption|].
  intros r [Hk Hr]. apply returns_ret. split; [exact Hk|].
  cbn [v_invalid_pts]. apply incl_app; assumption.
Qed.

Lemma returns_manual_if_none (target_key : bytes) (f : flow) :
  flow_within texts f ->
  returns (manual_if_none target_key f) (flow_within texts).
Proof.
  intros Hf. unfold manual_if_none. destruct f as [v|r].
  - destruct (truthy_key _); [apply returns_ret, Hf|].
    destruct Hf. apply returns_manual_round; assumption.
  - apply returns_ret, Hf.
Qed.

Lemma returns_give_up_if_none (target_key : bytes) (f : flow) :
  flow_within texts f ->
  returns (give_up_if_none target_key f) (flow_within texts).
Proof.
  intros Hf. unfold give_up_if_none. destruct f as [v|r].
  - destruct (truthy_key _); apply returns_ret; [exact Hf|apply Hf].
  - apply returns_ret, Hf.
Qed.

Lemma returns_after_validation (target_key new_target_key : bytes)
    (my_new_key_ : option bytes) (set_text invalid_pts : list bytes)
    (result : option bytes) :
  incl set_text texts -> incl invalid_pts texts ->
  returns (after_validation word_finder target_key new_target_key my_new_key_
                            set_text invalid_pts result)
          (flow_within texts).
Proof.
  intros Hs Hi. unfold after_validation.
  destruct (truthy_key result).
  - destruct (bool_decide _); [apply returns_ret; split; assumption|].
    eapply returns_bind; [apply returns_retry_loose; assumption|].
    intros f Hf.
    eapply returns_bind; [apply returns_manual_if_none, Hf|].
    intros f' Hf'. apply returns_give_up_if_none, Hf'.
  - eapply returns_bind; [apply returns_manual_round; assumption|].
    intros f Hf. apply returns_give_up_if_none, Hf.
Qed.

Lemma returns_confirm (target_key new_target_key : bytes)
    (my_new_key_ : option bytes) (set_text invalid_pts : list bytes) :
  incl set_text texts -> incl invalid_pts texts ->
  returns (confirm word_finder target_key new_target_key my_new_key_ set_text
                   invalid_pts)
          (flow_within texts).
Proof.
  intros Hs Hi. unfold confirm.
  eapply returns_interruptible; [apply returns_any|exact Hi|].
  intros result _. apply returns_after_validation; assumption.
Qed.

Lemma returns_loop_body (target_key : bytes) (my_new_key_ : option bytes)
    (set_text invalid_pts : list bytes) :
  incl set_text texts -> incl invalid_pts texts ->
  returns (loop_body word_finder target_key my_new_key_ set_text invalid_pts)
          (flow_within texts).
Proof.
  intros Hs Hi. unfold loop_body.
  eapply returns_bind; [apply returns_any|]. intros _ _.
  eapply returns_bind; [apply returns_any|].
  intros [key|[|k keys]] _.
  - apply returns_confirm; assumption.
  - apply returns_ret, Hi.
  - destruct (last _) as [temp_key|]; [|intros w a w'; discriminate].
    eapply returns_interruptible; [apply returns_any|exact Hi|].
    intros validated _. destruct (truthy_key validated).
    + apply returns_confirm; assumption.
    + apply returns_ret, Hi.
Qed.

Lemma returns_session_loop (fuel : nat) :
  forall target_key my_new_key my_new_key_ set_text invalid_pts,
    incl set_text texts -> incl invalid_pts texts ->
    returns (session_loop word_finder fuel target_key my_new_key my_new_key_
                          set_text invalid_pts)
            (fun r => incl (result_invalid_pts r) texts).
Proof.
  induction fuel as [|fuel IH];
    intros target_key my_new_key my_new_key_ set_text invalid_pts Hs Hi;
    cbn [session_loop].
  - destruct (_ =? 1)%nat; [apply returns_ret, Hi|].
    intros w a w'; discriminate.
  - destruct (_ =? 1)%nat; [apply returns_ret, Hi|].
    destruct my_new_key as [key|]; [|intros w a w'; discriminate].
    cbv zeta. destruct (_ =? 1)%nat; [apply returns_ret, incl_nil_l|].
    eapply returns_bind.
    + apply returns_loop_body; [|exact Hi].
      eapply incl_tran; [apply longer_than_incl|exact Hs].
    + intros [v|r] Hf; [|apply returns_ret, Hf].
      destruct Hf. apply IH; assumption.
Qed.

(** X22. Whatever the oracle replies, the ciphertexts a session reports
    as set aside are ciphertexts it was given. *)
Theorem session_sets_aside_given_texts (fuel : nat) (target_key : bytes)
    (w w' : world) (r : session_result) :
  interactive_crib_dragging word_finder fuel target_key texts w
  = (Return r, w') ->
  incl (result_invalid_pts r) texts.
Proof.
  intros Hr.
  exact (returns_session_loop fuel target_key (Some target_key) None texts []
           (incl_refl texts) (incl_nil_l texts) w r w' Hr).
Qed.

End SessionTexts.

Lemma session_sets_aside_given_texts_witness :
  incl [[x00; x46; x00]] [six_zeros; six_zeros; [x00; x46; x00]].
Proof.
  apply (session_sets_aside_given_texts (py := ascii_builtins) small_corpus
           [six_zeros; six_zeros; [x00; x46; x00]] 10 (bytes_of "a")
           {| replies := [Line (str_of "n"); Line (str_of "0");
                          Line (str_of "hello"); Line (str_of "y");
                          Line (str_of "y"); Interrupt];
              trace := [] |}
           (interactive_crib_dragging (py := ascii_builtins) small_corpus 10
              (bytes_of "a") [six_zeros; six_zeros; [x00; x46; x00]]
              {| replies := [Line (str_of "n"); Line (str_of "0");
                             Line (str_of "hello"); Line (str_of "y");
                             Line (str_of "y"); Interrupt];
                 trace := [] |}).2
           (Interrupted (bytes_of "hello") None [[x00; x46; x00]])).
  vm_compute. reflexivity.
Defined.

(** ** The turns of the session *)

Section SessionTurns.
Context {py : PyBuiltins}.
Variable word_finder : WordFinder.



Lemma identify_potential_keys_no_texts (target_key : bytes)
    (strict_filter : Z) (add_space : bool) :
  identify_potential_keys word_finder target_key [] strict_filter add_space
  = Return (KeyList []).
Proof.
  unfold identify_potential_keys. cbv zeta. cbn [longer_than List.filter].
  assert (Hc : forall key strict, check_potential_stream key [] strict = Some [])
    by (intros key []; reflexivity).
  rewrite Hc. cbn [count_keys obind].
  assert (Hs : surviving_keys [] strict_filter
                 (drop_target_key target_key strict_filter []) = []).
  { unfold surviving_keys.
    induction (counter_keys _) as [|x l IH]; [reflexivity|].
    cbn [List.filter]. rewrite Hc. exact IH. }
  rewrite Hs. reflexivity.
Qed.

(** X24. A session given ciphertexts none of which is longer than the key
    (and not exactly one ciphertext) returns the key with an empty
    set-aside list at its first turn, without asking the oracle
    anything: the generator runs on no text and proposes nothing. *)
Theorem session_without_longer_texts (fuel : nat) (target_key : bytes)
    (set_text : list bytes) (w : world) :
  longer_than target_key set_text = [] ->
  length set_text <> 1%nat ->
  interactive_crib_dragging word_finder (S fuel) target_key set_text w
  = (Return (NoExtension target_key []),
     logged w (Decode Generate target_key [])).
Proof.
  intros He Hn. unfold interactive_crib_dragging. cbn [session_loop].
  apply Nat.eqb_neq in Hn. rewrite Hn. cbv zeta. rewrite He.
  cbn [length Nat.eqb]. unfold loop_body, bind, emit, lift.
  cbn [longer_than List.filter].
  rewrite identify_potential_keys_no_texts. reflexivity.
Qed.

End SessionTurns.


Lemma session_without_longer_texts_witness :
  interactive_crib_dragging (py := ascii_builtins) small_corpus 1
    (bytes_of "hello") [two_zeros; two_zeros] rejecting_oracle
  = (Return (NoExtension (bytes_of "hello") []),
     logged rejecting_oracle (Decode Generate (bytes_of "hello") [])).
Proof.
  apply (session_without_longer_texts (py := ascii_builtins) small_corpus 0
           (bytes_of "hello") [two_zeros; two_zeros] rejecting_oracle).
  - reflexivity.
  - cbn. lia.
Defined.

(** ** The keys of the session *)

Lemma grows_refl (w : world) : grows w w.
Proof. exists []. symmetry. apply app_nil_r. Qed.

Lemma grows_trans (w1 w2 w3 : world) : grows w1 w2 -> grows w2 w3 -> grows w1 w3.
Proof.
  intros [l1 H1] [l2 H2]. exists (l1 ++ l2).
  rewrite H2, H1. symmetry. apply app_assoc.
Qed.

Lemma grows_logged (w : world) (e : event) : grows w (logged w e).
Proof. exists [e]. reflexivity. Qed.

Lemma grows_answered (w : world) (x : reply) (rest : list reply) :
  replies w = x :: rest -> grows w (answered w rest).
Proof. intros _. exists []. symmetry. apply app_nil_r. Qed.

Lemma shown_since_grows (w0 w w' : world) (key : bytes) :
  shown_since w0 w key -> grows w w' -> shown_since w0 w' key.
Proof.
  intros (l & texts & Ht & Hin) [l' Ht']. exists (l ++ l'), texts.
  split; [rewrite Ht', Ht; symmetry; apply app_assoc|].
  apply in_or_app. left. exact Hin.
Qed.

Section SessionKeys.
Context {py : PyBuiltins}.
Variable word_finder : WordFinder.
Variable w0 : world.

Ltac grows_conditions :=
  first [exact grows_refl | exact grows_trans
        | exact (fun w e (_ : True) => grows_logged w e)
        | exact grows_answered | (intros; exact I)].

Lemma grows_get_input_key (target_key : bytes) (target_texts : list bytes) :
  keeps grows (get_input_key target_key target_texts).
Proof.
  apply keeps_get_input_key with (ok := fun _ => True) (good := fun _ => True);
    grows_conditions.
Qed.

Lemma grows_validate_key (target_key : option bytes) (set_text : list bytes) :
  keeps grows (validate_key target_key set_text).
Proof.
  apply keeps_validate_key with (ok := fun _ => True) (good := fun _ => True);
    grows_conditions.
Qed.

Lemma grows_check_and_remove (target_key : bytes) (set_text : list bytes) :
  keeps grows (check_and_remove_invalid_chars target_key set_text).
Proof.
  apply keeps_check_and_remove with (ok := fun _ => True) (good := fun _ => True);
    grows_conditions.
Qed.

Lemma grows_get_new_keys (new_target_keys : keys_result)
    (set_text : list bytes) :
  keeps grows (get_new_keys new_target_keys set_text).
Proof.
  apply keeps_get_new_keys with (ok := fun _ => True) (good := fun _ => True);
    grows_conditions.
Qed.

Lemma grows_identify (target_key : bytes) (set_text : list bytes) (strict : Z)
    (add_space : bool) :
  keeps grows (lift (identify_potential_keys word_finder target_key set_text
                                             strict add_space)).
Proof. apply keeps_identify; grows_conditions. Qed.

Lemma grows_retry_loose (target_key new_target_key : bytes)
    (set_text invalid_pts : list bytes) :
  keeps grows (retry_loose word_finder target_key new_target_key set_text
                           invalid_pts).
Proof.
  apply keeps_retry_loose with (ok := fun _ => True) (good := fun _ => True);
    grows_conditions.
Qed.

Lemma grows_manual_if_none (target_key : bytes) (f : flow) :
  keeps grows (manual_if_none target_key f).
Proof.
  apply keeps_manual_if_none
    with (ok := fun _ => True) (good := fun _ => True);
    try grows_conditions.
  destruct f; exact I.
Qed.

Lemma grows_loop_body (target_key : bytes) (my_new_key_ : option bytes)
    (set_text invalid_pts : list bytes) :
  keeps grows (loop_body word_finder target_key my_new_key_ set_text
                         invalid_pts).
Proof.
  apply keeps_loop_body with (ok := fun _ => True) (good := fun _ => True);
    grows_conditions.
Qed.

(** [validate_key] shows the key it is given, and returns it or [None]. *)
Lemma validate_key_shows (key : bytes) (set_text : list bytes)
    (w w' : world) (a : option bytes) :
  grows w0 w ->
  validate_key (Some key) set_text w = (Return a, w') ->
  shown_since w0 w' key.
Proof.
  intros [l Hl]. unfold validate_key, bind, emit, input, ret.
  cbn [replies trace].
  destruct (replies w) as [|[s|] rest]; try discriminate.
  destruct (affirmative s); intros [= <- <-];
    (exists (l ++ [Decode Validate key set_text]), set_text; cbn [trace];
     split; [rewrite Hl; symmetry; apply app_assoc|];
     apply in_or_app; right; left; reflexivity).
Qed.

Lemma validate_key_returns_shown (target_key : option bytes)
    (set_text : list bytes) (w w' : world) (a : option bytes) (key : bytes) :
  grows w0 w ->
  validate_key target_key set_text w = (Return a, w') ->
  a = Some key -> shown_since w0 w' key.
Proof.
  intros Hg Hr ->. destruct target_key as [k|].
  - assert (k = key) as ->.
    { revert Hr. unfold validate_key, bind, emit, input, ret.
      cbn [replies trace].
      destruct (replies w) as [|[s|] rest]; try discriminate.
      destruct (affirmative s); intros [= E _]; congruence. }
    eapply validate_key_shows; eassumption.
  - revert Hr. unfold validate_key, bind, emit, input, ret, raise.
    destruct set_text; try discriminate.
    destruct (replies w) as [|[s|] rest]; try discriminate.
    destruct (affirmative s); discriminate.
Qed.

Lemma interruptible_shown {A} (c : M A) (r0 : session_result)
    (k : A -> M flow) (target_key : bytes) (w w' : world) (f : flow) :
  keeps grows c -> result_key r0 = target_key ->
  (forall a w1, c w = (Return a, w1) -> grows w w1 ->
                k a w1 = (Return f, w') -> flow_shown w0 target_key f w') ->
  interruptible c r0 k w = (Return f, w') ->
  flow_shown w0 target_key f w'.
Proof.
  intros Hc H0 Hk Hr.
  apply interruptible_Return_inv in Hr as [(a & w1 & Ha & Hf)|[-> _]].
  - exact (Hk a w1 Ha (proj1 (Hc _ _ _ Ha)) Hf).
  - exact H0.
Qed.

Lemma attempt_shown {A} (c : M A) (r0 : session_result) (h : M flow)
    (k : A -> M flow) (target_key : bytes) (w w' : world) (f : flow) :
  keeps grows c -> result_key r0 = target_key ->
  (forall w1, grows w w1 -> h w1 = (Return f, w') ->
              flow_shown w0 target_key f w') ->
  (forall a w1, c w = (Return a, w1) -> grows w w1 ->
                k a w1 = (Return f, w') -> flow_shown w0 target_key f w') ->
  attempt c r0 h k w = (Return f, w') ->
  flow_shown w0 target_key f w'.
Proof.
  intros Hc H0 Hh Hk Hr.
  apply attempt_Return_inv in Hr
    as [(a & w1 & Ha & Hf)|[[-> _]|(w1 & Ha & Hf)]].
  - exact (Hk a w1 Ha (proj1 (Hc _ _ _ Ha)) Hf).
  - exact H0.
  - exact (Hh w1 (proj1 (Hc _ _ _ Ha)) Hf).
Qed.

Lemma clean_step_shown (target_key : bytes)
    (my_new_key my_new_key_ : option bytes) (set_text invalid_pts : list bytes)
    (w w' : world) (f : flow) :
  (forall key, my_new_key = Some key -> shown_since w0 w key) ->
  clean_step target_key my_new_key my_new_key_ set_text invalid_pts w
  = (Return f, w') ->
  flow_shown w0 target_key f w'.
Proof.
  intros Hpre. unfold clean_step.
  destruct my_new_key as [[|b key]|]; try (intros [= <- <-]; exact Hpre).
  apply interruptible_shown;
    [apply grows_check_and_remove|reflexivity|].
  intros r w1 _ Hg [= <- <-]. intros k Hk.
  eapply shown_since_grows; [apply Hpre, Hk|exact Hg].
Qed.

Lemma manual_round_shown (target_key : bytes) (my_new_key : option bytes)
    (set_text invalid_pts : list bytes) (w w' : world) (f : flow) :
  grows w0 w ->
  manual_round target_key my_new_key set_text invalid_pts w = (Return f, w') ->
  flow_shown w0 target_key f w'.
Proof.
  intros Hg. unfold manual_round.
  apply interruptible_shown; [apply grows_get_input_key|reflexivity|].
  intros key_ w1 _ Hg1.
  apply interruptible_shown; [apply grows_validate_key|reflexivity|].
  intros validated w2 Hv _.
  apply clean_step_shown. intros key Hk.
  eapply validate_key_returns_shown;
    [exact (grows_trans _ _ _ Hg Hg1)|exact Hv|exact Hk].
Qed.

Lemma retry_loose_shown (target_key new_target_key : bytes)
    (set_text invalid_pts : list bytes) (w w' : world) (f : flow) :
  grows w0 w ->
  retry_loose word_finder target_key new_target_key set_text invalid_pts w
  = (Return f, w') ->
  flow_shown w0 target_key f w'.
Proof.
  intros Hg Hr. unfold retry_loose in Hr. cbv zeta in Hr.
  apply bind_Return_inv in Hr as (u & w1 & He & Hr).
  injection He as _ <-.
  assert (Hg1 : grows w0 (logged w (Decode Generate new_target_key set_text)))
    by (eapply grows_trans; [exact Hg|apply grows_logged]).
  fold (logged w (Decode Generate new_target_key set_text)) in Hr.
  revert Hr.
  apply attempt_shown; [apply grows_identify|reflexivity| |].
  { intros w2 Hg2. apply manual_round_shown.
    exact (grows_trans _ _ _ Hg1 Hg2). }
  intros new_target_keys w2 _ Hg2.
  assert (Hg02 := grows_trans _ _ _ Hg1 Hg2).
  apply attempt_shown; [apply grows_get_new_keys|reflexivity| |].
  { intros w3 Hg3. apply manual_round_shown.
    exact (grows_trans _ _ _ Hg02 Hg3). }
  intros my_new_key_ w3 _ Hg3.
  assert (Hg03 := grows_trans _ _ _ Hg02 Hg3).
  apply attempt_shown; [apply grows_validate_key|reflexivity| |].
  { intros w4 Hg4. apply manual_round_shown.
    exact (grows_trans _ _ _ Hg03 Hg4). }
  intros my_new_key w4 Hv Hg4.
  assert (Hg04 := grows_trans _ _ _ Hg03 Hg4).
  assert (Hshown : forall key, my_new_key = Some key -> shown_since w0 w4 key).
  { intros key Hk.
    exact (validate_key_returns_shown _ _ _ _ _ _ Hg03 Hv Hk). }
  destruct my_new_key as [[|b key]|]; try (intros [= <- <-]; exact Hshown).
  apply attempt_shown; [apply grows_check_and_remove|reflexivity| |].
  { intros w5 Hg5. apply manual_round_shown.
    exact (grows_trans _ _ _ Hg04 Hg5). }
  intros r w5 _ Hg5 [= <- <-]. intros k Hk.
  eapply shown_since_grows; [apply Hshown, Hk|exact Hg5].
Qed.

Lemma manual_if_none_shown (target_key : bytes) (f f' : flow) (w w' : world) :
  grows w0 w -> flow_shown w0 target_key f w ->
  manual_if_none target_key f w = (Return f', w') ->
  flow_shown w0 target_key f' w'.
Proof.
  intros Hg Hf. unfold manual_if_none. destruct f as [v|r].
  - destruct (truthy_key _); [intros [= <- <-]; exact Hf|].
    apply manual_round_shown, Hg.
  - intros [= <- <-]. exact Hf.
Qed.

Lemma give_up_if_none_shown (target_key : bytes) (f f' : flow) (w w' : world) :
  flow_shown w0 target_key f w ->
  give_up_if_none target_key f w = (Return f', w') ->
  flow_shown w0 target_key f' w'.
Proof.
  intros Hf. unfold give_up_if_none. destruct f as [v|r].
  - destruct (truthy_key _); intros [= <- <-]; [exact Hf|reflexivity].
  - intros [= <- <-]. exact Hf.
Qed.

Lemma after_validation_shown (target_key new_target_key : bytes)
    (my_new_key_ : option bytes) (set_text invalid_pts : list bytes)
    (result : option bytes) (w w' : world) (f : flow) :
  grows w0 w -> shown_since w0 w new_target_key ->
  after_validation word_finder target_key new_target_key my_new_key_ set_text
                   invalid_pts result w = (Return f, w') ->
  flow_shown w0 target_key f w'.
Proof.
  intros Hg Hs. unfold after_validation. destruct (truthy_key result).
  - destruct (bool_decide _).
    + intros [= <- <-]. intros key [= <-]. exact Hs.
    + intros Hr. apply bind_Return_inv in Hr as (f1 & w1 & H1 & Hr).
      apply bind_Return_inv in Hr as (f2 & w2 & H2 & Hr).
      assert (Hg1 : grows w0 w1)
        by (eapply grows_trans; [exact Hg|apply (grows_retry_loose _ _ _ _ _ _ _ H1)]).
      eapply give_up_if_none_shown; [|exact Hr].
      eapply manual_if_none_shown; [exact Hg1| |exact H2].
      eapply retry_loose_shown; [exact Hg|exact H1].
  - intros Hr. apply bind_Return_inv in Hr as (f1 & w1 & H1 & Hr).
    eapply give_up_if_none_shown; [|exact Hr].
    eapply manual_round_shown; [exact Hg|exact H1].
Qed.

Lemma confirm_shown (target_key new_target_key : bytes)
    (my_new_key_ : option bytes) (set_text invalid_pts : list bytes)
    (w w' : world) (f : flow) :
  grows w0 w ->
  confirm word_finder target_key new_target_key my_new_key_ set_text
          invalid_pts w = (Return f, w') ->
  flow_shown w0 target_key f w'.
Proof.
  intros Hg. unfold confirm.
  apply interruptible_shown; [apply grows_validate_key|reflexivity|].
  intros result w1 Hv Hg1.
  apply after_validation_shown; [exact (grows_trans _ _ _ Hg Hg1)|].
  eapply validate_key_shows; [exact Hg|exact Hv].
Qed.

Lemma loop_body_shown (target_key : bytes) (my_new_key_ : option bytes)
    (set_text invalid_pts : list bytes) (w w' : world) (f : flow) :
  grows w0 w ->
  loop_body word_finder target_key my_new_key_ set_text invalid_pts w
  = (Return f, w') ->
  flow_shown w0 target_key f w'.
Proof.
  intros Hg Hr. unfold loop_body in Hr.
  apply bind_Return_inv in Hr as (u & w1 & He & Hr).
  injection He as _ <-.
  apply bind_Return_inv in Hr as (keys & w2 & Hk & Hr).
  injection Hk as _ <-.
  fold (logged w (Decode Generate target_key set_text)) in Hr.
  assert (Hg1 : grows w0 (logged w (Decode Generate target_key set_text)))
    by (eapply grows_trans; [exact Hg|apply grows_logged]).
  destruct keys as [key|[|k keys]].
  - eapply confirm_shown; [exact Hg1|exact Hr].
  - injection Hr as <- <-. reflexivity.
  - destruct (last _) as [temp_key|]; [|discriminate Hr].
    revert Hr.
    apply interruptible_shown; [apply grows_validate_key|reflexivity|].
    intros validated w3 _ Hg3.
    destruct (truthy_key validated); [|intros [= <- <-]; reflexivity].
    apply confirm_shown. exact (grows_trans _ _ _ Hg1 Hg3).
Qed.

Lemma session_loop_shown (key0 : bytes) (fuel : nat) :
  forall target_key my_new_key my_new_key_ set_text invalid_pts w w' r,
    grows w0 w ->
    (target_key = key0 \/ shown_since w0 w target_key) ->
    (forall key, my_new_key = Some key -> key = key0 \/ shown_since w0 w key) ->
    session_loop word_finder fuel target_key my_new_key my_new_key_ set_text
                 invalid_pts w = (Return r, w') ->
    result_key r = key0 \/ shown_since w0 w' (result_key r).
Proof.
  induction fuel as [|fuel IH];
    intros target_key my_new_key my_new_key_ set_text invalid_pts w w' r
           Hg Ht Hm; cbn [session_loop].
  - destruct (_ =? 1)%nat; [intros [= <- <-]; exact Ht|discriminate].
  - destruct (_ =? 1)%nat; [intros [= <- <-]; exact Ht|].
    destruct my_new_key as [key|]; [|discriminate].
    specialize (Hm key eq_refl). cbv zeta.
    destruct (_ =? 1)%nat; [intros [= <- <-]; exact Hm|].
    intros Hr. apply bind_Return_inv in Hr as (f & w1 & Hb & Hr).
    pose proof (proj1 (grows_loop_body _ _ _ _ _ _ _ Hb)) as Hg1.
    assert (Hkey : key = key0 \/ shown_since w0 w1 key).
    { destruct Hm as [->|Hm]; [left; reflexivity|right].
      eapply shown_since_grows; eassumption. }
    apply loop_body_shown in Hb; [|exact Hg].
    destruct f as [v|res].
    + eapply IH; [exact (grows_trans _ _ _ Hg Hg1)|exact Hkey| |exact Hr].
      intros k Hk. right. apply Hb, Hk.
    + injection Hr as <- <-. cbn [flow_shown] in Hb. rewrite Hb. exact Hkey.
Qed.

End SessionKeys.

Section SessionKeyShown.
Context {py : PyBuiltins}.
Variable word_finder : WordFinder.

(** X25. The key a session returns is the key it was started with, or a
    key that [validate_key] has put before the oracle during the session:
    the session adopts no key that it has not shown in the confirmation
    prompt. *)
Theorem session_returns_shown_key (fuel : nat) (target_key : bytes)
    (set_text : list bytes) (w w' : world) (r : session_result) :
  interactive_crib_dragging word_finder fuel target_key set_text w
  = (Return r, w') ->
  result_key r = target_key \/
  exists l texts,
    trace w' = trace w ++ l /\ In (Decode Validate (result_key r) texts) l.
Proof.
  intros Hr.
  apply (session_loop_shown word_finder w target_key fuel target_key
           (Some target_key) None set_text [] w w' r (grows_refl w)).
  - left. reflexivity.
  - intros key [= <-]. left. reflexivity.
  - exact Hr.
Qed.

End SessionKeyShown.

Lemma session_returns_shown_key_witness :
  bytes_of "hello" = bytes_of "a" \/
  exists l texts,
    [Decode Generate (bytes_of "a") [six_zeros; two_zeros];
     Decode Validate (bytes_of "a") [six_zeros; two_zeros];
     Decode Manual (bytes_of "a") [six_zeros; two_zeros];
     Decode ManualCheck (bytes_of "hello") [six_zeros; two_zeros];
     Decode Validate (bytes_of "hello") [six_zeros; two_zeros];
     Decode Cleaning (bytes_of "hello") [six_zeros; two_zeros]]
    = [] ++ l /\
    In (Decode Validate (bytes_of "hello") texts) l.
Proof.
  apply (session_returns_shown_key (py := ascii_builtins) small_corpus 10
           (bytes_of "a") [six_zeros; two_zeros] rejecting_oracle
           {| replies := [];
              trace :=
                [Decode Generate (bytes_of "a") [six_zeros; two_zeros];
                 Decode Validate (bytes_of "a") [six_zeros; two_zeros];
                 Decode Manual (bytes_of "a") [six_zeros; two_zeros];
                 Decode ManualCheck (bytes_of "hello") [six_zeros; two_zeros];
                 Decode Validate (bytes_of "hello") [six_zeros; two_zeros];
                 Decode Cleaning (bytes_of "hello") [six_zeros; two_zeros]] |}
           (Converged (bytes_of "hello"))).
  vm_compute. reflexivity.
Defined.

(** ** The sentence check *)

Section SentenceCheck.
Context {py : PyBuiltins}.
Variable self : WordFinder.

(** X26. Without [strict], [check_sentence] is [check_ascii].  With
    [strict] it accepts a byte string exactly when every byte is printable
    ASCII and every word of it, split at white space after the punctuation
    characters have been taken out, is a word of the dictionary. *)
Theorem check_sentence_words (sentence : bytes) :
  check_sentence self sentence false = check_ascii sentence /\
  (check_sentence self sentence true = true <->
   check_ascii sentence = true /\
   Forall (fun word => In word (all_words self))
          (str_split
             (List.filter (fun c => negb (char_in c string_punctuation))
                          (map Byte.to_N sentence)))).
Proof.
  split.
  - unfold check_sentence, check_ascii.
    destruct (utf8_decode sentence) as [s|]; [|reflexivity].
    destruct (check_ascii_str s); reflexivity.
  - destruct (check_ascii sentence) eqn:Ea.
    + pose proof (utf8_decode_ascii _ (printable_bytes_ascii _ Ea)) as Hd.
      unfold check_sentence. unfold check_ascii in Ea. rewrite Hd in Ea |- *.
      rewrite Ea. cbv zeta. rewrite bool_decide_eq_true.
      unfold all_words_set. rewrite Forall_forall. split.
      * intros Hsub. split; [reflexivity|]. intros word Hw.
        apply list_elem_of_In, (elem_of_list_to_set (C := gset str)), Hsub.
        apply elem_of_list_to_set, Hw.
      * intros [_ Hall] word Hw. apply elem_of_list_to_set in Hw.
        apply elem_of_list_to_set, list_elem_of_In, Hall, Hw.
    + split; [|intros [H _]; discriminate H].
      unfold check_sentence. unfold check_ascii in Ea.
      destruct (utf8_decode sentence) as [s|]; [|discriminate].
      rewrite Ea. discriminate.
Qed.

End SentenceCheck.
